(** * ftg_toolbox: the Base-89 tokenizer and the bit buffer

    A shallow embedding of [ftg_base89.h] and [ftg_bitbuffer.h].

    Conventions of the embedding:
    - a C unsigned integer of width [w] is a [Z] in [[0, 2^w)]; every
      operation that can leave that range is followed by its wrap-around
      ([u32], [u64]); a signed 64-bit result is re-centred with [s64];
    - a pointer into an array is the index of the element it points to;
    - [memcpy] into an integer is a little-endian load (the header states
      that the library assumes a little-endian host);
    - a call either returns, is stopped by an assertion hook, or leaves the
      behaviour C defines (an access outside the object, a shift by 64 or
      more): type [outcome];
    - [float] is IEEE 754 binary32 and every operation on it is rounded to
      [float], to nearest even (FLT_EVAL_METHOD 0, no contraction): the
      standard library's [spec_float] at precision 24 and exponent bound
      128. *)

From Stdlib Require Import ZArith List Lia Bool.
From Stdlib Require Import Floats.SpecFloat.
From coqutil Require Import Byte.
From stdpp Require Import base list.

Open Scope Z_scope.

(** ** Outcomes of a call *)

Inductive outcome (A : Type) : Type :=
| Ret (a : A)
| Abort
| Undefined
| OutOfFuel.

Arguments Ret {A} a.
Arguments Abort {A}.
Arguments Undefined {A}.
Arguments OutOfFuel {A}.

Definition bind {A B : Type} (m : outcome A) (k : A -> outcome B) : outcome B :=
  match m with
  | Ret a => k a
  | Abort => Abort
  | Undefined => Undefined
  | OutOfFuel => OutOfFuel
  end.

Definition outcome_map {A B : Type} (f : A -> B) (m : outcome A) : outcome B :=
  bind m (fun a => Ret (f a)).

Notation "'do' x <- m ; k" := (bind m (fun x => k))
  (at level 10, x name, m at level 100, k at level 200).
Notation "'check' m ; k" := (bind m (fun _ => k))
  (at level 10, m at level 100, k at level 200).

(** ** Assertion hooks

    Both headers route their checks through a macro that the including
    program chooses:
    - [B89__ASSERT(e)] is [FTG_ASSERT(e)] when ftg_core.h was included and
      [((void)0)] otherwise;
    - [BITBUF__ASSERT(e)] is [FTG_ASSERT(e)], a user-supplied
      [BITBUF_ASSERT(e)], or the C library's [assert(e)] (which vanishes
      under NDEBUG);
    - [BITBUF__ASSERT_FAIL("text")] is [FTG_ASSERT_FAIL], or
      [BITBUF_ASSERT(0 && "text")], or [assert("text")]; the last one never
      fires because a string literal is a non-null pointer.

    What a hook does when its condition is false is not in the headers, so
    it is a parameter: [assert_traps] says that a failed assertion stops
    the program, [assert_fail_traps] says that reaching an ASSERT_FAIL
    does. The library's own tests run with hooks that record the failure
    and return. *)

Record assert_cfg : Type := {
  assert_traps : bool;
  assert_fail_traps : bool
}.

(** The C library's [assert], NDEBUG not defined. *)
Definition libc_assert : assert_cfg :=
  {| assert_traps := true; assert_fail_traps := false |}.

(** Assertions compiled out, or a hook that records and returns. *)
Definition no_trap : assert_cfg :=
  {| assert_traps := false; assert_fail_traps := false |}.

Definition c_assert (cfg : assert_cfg) (cond : bool) : outcome unit :=
  if assert_traps cfg && negb cond then Abort else Ret tt.

Definition c_assert_fail (cfg : assert_cfg) : outcome unit :=
  if assert_fail_traps cfg then Abort else Ret tt.

(** ** Machine integers *)

Definition u32 (z : Z) : Z := z mod 2 ^ 32.
Definition u64 (z : Z) : Z := z mod 2 ^ 64.

(** Conversion of a 64-bit pattern to a signed 64-bit value. *)
Definition s64 (z : Z) : Z := (z + 2 ^ 63) mod 2 ^ 64 - 2 ^ 63.

(** [x << n] and [x >> n] on [uint64_t]; the count must be below 64. *)
Definition shl64 (x n : Z) : outcome Z :=
  if (0 <=? n) && (n <? 64) then Ret (u64 (Z.shiftl x n)) else Undefined.

Definition shr64 (x n : Z) : outcome Z :=
  if (0 <=? n) && (n <? 64) then Ret (Z.shiftr x n) else Undefined.

(** Little-endian value of a run of bytes. *)
Fixpoint le_word (bs : list byte) : Z :=
  match bs with
  | [] => 0
  | b :: t => byte.unsigned b + 2 ^ 8 * le_word t
  end.

(** [memcpy(&w, mem + off, n)] for an integer [w] of [n] bytes. *)
Definition load_le (mem : list byte) (off n : nat) : outcome Z :=
  let bs := take n (drop off mem) in
  if Nat.eqb (length bs) n then Ret (le_word bs) else Undefined.

(** [mem[off]], as the value of the byte. *)
Definition load_byte (mem : list byte) (off : nat) : outcome Z :=
  match mem !! off with
  | Some b => Ret (byte.unsigned b)
  | None => Undefined
  end.

(** * ftg_base89.h *)

Module B89.

Definition B89_ST : Z := 0x03.
Definition B89_ERROR_INDEX : Z := 0.
Definition B89_CODE_MAX : Z := 704968.
Definition B89__ORD_MIN : Z := 38.
Definition B89__ORD_MAX : Z := 126.
Definition B89__ORD_BASE : Z := (B89__ORD_MAX - B89__ORD_MIN) + 1.

(** [__builtin_ctzll]: the index of the lowest set bit, found by walking up
    from bit 0; the builtin has no defined result on 0. *)
Fixpoint ctz_from (fuel : nat) (x : Z) : Z :=
  match fuel with
  | O => 0
  | S f => if Z.odd x then 0 else 1 + ctz_from f (x / 2)
  end.

Definition ctzll (x : Z) : outcome Z :=
  if x =? 0 then Undefined else Ret (ctz_from 64 x).

Definition get_first_match_index (has_match : Z) : outcome Z :=
  do n <- ctzll has_match ;
  Ret (n / 8).

Definition ST_64BIT : Z := 0x0303030303030303.
Definition HAS_ZERO_SUB : Z := 0x0101010101010101.
Definition HAS_ZERO_HIGH : Z := 0x8080808080808080.

(** The [has_match] word of one iteration of the word loop. *)
Definition has_match_word (qword : Z) : Z :=
  let diff := Z.lxor qword ST_64BIT in
  Z.land (Z.land (u64 (diff - HAS_ZERO_SUB)) (u64 (Z.lnot diff))) HAS_ZERO_HIGH.

(** The tail loop of [scan_string_seg]. *)
Fixpoint scan_tail (fuel : nat) (mem : list byte) (in_ end_ : nat) : outcome nat :=
  match fuel with
  | O => OutOfFuel
  | S f =>
      if (in_ <? end_)%nat then
        do c <- load_byte mem in_ ;
        if c =? B89_ST then Ret in_
        else scan_tail f mem (S in_) end_
      else Ret end_
  end.

(** The word loop of [scan_string_seg], falling through to the tail loop. *)
Fixpoint scan_words (fuel : nat) (mem : list byte) (in_ end_ : nat) : outcome nat :=
  match fuel with
  | O => OutOfFuel
  | S f =>
      if (in_ + 8 <=? end_)%nat then
        do qword <- load_le mem in_ 8 ;
        let has_match := has_match_word qword in
        if negb (has_match =? 0) then
          do index <- get_first_match_index has_match ;
          Ret (in_ + Z.to_nat index)%nat
        else scan_words f mem (in_ + 8)%nat end_
      else scan_tail (S (end_ - in_)) mem in_ end_
  end.

(** [scan_string_seg(&in, end)]: the new value of [in]. Neither loop can
    run more often than there are bytes in the range. *)
Definition scan_string_seg (mem : list byte) (in_ end_ : nat) : outcome nat :=
  scan_words (S (end_ - in_)) mem in_ end_.

Definition decode_base89 (packed_code max_index : Z) : Z :=
  let st := Z.land packed_code 0xFF in
  let c1 := Z.land (Z.shiftr packed_code 8) 0xFF in
  let c2 := Z.land (Z.shiftr packed_code 16) 0xFF in
  let c3 := Z.land (Z.shiftr packed_code 24) 0xFF in
  if negb (st =? B89_ST) || (c1 <? B89__ORD_MIN) || (c1 >? B89__ORD_MAX)
     || (c2 <? B89__ORD_MIN) || (c2 >? B89__ORD_MAX)
     || (c3 <? B89__ORD_MIN) || (c3 >? B89__ORD_MAX)
  then 0
  else
    let c1 := u32 (c1 - B89__ORD_MIN) in
    let c2 := u32 (c2 - B89__ORD_MIN) in
    let c3 := u32 (c3 - B89__ORD_MIN) in
    let index := u32 (u32 (c3 * B89__ORD_BASE) + c2) in
    let index := u32 (u32 (index * B89__ORD_BASE) + c1) in
    if index <=? max_index then index else 0.

Inductive b89_event_t : Type :=
| B89_EVENT_TEXT (ptr : nat) (len : nat)
| B89_EVENT_CODE (index : Z).

(** The iterator; [str] is the caller's string that [pos] and [end] point
    into, [event] is [None] until a call has stored one. *)
Record b89_iter_t : Type := {
  str : list byte;
  pos : nat;
  end_ : nat;
  event : option b89_event_t;
  max_index : Z
}.

Definition b89_iter_init (s : list byte) (str_bytes : nat) (max_index : Z) : b89_iter_t :=
  {| str := s; pos := 0; end_ := 0 + str_bytes; event := None; max_index := max_index |}.

Definition set_pos (it : b89_iter_t) (p : nat) : b89_iter_t :=
  {| str := str it; pos := p; end_ := end_ it; event := event it; max_index := max_index it |}.

Definition set_event (it : b89_iter_t) (e : b89_event_t) : b89_iter_t :=
  {| str := str it; pos := pos it; end_ := end_ it; event := Some e; max_index := max_index it |}.

(** [b89_iter_next]: the returned int and the iterator afterwards. *)
Definition b89_iter_next (cfg : assert_cfg) (it : b89_iter_t) : outcome (Z * b89_iter_t) :=
  if (end_ it <=? pos it)%nat then Ret (0, it)
  else
    let unemitted_seg := pos it in
    do p <- scan_string_seg (str it) (pos it) (end_ it) ;
    let it := set_pos it p in
    if negb (Nat.eqb unemitted_seg (pos it)) then
      let len := (pos it - unemitted_seg)%nat in
      let it := set_event it (B89_EVENT_TEXT unemitted_seg len) in
      check c_assert cfg (0 <? len)%nat ;
      Ret (1, it)
    else
      do c <- load_byte (str it) (pos it) ;
      if c =? B89_ST then
        if (Z.of_nat (end_ it) - Z.of_nat (pos it) <? 4) then
          let it := set_event it (B89_EVENT_CODE B89_ERROR_INDEX) in
          let it := set_pos it (end_ it) in
          Ret (0, it)
        else
          do packed_code <- load_le (str it) (pos it) 4 ;
          let it := set_event it (B89_EVENT_CODE (decode_base89 packed_code (max_index it))) in
          let it := set_pos it (pos it + 4)%nat in
          Ret (1, it)
      else Ret (0, it).

(** The loop of the header's usage example,
    [while (b89_iter_next(&it)) { ... it.event ... }]: the events seen. *)
Fixpoint b89_events (fuel : nat) (cfg : assert_cfg) (it : b89_iter_t)
  : outcome (list b89_event_t) :=
  match fuel with
  | O => OutOfFuel
  | S f =>
      do r <- b89_iter_next cfg it ;
      if fst r =? 0 then Ret []
      else
        match event (snd r) with
        | Some e => do rest <- b89_events f cfg (snd r) ; Ret (e :: rest)
        | None => Undefined
        end
  end.

(** [b89_pack]: the four bytes stored at [out_bytes]. *)
Definition b89_pack (cfg : assert_cfg) (index : Z) : outcome (list byte) :=
  check c_assert cfg (index <=? B89_CODE_MAX) ;
  let c1 := index mod 89 in
  let index := index / 89 in
  let c2 := index mod 89 in
  let index := index / 89 in
  let c3 := index mod 89 in
  Ret [byte.of_Z B89_ST;
       byte.of_Z (u32 (c1 + B89__ORD_MIN));
       byte.of_Z (u32 (c2 + B89__ORD_MIN));
       byte.of_Z (u32 (c3 + B89__ORD_MIN))].

(** [b89_unpack]: the value stored in [*out_index]. *)
Definition b89_unpack (bytes : list byte) (max_index : Z) : outcome Z :=
  do qword <- load_le bytes 0 4 ;
  Ret (decode_base89 qword max_index).

(** The scan the word loop stands in for: one byte at a time from [in_],
    stopping at the first [B89_ST] or at [end_]. *)
Fixpoint naive_scan (n : nat) (mem : list byte) (in_ : nat) : nat :=
  match n with
  | O => in_
  | S k =>
      match mem !! in_ with
      | Some b => if byte.unsigned b =? B89_ST then in_ else naive_scan k mem (S in_)
      | None => in_
      end
  end.

Definition is_byte (q : Z) : Prop := 0 <= q < 256.

(** The word loop seen one byte at a time. [le_digits] is the value of a
    little-endian run of byte values; [hz_digits borrow qs] lists the bytes
    of [has_match] for the bytes [qs] of the loaded word, [borrow] being
    what the subtraction of [HAS_ZERO_SUB] has borrowed from the bytes
    below. *)
Fixpoint le_digits (ds : list Z) : Z :=
  match ds with
  | [] => 0
  | d :: t => d + 2 ^ 8 * le_digits t
  end.

Fixpoint hz_digits (borrow : Z) (qs : list Z) : list Z :=
  match qs with
  | [] => []
  | q :: t =>
      let d := Z.lxor q 3 in
      let e := d - 1 - borrow in
      Z.land (Z.land (e mod 256) (255 - d)) 128
        :: hz_digits (if e <? 0 then 1 else 0) t
  end.

(** The decoder as the format describes it, on the four bytes of a code:
    leader [b0], digits [b1], [b2], [b3] (least significant first). *)
Definition in_alphabet (c : Z) : bool := (38 <=? c) && (c <=? 126).

Definition horner_index (b1 b2 b3 : Z) : Z :=
  (((b3 - 38) * 89) + (b2 - 38)) * 89 + (b1 - 38).

Definition decode_bytes (b0 b1 b2 b3 max_index : Z) : Z :=
  if negb (b0 =? 3) || negb (in_alphabet b1) || negb (in_alphabet b2)
     || negb (in_alphabet b3)
  then 0
  else if horner_index b1 b2 b3 >? max_index then 0
  else horner_index b1 b2 b3.

(** The bytes [b89_pack] stores once its assertion has let it through. *)
Definition packed_bytes (index : Z) : list byte :=
  [byte.of_Z 3;
   byte.of_Z (index mod 89 + 38);
   byte.of_Z (index / 89 mod 89 + 38);
   byte.of_Z (index / 89 / 89 mod 89 + 38)].

(** A well-formed code: the leader [B89_ST] and three digits of the
    alphabet. *)
Definition well_formed_code (bs : list byte) : bool :=
  match bs with
  | [b0; b1; b2; b3] =>
      (byte.unsigned b0 =? 3) && in_alphabet (byte.unsigned b1)
      && in_alphabet (byte.unsigned b2) && in_alphabet (byte.unsigned b3)
  | _ => false
  end.

(** The string of the header's usage example:
    ["Hello, " "\x03\x28\x26\x26" "guy" "\x03\x27\x26\x26"]. *)
Definition example_str : list byte :=
  map byte.of_Z
    [72; 101; 108; 108; 111; 44; 32; 3; 40; 38; 38; 103; 117; 121; 3; 39; 38; 38].

(** ** Strings made of text and codes *)

(** A piece of a string: a run of text, or a code. *)
Inductive b89_token : Type :=
| TokText (text : list byte)
| TokCode (index : Z).

(** The string a list of pieces stands for: text as it is, a code as the
    four bytes [b89_pack] stores for it. *)
Fixpoint encode_tokens (ts : list b89_token) : list byte :=
  match ts with
  | [] => []
  | TokText text :: rest => text ++ encode_tokens rest
  | TokCode index :: rest => packed_bytes index ++ encode_tokens rest
  end.

(** The events such a string is to give when its first byte is at offset
    [off]: a code above [max_index] is reported as [B89_ERROR_INDEX]. *)
Fixpoint token_events (max_index : Z) (off : nat) (ts : list b89_token)
  : list b89_event_t :=
  match ts with
  | [] => []
  | TokText text :: rest =>
      B89_EVENT_TEXT off (length text)
        :: token_events max_index (off + length text) rest
  | TokCode index :: rest =>
      B89_EVENT_CODE (if index <=? max_index then index else B89_ERROR_INDEX)
        :: token_events max_index (off + 4) rest
  end.

(** Text is not empty and holds no 0x03, two runs of text do not follow
    each other, and a code is an index of the format. *)
Fixpoint tokens_ok (ts : list b89_token) : Prop :=
  match ts with
  | [] => True
  | TokText text :: rest =>
      text <> [] /\ Forall (fun b => byte.unsigned b <> 3) text
      /\ match rest with TokText _ :: _ => False | _ => True end
      /\ tokens_ok rest
  | TokCode index :: rest => 0 <= index <= B89_CODE_MAX /\ tokens_ok rest
  end.

(** What a caller may rely on in an event of iterator [it]: a text span
    is not empty, lies inside the string and holds no 0x03; a code index
    is at most [max_index]. *)
Definition event_in_range (it : b89_iter_t) (e : b89_event_t) : Prop :=
  match e with
  | B89_EVENT_TEXT ptr len =>
      (0 < len)%nat /\ (pos it <= ptr)%nat /\ (ptr + len <= end_ it)%nat
      /\ forall i b, (ptr <= i < ptr + len)%nat -> str it !! i = Some b ->
           byte.unsigned b <> 3
  | B89_EVENT_CODE index => 0 <= index <= max_index it
  end.

End B89.

(** * ftg_bitbuffer.h

    [size_t] and [ptrdiff_t] are 64 bits wide. The expressions the header
    evaluates in [int] and [ptrdiff_t] stay far inside their ranges for
    every buffer below 2^60 bytes, and are written without a wrap. *)

Module BitBuf.

Definition BITBUF__SEG_BITS : Z := 64.

(** The alignment macros take operands of any integer type. These are
    their expressions on the integers, before the wrap of the operand
    type. The header evaluates one of them in [size_t],
    BITBUF__ALIGN_UP(max_bytes, 8) in [bitbuf_alloc_buffer], where the
    result is wrapped with [u64] below; in the other uses the first
    operand is the [int] [bits_into_seg] of a cursor, 0 to 63 on every
    cursor the header makes, and nothing wraps. *)
Definition BITBUF__ALIGN_DOWN (n a : Z) : Z := Z.land n (Z.lnot (a - 1)).
Definition BITBUF__ALIGN_UP (n a : Z) : Z := BITBUF__ALIGN_DOWN (n + a - 1) a.
Definition BITBUF__ALIGN_UP_DELTA (n a : Z) : Z := Z.land (a - n) (a - 1).

(** The macros on a [size_t] first operand, every step as C evaluates
    it: [~((a)-1)] converted to [size_t], and [(n) + (a) - 1] and
    [(a) - (n)] computed modulo 2^64. *)
Definition BITBUF__ALIGN_DOWN_size_t (n a : Z) : Z := Z.land n (u64 (Z.lnot (a - 1))).
Definition BITBUF__ALIGN_UP_size_t (n a : Z) : Z :=
  BITBUF__ALIGN_DOWN_size_t (u64 (u64 (n + a) - 1)) a.
Definition BITBUF__ALIGN_UP_DELTA_size_t (n a : Z) : Z := Z.land (u64 (a - n)) (a - 1).

(** A cursor. [seg] is the index of the segment it points to, counted from
    [data] of the buffer; [owner] tells whether the owner pointer is
    non-NULL (it can only point to the one buffer the cursor belongs to). *)
Record bitbuf_cursor_t : Type := {
  seg : Z;
  bits_into_seg : Z;
  owner : bool;
  read_past_end : Z
}.

(** A buffer; [data] holds the segments [data[0]], [data[1]], ... *)
Record bitbuf_buffer_t : Type := {
  data : list Z;
  capacity_bytes : Z;
  truncated : Z;
  write : bitbuf_cursor_t
}.

Definition set_write (b : bitbuf_buffer_t) (c : bitbuf_cursor_t) : bitbuf_buffer_t :=
  {| data := data b; capacity_bytes := capacity_bytes b;
     truncated := truncated b; write := c |}.

Definition set_data (b : bitbuf_buffer_t) (d : list Z) : bitbuf_buffer_t :=
  {| data := d; capacity_bytes := capacity_bytes b;
     truncated := truncated b; write := write b |}.

Definition set_truncated (b : bitbuf_buffer_t) (t : Z) : bitbuf_buffer_t :=
  {| data := data b; capacity_bytes := capacity_bytes b;
     truncated := t; write := write b |}.

Definition set_bits (c : bitbuf_cursor_t) (n : Z) : bitbuf_cursor_t :=
  {| seg := seg c; bits_into_seg := n; owner := owner c;
     read_past_end := read_past_end c |}.

Definition set_owner (c : bitbuf_cursor_t) (o : bool) : bitbuf_cursor_t :=
  {| seg := seg c; bits_into_seg := bits_into_seg c; owner := o;
     read_past_end := read_past_end c |}.

Definition set_read_past_end (c : bitbuf_cursor_t) (r : Z) : bitbuf_cursor_t :=
  {| seg := seg c; bits_into_seg := bits_into_seg c; owner := owner c;
     read_past_end := r |}.

(** [bitbuf__spanmasktable]: entries 1 to 62 are written [(1ull << n) - 1]
    in the header, the last two as literals. *)
Definition bitbuf__spanmasktable : list Z :=
  0 :: map (fun n => Z.shiftl 1 n - 1) (seqZ 1 62)
    ++ [0x7fffffffffffffff; 0xffffffffffffffff].

(** [bitbuf__spanmasktable[n]]. *)
Definition spanmask (n : Z) : outcome Z :=
  if n <? 0 then Undefined
  else match bitbuf__spanmasktable !! Z.to_nat n with
       | Some m => Ret m
       | None => Undefined
       end.

(** [data[i]] and [data[i] = v]. *)
Definition load_seg (d : list Z) (i : Z) : outcome Z :=
  if i <? 0 then Undefined
  else match d !! Z.to_nat i with
       | Some x => Ret x
       | None => Undefined
       end.

Definition store_seg (d : list Z) (i : Z) (v : Z) : outcome (list Z) :=
  if (0 <=? i) && (i <? Z.of_nat (length d)) then Ret (<[Z.to_nat i := v]> d)
  else Undefined.

(** The 64-bit segments a run of bytes is read as. *)
Fixpoint le_segments (n : nat) (bs : list byte) : list Z :=
  match n with
  | O => []
  | S k => le_word (take 8 bs) :: le_segments k (drop 8 bs)
  end.

(** The allocator is outside the library; it is taken to succeed. The
    header leaves [write.read_past_end] of a new buffer unset and never
    reads it; it is 0 here. *)
Definition bitbuf_alloc_buffer (cfg : assert_cfg) (max_bytes : Z)
  : outcome bitbuf_buffer_t :=
  check c_assert cfg (max_bytes >? 0) ;
  let capacity := u64 (BITBUF__ALIGN_UP max_bytes 8) in
  Ret {| data := replicate (Z.to_nat (capacity / 8)) 0;
         capacity_bytes := capacity;
         truncated := 0;
         write := {| seg := 0; bits_into_seg := 0; owner := false;
                     read_past_end := 0 |} |}.

Definition bitbuf_init_buffer_with_bytes (cfg : assert_cfg) (bytes : list byte)
    (num_bytes : Z) : outcome bitbuf_buffer_t :=
  check c_assert cfg (num_bytes mod 8 =? 0) ;
  if Z.of_nat (length bytes) <? num_bytes then Undefined
  else
    Ret {| data := le_segments (Z.to_nat (num_bytes / 8)) bytes;
           capacity_bytes := num_bytes;
           truncated := 0;
           write := {| seg := 0; bits_into_seg := 0; owner := false;
                       read_past_end := 0 |} |}.

Definition bitbuf_has_truncated (buffer : bitbuf_buffer_t) : bool :=
  truncated buffer =? 1.

(** [bitbuf_cursor_init]: the buffer with its write cursor marked, and the
    new read cursor. *)
Definition bitbuf_cursor_init (buffer : bitbuf_buffer_t)
  : bitbuf_buffer_t * bitbuf_cursor_t :=
  (set_write buffer (set_owner (write buffer) true),
   {| seg := 0; bits_into_seg := 0; owner := true; read_past_end := 0 |}).

Definition bitbuf__remaining_capacity_in_bits (cfg : assert_cfg)
    (buffer : bitbuf_buffer_t) : outcome Z :=
  check c_assert cfg (bits_into_seg (write buffer) <? BITBUF__SEG_BITS) ;
  let completed_seg_bits := u64 (seg (write buffer) * BITBUF__SEG_BITS) in
  let remaining_seg_bits := u64 (BITBUF__SEG_BITS - bits_into_seg (write buffer)) in
  check c_assert cfg (remaining_seg_bits <=? BITBUF__SEG_BITS) ;
  let total_bits_used := u64 (completed_seg_bits + bits_into_seg (write buffer)) in
  let capacity_bits := u64 (capacity_bytes buffer * 8) in
  check c_assert cfg (capacity_bits >=? total_bits_used) ;
  Ret (s64 (capacity_bits - total_bits_used)).

Definition bitbuf__bits_remaining_for_cursor (cfg : assert_cfg)
    (buffer : bitbuf_buffer_t) (cursor : bitbuf_cursor_t) : outcome Z :=
  let remaining_segs := s64 (capacity_bytes buffer / 8 - seg cursor) in
  check c_assert cfg (remaining_segs >=? 0) ;
  let remaining_bits := BITBUF__SEG_BITS - bits_into_seg cursor in
  Ret (remaining_segs * BITBUF__SEG_BITS + remaining_bits).

Definition bitbuf__is_valid_read_cursor (cfg : assert_cfg)
    (buffer : bitbuf_buffer_t) (cursor : bitbuf_cursor_t) : outcome bool :=
  if owner cursor then
    if seg cursor >=? 0 then
      do r <- bitbuf__bits_remaining_for_cursor cfg buffer cursor ;
      Ret (r >=? 0)
    else Ret false
  else Ret false.

Definition bitbuf__advance_cursor (cursor : bitbuf_cursor_t) : bitbuf_cursor_t :=
  {| seg := seg cursor + 1; bits_into_seg := 0; owner := owner cursor;
     read_past_end := read_past_end cursor |}.

(** [*buffer->write.seg |= v]. *)
Definition or_into_seg (buffer : bitbuf_buffer_t) (v : Z) : outcome bitbuf_buffer_t :=
  do old <- load_seg (data buffer) (seg (write buffer)) ;
  do d <- store_seg (data buffer) (seg (write buffer)) (Z.lor old v) ;
  Ret (set_data buffer d).

(** [bitbuf__write_bits]; the function calls itself for the part of a
    datum that goes into the next segment. *)
Fixpoint bitbuf__write_bits_rec (fuel : nat) (cfg : assert_cfg)
    (buffer : bitbuf_buffer_t) (datum num_bits : Z) : outcome bitbuf_buffer_t :=
  match fuel with
  | O => OutOfFuel
  | S fuel' =>
    check c_assert cfg (num_bits <=? 64) ;
    if num_bits >? 64 then Ret buffer
    else
      check c_assert cfg (negb (owner (write buffer))) ;
      do remaining <- bitbuf__remaining_capacity_in_bits cfg buffer ;
      if remaining <? num_bits then
        check c_assert_fail cfg ;
        Ret (set_truncated buffer (Z.lor (truncated buffer) 1))
      else
        let bits_remaining_in_seg :=
          BITBUF__SEG_BITS - bits_into_seg (write buffer) in
        if num_bits <=? bits_remaining_in_seg then
          do SRC_MASK <- spanmask num_bits ;
          do v <- shl64 (Z.land datum SRC_MASK) (bits_into_seg (write buffer)) ;
          do buffer <- or_into_seg buffer v ;
          let buffer :=
            set_write buffer
              (set_bits (write buffer) (bits_into_seg (write buffer) + num_bits)) in
          if bits_into_seg (write buffer) =? BITBUF__SEG_BITS then
            let buffer := set_write buffer (bitbuf__advance_cursor (write buffer)) in
            do r <- bitbuf__remaining_capacity_in_bits cfg buffer ;
            check c_assert cfg (r >=? 0) ;
            Ret buffer
          else Ret buffer
        else
          do SRC_MASK <- spanmask bits_remaining_in_seg ;
          do v <- shl64 (Z.land datum SRC_MASK)
                        (BITBUF__SEG_BITS - bits_remaining_in_seg) ;
          do buffer <- or_into_seg buffer v ;
          let buffer := set_write buffer (bitbuf__advance_cursor (write buffer)) in
          let num_bits_remaining_for_next_write := num_bits - bits_remaining_in_seg in
          check c_assert cfg (num_bits_remaining_for_next_write <? BITBUF__SEG_BITS) ;
          do m <- spanmask num_bits_remaining_for_next_write ;
          do OVER_MASK <- shl64 m bits_remaining_in_seg ;
          do rest <- shr64 (Z.land datum OVER_MASK) bits_remaining_in_seg ;
          bitbuf__write_bits_rec fuel' cfg buffer rest
            num_bits_remaining_for_next_write
  end.

(** A call never nests deeper than once (lemma [write_bits_fuel] below). *)
Definition bitbuf__write_bits (cfg : assert_cfg) (buffer : bitbuf_buffer_t)
    (datum num_bits : Z) : outcome bitbuf_buffer_t :=
  bitbuf__write_bits_rec 2 cfg buffer datum num_bits.

(** [bitbuf__read_bits]: the value read and the cursor afterwards.
    [buffer] is the buffer [read->owner] points to. *)
Definition bitbuf__read_bits (cfg : assert_cfg) (buffer : bitbuf_buffer_t)
    (read : bitbuf_cursor_t) (num_bits : Z) : outcome (Z * bitbuf_cursor_t) :=
  do valid <- bitbuf__is_valid_read_cursor cfg buffer read ;
  check c_assert cfg valid ;
  (* BITBUF__ASSERT(read->seg): an index always stands for a non-null pointer *)
  check c_assert cfg (num_bits <=? 64) ;
  if num_bits >? 64 then Ret (0, read)
  else if negb (owner read) then Undefined
  else
    do remaining <- bitbuf__bits_remaining_for_cursor cfg buffer read ;
    if remaining <? num_bits then
      check c_assert_fail cfg ;
      Ret (0, set_read_past_end read (Z.lor (read_past_end read) 1))
    else
      let bits_remaining_in_seg := BITBUF__SEG_BITS - bits_into_seg read in
      if num_bits <=? bits_remaining_in_seg then
        do m <- spanmask num_bits ;
        do DST_MASK <- shl64 m (bits_into_seg read) ;
        do s <- load_seg (data buffer) (seg read) ;
        do val <- shr64 (Z.land s DST_MASK) (bits_into_seg read) ;
        let read := set_bits read (bits_into_seg read + num_bits) in
        if bits_into_seg read =? BITBUF__SEG_BITS then
          Ret (val, bitbuf__advance_cursor read)
        else Ret (val, read)
      else
        do m <- spanmask bits_remaining_in_seg ;
        do DST_MASK <- shl64 m (BITBUF__SEG_BITS - bits_remaining_in_seg) ;
        do s <- load_seg (data buffer) (seg read) ;
        do val <- shr64 (Z.land s DST_MASK) (BITBUF__SEG_BITS - bits_remaining_in_seg) ;
        let read := bitbuf__advance_cursor read in
        let next_read_num_bits := num_bits - bits_remaining_in_seg in
        check c_assert cfg (next_read_num_bits <? BITBUF__SEG_BITS) ;
        do r <- bitbuf__bits_remaining_for_cursor cfg buffer read ;
        check c_assert cfg (r >=? num_bits) ;
        do OVER_MASK <- spanmask next_read_num_bits ;
        do s2 <- load_seg (data buffer) (seg read) ;
        do hi <- shl64 (Z.land s2 OVER_MASK) bits_remaining_in_seg ;
        let val := Z.lor val hi in
        let read := set_bits read (bits_into_seg read + next_read_num_bits) in
        Ret (val, read).

(** The writers [bitbuf_write_int64] ... [bitbuf_write_double] and
    [bitbuf_write_bool] store their argument in a union with a
    [uint64_t] and call [bitbuf__write_bits] with that integer and the
    width of the type; the bytes of the integer that the argument does not
    cover are whatever the stack held ([junk]). *)
Definition bitbuf_write_type (cfg : assert_cfg) (width : Z)
    (buf : bitbuf_buffer_t) (value junk : Z) : outcome bitbuf_buffer_t :=
  bitbuf__write_bits cfg buf (u64 (value mod 2 ^ width + 2 ^ width * junk)) width.

(** Conversion of a [char] to [uint64_t], [char] being signed. *)
Definition char_to_u64 (c : byte) : Z :=
  let u := byte.unsigned c in
  u64 (if 128 <=? u then u - 256 else u).

(** [bitbuf_write_cstr]; [str] lists the bytes at and after the pointer,
    the loop stops at the first zero byte (or where the list ends). *)
Fixpoint bitbuf_write_cstr (cfg : assert_cfg) (buf : bitbuf_buffer_t)
    (str : list byte) : outcome bitbuf_buffer_t :=
  match str with
  | [] => bitbuf__write_bits cfg buf 0 8
  | c :: p =>
      if byte.unsigned c =? 0 then bitbuf__write_bits cfg buf 0 8
      else
        do buf <- bitbuf__write_bits cfg buf (char_to_u64 c) 8 ;
        bitbuf_write_cstr cfg buf p
  end.

Definition bitbuf_write_n_bits (cfg : assert_cfg) (buf : bitbuf_buffer_t)
    (num_bits value : Z) : outcome bitbuf_buffer_t :=
  check c_assert cfg (num_bits <=? 64) ;
  if num_bits >? 64 then Ret buf
  else
    do m <- spanmask num_bits ;
    check c_assert cfg (Z.land value (u64 (Z.lnot m)) =? 0) ;
    bitbuf__write_bits cfg buf value num_bits.

Definition bitbuf_pad_to_byte (cfg : assert_cfg) (buf : bitbuf_buffer_t)
  : outcome bitbuf_buffer_t :=
  let align_bits := BITBUF__ALIGN_UP_DELTA (bits_into_seg (write buf)) 8 in
  if negb (align_bits =? 0) then bitbuf__write_bits cfg buf 0 align_bits
  else Ret buf.

(** [bitbuf_read_n_bits]: the value, the mask stored through [out_mask]
    when that pointer is not NULL, and the cursor. *)
Definition bitbuf_read_n_bits (cfg : assert_cfg) (buffer : bitbuf_buffer_t)
    (read : bitbuf_cursor_t) (num_bits : Z) (out_mask : bool)
  : outcome (Z * option Z * bitbuf_cursor_t) :=
  check c_assert cfg (num_bits <=? 64) ;
  if num_bits >? 64 then Ret (0, None, read)
  else
    do r <- bitbuf__read_bits cfg buffer read num_bits ;
    if out_mask then
      do m <- spanmask num_bits ;
      Ret (fst r, Some m, snd r)
    else Ret (fst r, None, snd r).

(** [bitbuf_read_cstr]: the bytes stored in [out_str], and the cursor. *)
Fixpoint bitbuf_read_cstr_loop (cfg : assert_cfg) (buffer : bitbuf_buffer_t)
    (read : bitbuf_cursor_t) (n : nat) (out : list Z)
  : outcome (list Z * bitbuf_cursor_t) :=
  match n with
  | O => Ret (match out with [] => [0] | _ :: t => 0 :: t end, read)
  | S k =>
      do r <- bitbuf__read_bits cfg buffer read 8 ;
      let c := Z.land (fst r) 0xFF in
      if c =? 0 then Ret (out ++ [c], snd r)
      else bitbuf_read_cstr_loop cfg buffer (snd r) k (out ++ [c])
  end.

Definition bitbuf_read_cstr (cfg : assert_cfg) (buffer : bitbuf_buffer_t)
    (read : bitbuf_cursor_t) (max_bytes : nat) : outcome (list Z * bitbuf_cursor_t) :=
  bitbuf_read_cstr_loop cfg buffer read max_bytes [].

(** The last assertion reads [read->owner->capacity_bytes]; the call is
    taken to be undefined on a cursor without owner whether or not the
    assertion is compiled in. *)
Definition bitbuf_skip_byte_padding (cfg : assert_cfg) (buffer : bitbuf_buffer_t)
    (read : bitbuf_cursor_t) : outcome bitbuf_cursor_t :=
  do valid <- bitbuf__is_valid_read_cursor cfg buffer read ;
  check c_assert cfg valid ;
  let read := set_bits read (BITBUF__ALIGN_UP (bits_into_seg read) 8) in
  check c_assert cfg (bits_into_seg read <=? BITBUF__SEG_BITS) ;
  let read :=
    if bits_into_seg read =? BITBUF__SEG_BITS then bitbuf__advance_cursor read
    else read in
  if negb (owner read) then Undefined
  else
    do r <- bitbuf__bits_remaining_for_cursor cfg buffer read ;
    check c_assert cfg (r >=? 0) ;
    Ret read.

(** ** Quantized floats *)

Definition f32_add : spec_float -> spec_float -> spec_float := SFadd 24 128.
Definition f32_sub : spec_float -> spec_float -> spec_float := SFsub 24 128.
Definition f32_mul : spec_float -> spec_float -> spec_float := SFmul 24 128.
Definition f32_div : spec_float -> spec_float -> spec_float := SFdiv 24 128.

(** Conversion of an integer to [float]. *)
Definition f32_of_Z (z : Z) : spec_float := binary_normalize 24 128 z 0 false.

(** Conversion of a [float] to [uint64_t]: the fraction is dropped; the
    result must fit. *)
Definition f32_to_u64 (x : spec_float) : outcome Z :=
  match x with
  | S754_zero _ => Ret 0
  | S754_finite s m e =>
      let t := if 0 <=? e then Zpos m * 2 ^ e else Zpos m / 2 ^ (- e) in
      if s then (if t =? 0 then Ret 0 else Undefined)
      else if t <? 2 ^ 64 then Ret t else Undefined
  | _ => Undefined
  end.

Definition BITBUF__MAX (a b : spec_float) : spec_float := if SFltb b a then a else b.
Definition BITBUF__MIN (a b : spec_float) : spec_float := if SFltb a b then a else b.

(** The integer [bitbuf_write_quantized_float] stores. *)
Definition quantize (bit_max : Z) (min max value : spec_float) : outcome Z :=
  let qf :=
    BITBUF__MIN
      (BITBUF__MAX
         (f32_div (f32_mul (f32_sub value min) (f32_of_Z bit_max)) (f32_sub max min))
         (f32_of_Z 0))
      (f32_of_Z bit_max) in
  do qi <- f32_to_u64 qf ;
  Ret (if negb (qi =? 0) && (Z.land qi bit_max =? 0) then bit_max else qi).

(** The float [bitbuf_read_quantized_float] makes of the stored integer. *)
Definition dequantize (bit_max : Z) (min max : spec_float) (value : Z) : spec_float :=
  f32_add min
    (f32_mul (f32_div (f32_of_Z value) (f32_of_Z bit_max)) (f32_sub max min)).

Definition bitbuf_write_quantized_float (cfg : assert_cfg) (buf : bitbuf_buffer_t)
    (num_bits : Z) (min max value : spec_float) : outcome bitbuf_buffer_t :=
  check c_assert cfg (u64 num_bits <=? 4 * 8 - 1) ;
  check c_assert cfg (SFltb min max) ;
  check c_assert cfg (SFleb min value && SFleb value max) ;
  do m <- spanmask num_bits ;
  let bit_max := u32 m in
  do qi <- quantize bit_max min max value ;
  bitbuf__write_bits cfg buf qi num_bits.

Definition bitbuf_read_quantized_float (cfg : assert_cfg) (buffer : bitbuf_buffer_t)
    (read : bitbuf_cursor_t) (num_bits : Z) (min max : spec_float)
  : outcome (spec_float * bitbuf_cursor_t) :=
  check c_assert cfg (u64 num_bits <=? 4 * 8 - 1) ;
  check c_assert cfg (SFltb min max) ;
  check c_assert cfg (num_bits <=? 31) ;
  do r <- bitbuf_read_n_bits cfg buffer read num_bits false ;
  let value := fst (fst r) in
  do m <- spanmask num_bits ;
  let bit_max := u32 m in
  let q := dequantize bit_max min max value in
  check c_assert cfg (SFleb min q && SFleb q max) ;
  Ret (q, snd r).

(** ** Programs over one buffer

    A caller of the library holds a buffer and the read cursors made from
    it, and issues calls. [bitbuf_free_buffer] ends the life of the buffer
    and is not among them. *)
Record session : Type := {
  buf : bitbuf_buffer_t;
  cursors : list bitbuf_cursor_t
}.

Inductive bitbuf_call : Type :=
| CallWriteBits (datum num_bits : Z)
| CallWriteNBits (num_bits value : Z)
| CallWriteCstr (s : list byte)
| CallWriteQuantizedFloat (num_bits : Z) (min max value : spec_float)
| CallPadToByte
| CallCursorInit
| CallReadBits (c : nat) (num_bits : Z)
| CallReadNBits (c : nat) (num_bits : Z) (out_mask : bool)
| CallReadCstr (c : nat) (max_bytes : nat)
| CallReadQuantizedFloat (c : nat) (num_bits : Z) (min max : spec_float)
| CallSkipBytePadding (c : nat).

Definition on_buffer (s : session) (m : outcome bitbuf_buffer_t) : outcome session :=
  do b <- m ;
  Ret {| buf := b; cursors := cursors s |}.

Definition on_cursor (s : session) (c : nat)
    (f : bitbuf_cursor_t -> outcome bitbuf_cursor_t) : outcome session :=
  match cursors s !! c with
  | Some read =>
      do read <- f read ;
      Ret {| buf := buf s; cursors := <[c := read]> (cursors s) |}
  | None => Undefined
  end.

Definition call (cfg : assert_cfg) (op : bitbuf_call) (s : session) : outcome session :=
  match op with
  | CallWriteBits datum num_bits =>
      on_buffer s (bitbuf__write_bits cfg (buf s) datum num_bits)
  | CallWriteNBits num_bits value =>
      on_buffer s (bitbuf_write_n_bits cfg (buf s) num_bits value)
  | CallWriteCstr str => on_buffer s (bitbuf_write_cstr cfg (buf s) str)
  | CallWriteQuantizedFloat num_bits min max value =>
      on_buffer s (bitbuf_write_quantized_float cfg (buf s) num_bits min max value)
  | CallPadToByte => on_buffer s (bitbuf_pad_to_byte cfg (buf s))
  | CallCursorInit =>
      let r := bitbuf_cursor_init (buf s) in
      Ret {| buf := fst r; cursors := cursors s ++ [snd r] |}
  | CallReadBits c num_bits =>
      on_cursor s c (fun read =>
        do r <- bitbuf__read_bits cfg (buf s) read num_bits ; Ret (snd r))
  | CallReadNBits c num_bits out_mask =>
      on_cursor s c (fun read =>
        do r <- bitbuf_read_n_bits cfg (buf s) read num_bits out_mask ; Ret (snd r))
  | CallReadCstr c max_bytes =>
      on_cursor s c (fun read =>
        do r <- bitbuf_read_cstr cfg (buf s) read max_bytes ; Ret (snd r))
  | CallReadQuantizedFloat c num_bits min max =>
      on_cursor s c (fun read =>
        do r <- bitbuf_read_quantized_float cfg (buf s) read num_bits min max ;
        Ret (snd r))
  | CallSkipBytePadding c =>
      on_cursor s c (bitbuf_skip_byte_padding cfg (buf s))
  end.

Fixpoint run (cfg : assert_cfg) (ops : list bitbuf_call) (s : session) : outcome session :=
  match ops with
  | [] => Ret s
  | op :: rest =>
      do s <- call cfg op s ;
      run cfg rest s
  end.

(** ** Predicates the statements use *)

(** The write position in bits, and the like for a read cursor. *)
Definition bit_position (c : bitbuf_cursor_t) : Z := 64 * seg c + bits_into_seg c.

Definition cursor_ok (c : bitbuf_cursor_t) : Prop := 0 <= bits_into_seg c < 64.

Definition session_ok (s : session) : Prop :=
  cursor_ok (write (buf s)) /\ Forall cursor_ok (cursors s).

(** What a call on the buffer may do to the truncation flag and must keep
    of the write cursor. *)
Definition keeps (b b' : bitbuf_buffer_t) : Prop :=
  (truncated b' = truncated b \/ truncated b' = Z.lor (truncated b) 1)
  /\ (cursor_ok (write b) -> cursor_ok (write b')).

(** A buffer as the allocation functions make it and the writers keep it. *)
Record buffer_wf (b : bitbuf_buffer_t) : Prop := {
  wf_capacity : capacity_bytes b = 8 * Z.of_nat (length (data b));
  wf_small : capacity_bytes b < 2 ^ 60;
  wf_seg : 0 <= seg (write b) <= Z.of_nat (length (data b));
  wf_bits : 0 <= bits_into_seg (write b) < 64;
  wf_end : seg (write b) = Z.of_nat (length (data b)) -> bits_into_seg (write b) = 0;
  wf_data : Forall (fun x => 0 <= x < 2 ^ 64) (data b);
  wf_truncated : truncated b = 0 \/ truncated b = 1
}.

(** No bit at or after the write position is set. *)
Definition clean_tail (b : bitbuf_buffer_t) : Prop :=
  forall (i : nat) (x : Z), data b !! i = Some x ->
    (seg (write b) < Z.of_nat i -> x = 0)
    /\ (Z.of_nat i = seg (write b) -> x < 2 ^ bits_into_seg (write b)).

(** The buffer after [num_bits] bits of [datum] went into the current
    segment, whose value was [x]. *)
Definition after_fit (b : bitbuf_buffer_t) (x datum num_bits : Z) : bitbuf_buffer_t :=
  let k := bits_into_seg (write b) in
  let b1 := set_data b (<[Z.to_nat (seg (write b)) :=
                           Z.lor x (2 ^ k * (datum mod 2 ^ num_bits))]> (data b)) in
  if k + num_bits =? 64
  then set_write b1 (bitbuf__advance_cursor (set_bits (write b) (k + num_bits)))
  else set_write b1 (set_bits (write b) (k + num_bits)).

(** The buffer after the low bits of [datum] filled the current segment
    (value [x]) and the cursor moved on to the next one. *)
Definition after_fill (b : bitbuf_buffer_t) (x datum : Z) : bitbuf_buffer_t :=
  let k := bits_into_seg (write b) in
  set_write
    (set_data b (<[Z.to_nat (seg (write b)) :=
                    Z.lor x (2 ^ k * (datum mod 2 ^ (64 - k)))]> (data b)))
    (bitbuf__advance_cursor (write b)).

(** A read cursor of the buffer that stands where cursor [c] stands. *)
Definition cursor_at (c : bitbuf_cursor_t) : bitbuf_cursor_t :=
  {| seg := seg c; bits_into_seg := bits_into_seg c; owner := true;
     read_past_end := 0 |}.

(** Writing [v] as [n] bits into [b] and reading [n] bits back from where
    the write began returns [v], with the read cursor ending where the
    write cursor ended. *)
Definition roundtrips (cfg : assert_cfg) (b : bitbuf_buffer_t) (n v : Z) : Prop :=
  exists b' rd',
    bitbuf__write_bits cfg b v n = Ret b'
    /\ bitbuf__read_bits cfg (fst (bitbuf_cursor_init b')) (cursor_at (write b)) n
       = Ret (v, rd')
    /\ bit_position rd' = bit_position (write b').

(** The 16-byte buffer of the header's segment-alignment test after its
    first write, 63 one bits. *)
Definition example_buffer : bitbuf_buffer_t :=
  {| data := [0x7FFFFFFFFFFFFFFF; 0];
     capacity_bytes := 16;
     truncated := 0;
     write := {| seg := 0; bits_into_seg := 63; owner := false;
                 read_past_end := 0 |} |}.

(** Eight bytes 0xFF, as a caller may hand them to
    [bitbuf_init_buffer_with_bytes]. *)
Definition ones_bytes : list byte := replicate 8 Byte.xff.

(** [float_finite x]: [x] is neither an infinity nor a NaN. *)
Definition float_finite (x : spec_float) : bool :=
  match x with
  | S754_zero _ | S754_finite _ _ _ => true
  | _ => false
  end.

(** Writing [value] quantized to [n] bits over [[min, max]] and reading it
    back from where the write began returns a float equal to [value] in
    the sense of C's [==]. *)
Definition quantized_returns (cfg : assert_cfg) (b : bitbuf_buffer_t) (n : Z)
    (min max value : spec_float) : Prop :=
  exists b' q rd',
    bitbuf_write_quantized_float cfg b n min max value = Ret b'
    /\ bitbuf_read_quantized_float cfg (fst (bitbuf_cursor_init b'))
         (cursor_at (write b)) n min max = Ret (q, rd')
    /\ SFeqb q value = true.

(** The float part of such a round trip, checked by evaluation: the
    stored integer fits [n] bits, and what is made of it equals [value]
    and lies in the range. *)
Definition boundary_exact (n : Z) (min max value : spec_float) : bool :=
  match quantize (2 ^ n - 1) min max value with
  | Ret qi =>
      let q := dequantize (2 ^ n - 1) min max qi in
      (0 <=? qi) && (qi <=? 2 ^ n - 1) && SFeqb q value
      && SFleb min q && SFleb q max
  | _ => false
  end.

(** The ranges the header names as exact, [0,1] and [-1,1], and the two
    further ranges of its test, [-1,0] and [-32000,32000]. *)
Definition exact_ranges : list (spec_float * spec_float) :=
  [(f32_of_Z 0, f32_of_Z 1); (f32_of_Z (-1), f32_of_Z 1);
   (f32_of_Z (-1), f32_of_Z 0); (f32_of_Z (-32000), f32_of_Z 32000)].

(** FLT_MAX. *)
Definition f32_max : spec_float := S754_finite false (2 ^ 24 - 1) 104.

(** The buffer once a read cursor has been made from it. *)
Definition frozen (b : bitbuf_buffer_t) : bitbuf_buffer_t :=
  fst (bitbuf_cursor_init b).

(** What [bitbuf_alloc_buffer(8)] returns. *)
Definition fresh_buffer : bitbuf_buffer_t :=
  {| data := [0];
     capacity_bytes := 8;
     truncated := 0;
     write := {| seg := 0; bits_into_seg := 0; owner := false;
                 read_past_end := 0 |} |}.

(** The buffer of the header's overflow test: one byte asked for, eight
    allocated, one bool written. *)
Definition one_bit_buffer : bitbuf_buffer_t :=
  {| data := [1];
     capacity_bytes := 8;
     truncated := 0;
     write := {| seg := 0; bits_into_seg := 1; owner := false;
                 read_past_end := 0 |} |}.

(** A short program on [example_buffer]: the 64th bit is written, a read
    cursor is made and reads the first segment. *)
Definition example_session : session :=
  {| buf := example_buffer; cursors := [] |}.

Definition example_calls : list bitbuf_call :=
  [CallWriteBits 1 1; CallCursorInit; CallReadBits 0 64].

(** A call of [bitbuf__write_bits] had no effect on the buffer. *)
Definition write_skipped (b b' : bitbuf_buffer_t) : Prop :=
  data b' = data b /\ write b' = write b /\ truncated b' = truncated b.

(** ** The rest of the interface *)

(** [bitbuf_alloc_buffer_with_bytes]: the zeroed allocation of
    [bitbuf_alloc_buffer], into which [memcpy] copies the [num_bytes]
    bytes at [bytes]; the write cursor is put behind them. *)
Definition bitbuf_alloc_buffer_with_bytes (cfg : assert_cfg) (bytes : list byte)
    (num_bytes : Z) : outcome bitbuf_buffer_t :=
  do buffer <- bitbuf_alloc_buffer cfg num_bytes ;
  if (num_bytes <? 0) || (Z.of_nat (length bytes) <? num_bytes)
     || (capacity_bytes buffer <? num_bytes)
  then Undefined
  else
    let mem := take (Z.to_nat num_bytes) bytes
               ++ replicate (Z.to_nat (capacity_bytes buffer - num_bytes)) Byte.x00 in
    let segment := num_bytes / 8 in
    let bits_into_seg := (num_bytes mod 8) * 8 in
    Ret {| data := le_segments (length (data buffer)) mem;
           capacity_bytes := capacity_bytes buffer;
           truncated := truncated buffer;
           write := {| seg := segment; bits_into_seg := bits_into_seg;
                       owner := owner (write buffer);
                       read_past_end := read_past_end (write buffer) |} |}.

(** [bitbuf_free_buffer], FTGT_TESTS_ENABLED not defined: the assertion,
    then [BITBUF_FREE(buffer->data)], after which the buffer is gone. *)
Definition bitbuf_free_buffer (cfg : assert_cfg) (buffer : bitbuf_buffer_t)
  : outcome unit :=
  check c_assert cfg (negb (bitbuf_has_truncated buffer)) ;
  Ret tt.

(** The bytes of an integer of [n] bytes in memory, lowest first. *)
Fixpoint le_bytes (n : nat) (z : Z) : list byte :=
  match n with
  | O => []
  | S k => byte.of_Z z :: le_bytes k (z / 2 ^ 8)
  end.

(** [data] seen through a pointer to bytes, as
    [bitbuf_get_bytes_from_buffer] returns it. *)
Definition segment_bytes (d : list Z) : list byte := flat_map (le_bytes 8) d.

(** [bitbuf_get_bytes_from_buffer]: the memory the returned pointer points
    to and the number stored in [*out_num_bytes]; [out_num_bytes] tells
    whether that pointer is non-NULL. *)
Definition bitbuf_get_bytes_from_buffer (cfg : assert_cfg) (buf : bitbuf_buffer_t)
    (out_num_bytes : bool) : outcome (list byte * Z) :=
  check c_assert cfg out_num_bytes ;
  if negb out_num_bytes then Undefined
  else
    let num_bytes := u64 (seg (write buf) * 8) in
    let num_bytes :=
      u64 (num_bytes + BITBUF__ALIGN_UP (bits_into_seg (write buf)) 8 / 8) in
    Ret (segment_bytes (data buf), num_bytes).

(** [bitbuf_write_bool]: a [bool] is one byte, 0 or 1, at the low end of
    the union, and one bit of the union is written. *)
Definition bitbuf_write_bool (cfg : assert_cfg) (buf : bitbuf_buffer_t)
    (value : bool) (junk : Z) : outcome bitbuf_buffer_t :=
  bitbuf__write_bits cfg buf (u64 ((if value then 1 else 0) + 2 ^ 8 * junk)) 1.

(** The readers [bitbuf_read_int64] ... [bitbuf_read_uint8]: the union's
    [uint64_t] is set to the bits read and its other member returned,
    which is the low [width] bits of that integer, two's complement for
    the signed types. (For [bitbuf_read_float] and [bitbuf_read_double]
    the unsigned value is the representation of the result.) *)
Definition bitbuf_read_type (cfg : assert_cfg) (width : Z) (signed : bool)
    (buffer : bitbuf_buffer_t) (read : bitbuf_cursor_t)
  : outcome (Z * bitbuf_cursor_t) :=
  do r <- bitbuf__read_bits cfg buffer read width ;
  let u := fst r mod 2 ^ width in
  Ret (if signed && (2 ^ (width - 1) <=? u) then u - 2 ^ width else u, snd r).

(** [bitbuf_read_bool]: the low byte of the union read as a [bool]; a byte
    other than 0 and 1 is no value of that type. *)
Definition bitbuf_read_bool (cfg : assert_cfg) (buffer : bitbuf_buffer_t)
    (read : bitbuf_cursor_t) : outcome (bool * bitbuf_cursor_t) :=
  do r <- bitbuf__read_bits cfg buffer read 1 ;
  let byte0 := fst r mod 2 ^ 8 in
  if byte0 =? 0 then Ret (false, snd r)
  else if byte0 =? 1 then Ret (true, snd r)
  else Undefined.

(** ** Callers that write a record and read it back *)

(** A record is a list of fields (width, value); each field is written
    with [bitbuf_write_n_bits]. *)
Fixpoint write_fields (cfg : assert_cfg) (buf : bitbuf_buffer_t)
    (fields : list (Z * Z)) : outcome bitbuf_buffer_t :=
  match fields with
  | [] => Ret buf
  | (num_bits, value) :: rest =>
      do buf <- bitbuf_write_n_bits cfg buf num_bits value ;
      write_fields cfg buf rest
  end.

(** The fields are read with [bitbuf_read_n_bits], a mask being asked for
    each time: the values, the masks and the cursor at the end. *)
Fixpoint read_fields (cfg : assert_cfg) (buffer : bitbuf_buffer_t)
    (read : bitbuf_cursor_t) (widths : list Z)
  : outcome (list (Z * Z) * bitbuf_cursor_t) :=
  match widths with
  | [] => Ret ([], read)
  | num_bits :: rest =>
      do r <- bitbuf_read_n_bits cfg buffer read num_bits true ;
      match snd (fst r) with
      | Some mask =>
          do rs <- read_fields cfg buffer (snd r) rest ;
          Ret ((fst (fst r), mask) :: fst rs, snd rs)
      | None => Undefined
      end
  end.

(** ** The buffer as one run of bits *)

(** The segments as one number, segment 0 lowest: bit [p] of the buffer
    is bit [p] of this number. *)
Fixpoint segments_value (d : list Z) : Z :=
  match d with
  | [] => 0
  | x :: t => x + 2 ^ 64 * segments_value t
  end.

(** The [n] bits of the buffer from bit [p] on. *)
Definition bits_at (d : list Z) (p n : Z) : Z := (segments_value d / 2 ^ p) mod 2 ^ n.

(** Cursor [c] moved to bit [p] of the buffer. *)
Definition cursor_seek (c : bitbuf_cursor_t) (p : Z) : bitbuf_cursor_t :=
  {| seg := p / 64; bits_into_seg := p mod 64; owner := owner c;
     read_past_end := read_past_end c |}.

(** A read cursor of buffer [b] that points into the buffer or just
    behind its last segment, as [bitbuf_cursor_init] makes it and the
    readers leave it. *)
Record cursor_wf (b : bitbuf_buffer_t) (c : bitbuf_cursor_t) : Prop := {
  cw_owner : owner c = true;
  cw_seg : 0 <= seg c <= Z.of_nat (length (data b));
  cw_bits : 0 <= bits_into_seg c < 64;
  cw_end : seg c = Z.of_nat (length (data b)) -> bits_into_seg c = 0
}.

(** The part of [buffer_wf] the readers depend on. *)
Record buffer_shape (b : bitbuf_buffer_t) : Prop := {
  sh_capacity : capacity_bytes b = 8 * Z.of_nat (length (data b));
  sh_small : capacity_bytes b < 2 ^ 60;
  sh_data : Forall (fun x => 0 <= x < 2 ^ 64) (data b)
}.

(** The values of the bytes of a C string: those before the first zero
    byte. *)
Fixpoint cstr_bytes (str : list byte) : list Z :=
  match str with
  | [] => []
  | c :: p => if byte.unsigned c =? 0 then [] else byte.unsigned c :: cstr_bytes p
  end.

(** The number of bits of a record, its fields as one number (the first
    field lowest), and what its fields have to satisfy: a width from 1 to
    64 and a value that fits the width. *)
Fixpoint fields_bits (fields : list (Z * Z)) : Z :=
  match fields with
  | [] => 0
  | (num_bits, _) :: rest => num_bits + fields_bits rest
  end.

Fixpoint fields_value (fields : list (Z * Z)) : Z :=
  match fields with
  | [] => 0
  | (num_bits, value) :: rest => value + 2 ^ num_bits * fields_value rest
  end.

Definition fields_ok (fields : list (Z * Z)) : Prop :=
  Forall (fun f => 1 <= fst f <= 64 /\ 0 <= snd f < 2 ^ fst f) fields.

(** What reading a record back is to give: each value with the mask of
    its width. *)
Definition fields_read (fields : list (Z * Z)) : list (Z * Z) :=
  map (fun f => (snd f, 2 ^ fst f - 1)) fields.

(** A session whose buffer has the size its capacity says, whose cursors
    are cursors of the buffer and none of which has [read_past_end]
    set. *)
Definition flags_clear (s : session) : Prop :=
  capacity_bytes (buf s) = 8 * Z.of_nat (length (data (buf s)))
  /\ capacity_bytes (buf s) < 2 ^ 60
  /\ Forall (fun c => cursor_wf (buf s) c /\ read_past_end c = 0) (cursors s).

End BitBuf.

Import B89.

(** * Facts about machine integers and little-endian loads *)

Section Bytes.

Lemma byte_range (b : byte) : 0 <= byte.unsigned b < 256.
Proof. apply byte.unsigned_range. Qed.

Lemma byte_of_Z_small (z : Z) : 0 <= z < 256 -> byte.unsigned (byte.of_Z z) = z.
Proof.
  intros Hz. rewrite byte.unsigned_of_Z. unfold byte.wrap.
  apply Z.mod_small. lia.
Qed.

Lemma u32_small (z : Z) : 0 <= z < 2 ^ 32 -> u32 z = z.
Proof. intros. unfold u32. apply Z.mod_small. lia. Qed.

Lemma u64_small (z : Z) : 0 <= z < 2 ^ 64 -> u64 z = z.
Proof. intros. unfold u64. apply Z.mod_small. lia. Qed.

(** Splitting a word at bit [n]: the low part and the rest. *)
Lemma split_low (n a x : Z) :
  0 <= n -> 0 <= a < 2 ^ n -> (a + 2 ^ n * x) mod 2 ^ n = a.
Proof.
  intros Hn Ha. rewrite (Z.mul_comm (2 ^ n) x), Z.mod_add by lia.
  apply Z.mod_small. lia.
Qed.

Lemma split_high (n a x : Z) :
  0 <= n -> 0 <= a < 2 ^ n -> (a + 2 ^ n * x) / 2 ^ n = x.
Proof.
  intros Hn Ha. rewrite (Z.mul_comm (2 ^ n) x), Z.div_add by lia.
  rewrite Z.div_small; lia.
Qed.

Lemma low_byte (u r : Z) : 0 <= u < 256 -> Z.land (u + 2 ^ 8 * r) 255 = u.
Proof.
  intros Hu. change 255 with (Z.ones 8). rewrite Z.land_ones by lia.
  apply split_low; lia.
Qed.

Lemma drop_byte (u r : Z) : 0 <= u < 256 -> Z.shiftr (u + 2 ^ 8 * r) 8 = r.
Proof.
  intros Hu. rewrite Z.shiftr_div_pow2 by lia. apply split_high; lia.
Qed.

Lemma le_word_range (bs : list byte) : 0 <= le_word bs < 2 ^ (8 * Z.of_nat (length bs)).
Proof.
  induction bs as [|b t IH]; simpl length; [simpl; lia|].
  cbn [le_word]. pose proof (byte_range b).
  replace (8 * Z.of_nat (S (length t))) with (8 + 8 * Z.of_nat (length t)) by lia.
  rewrite Z.pow_add_r by lia. lia.
Qed.

Lemma land_mod (a b n : Z) :
  0 <= n -> Z.land a b mod 2 ^ n = Z.land (a mod 2 ^ n) (b mod 2 ^ n).
Proof.
  intros Hn. rewrite <- !Z.land_ones by lia.
  rewrite <- (Z.land_diag (Z.ones n)) at 1.
  rewrite !Z.land_assoc. f_equal.
  rewrite <- !Z.land_assoc. f_equal. apply Z.land_comm.
Qed.

Lemma lxor_mod (a b n : Z) :
  0 <= n -> Z.lxor a b mod 2 ^ n = Z.lxor (a mod 2 ^ n) (b mod 2 ^ n).
Proof.
  intros Hn. rewrite <- !Z.land_ones by lia.
  apply Z.bits_inj'. intros i Hi.
  rewrite !Z.land_spec, !Z.lxor_spec, !Z.land_spec.
  destruct (Z.testbit a i), (Z.testbit b i), (Z.testbit (Z.ones n) i); reflexivity.
Qed.

(** Bitwise operations act separately below and above bit [n]. *)
Lemma land_split (n a b x y : Z) :
  0 <= n -> 0 <= a < 2 ^ n -> 0 <= b < 2 ^ n ->
  Z.land (a + 2 ^ n * x) (b + 2 ^ n * y) = Z.land a b + 2 ^ n * Z.land x y.
Proof.
  intros Hn Ha Hb.
  rewrite (Z.div_mod (Z.land (a + 2 ^ n * x) (b + 2 ^ n * y)) (2 ^ n)) by lia.
  rewrite land_mod, !split_low by lia.
  rewrite <- Z.shiftr_div_pow2, Z.shiftr_land, !Z.shiftr_div_pow2 by lia.
  rewrite !split_high by lia. lia.
Qed.

Lemma lxor_split (n a b x y : Z) :
  0 <= n -> 0 <= a < 2 ^ n -> 0 <= b < 2 ^ n ->
  Z.lxor (a + 2 ^ n * x) (b + 2 ^ n * y) = Z.lxor a b + 2 ^ n * Z.lxor x y.
Proof.
  intros Hn Ha Hb.
  rewrite (Z.div_mod (Z.lxor (a + 2 ^ n * x) (b + 2 ^ n * y)) (2 ^ n)) by lia.
  rewrite lxor_mod, !split_low by lia.
  rewrite <- Z.shiftr_div_pow2, Z.shiftr_lxor, !Z.shiftr_div_pow2 by lia.
  rewrite !split_high by lia. lia.
Qed.

Lemma land_small (n a b : Z) :
  0 <= n -> 0 <= a < 2 ^ n -> 0 <= Z.land a b < 2 ^ n.
Proof.
  intros Hn Ha. split; [apply Z.land_nonneg; lia|].
  rewrite <- (Z.mod_small a (2 ^ n)) by lia.
  rewrite <- Z.land_ones by lia.
  rewrite <- Z.land_assoc, (Z.land_comm (Z.ones n)), Z.land_assoc, Z.land_ones by lia.
  apply Z.mod_pos_bound. lia.
Qed.

Lemma lxor_small (n a b : Z) :
  0 <= n -> 0 <= a < 2 ^ n -> 0 <= b < 2 ^ n -> 0 <= Z.lxor a b < 2 ^ n.
Proof.
  intros Hn Ha Hb.
  rewrite <- (Z.mod_small a (2 ^ n)), <- (Z.mod_small b (2 ^ n)) by lia.
  rewrite <- lxor_mod by lia. apply Z.mod_pos_bound. lia.
Qed.

Lemma mod_split (a y M : Z) :
  0 <= a < 2 ^ 8 -> 0 < M ->
  (a + 2 ^ 8 * y) mod (2 ^ 8 * M) = a + 2 ^ 8 * (y mod M).
Proof.
  intros Ha HM. rewrite Z.rem_mul_r by lia.
  rewrite split_low, split_high by lia. reflexivity.
Qed.

End Bytes.

(** * Base-89: decode, pack and unpack *)

Section Decode.

Lemma decode_base89_le_word (b0 b1 b2 b3 : byte) (max_index : Z) :
  decode_base89 (le_word [b0; b1; b2; b3]) max_index =
  decode_bytes (byte.unsigned b0) (byte.unsigned b1) (byte.unsigned b2)
               (byte.unsigned b3) max_index.
Proof.
  pose proof (byte_range b0) as H0. pose proof (byte_range b1) as H1.
  pose proof (byte_range b2) as H2. pose proof (byte_range b3) as H3.
  unfold decode_base89. cbn [le_word].
  change 16 with (8 + 8). change 24 with (8 + (8 + 8)).
  rewrite <- !Z.shiftr_shiftr by lia.
  set (u0 := byte.unsigned b0) in *. set (u1 := byte.unsigned b1) in *.
  set (u2 := byte.unsigned b2) in *. set (u3 := byte.unsigned b3) in *.
  rewrite !drop_byte, !low_byte by lia.
  unfold decode_bytes, in_alphabet, horner_index, B89__ORD_BASE.
  change B89_ST with 3. change B89__ORD_MIN with 38. change B89__ORD_MAX with 126.
  destruct (u0 =? 3); simpl negb; cbn [orb]; [|reflexivity].
  destruct (Z.ltb_spec u1 38), (Z.gtb_spec u1 126), (Z.leb_spec 38 u1),
    (Z.leb_spec u1 126); try lia; cbn [orb andb negb]; try reflexivity;
  destruct (Z.ltb_spec u2 38), (Z.gtb_spec u2 126), (Z.leb_spec 38 u2),
    (Z.leb_spec u2 126); try lia; cbn [orb andb negb]; try reflexivity;
  destruct (Z.ltb_spec u3 38), (Z.gtb_spec u3 126), (Z.leb_spec 38 u3),
    (Z.leb_spec u3 126); try lia; cbn [orb andb negb]; try reflexivity.
  change (126 - 38 + 1) with 89.
  rewrite (u32_small (u1 - 38)), (u32_small (u2 - 38)), (u32_small (u3 - 38)) by lia.
  rewrite (u32_small ((u3 - 38) * 89)) by lia.
  rewrite (u32_small ((u3 - 38) * 89 + (u2 - 38))) by lia.
  rewrite (u32_small (((u3 - 38) * 89 + (u2 - 38)) * 89)) by lia.
  rewrite (u32_small (((u3 - 38) * 89 + (u2 - 38)) * 89 + (u1 - 38))) by lia.
  destruct (Z.leb_spec (((u3 - 38) * 89 + (u2 - 38)) * 89 + (u1 - 38)) max_index),
    (Z.gtb_spec (((u3 - 38) * 89 + (u2 - 38)) * 89 + (u1 - 38)) max_index);
    try lia; reflexivity.
Qed.

Lemma b89_unpack_bytes (b0 b1 b2 b3 : byte) (max_index : Z) :
  b89_unpack [b0; b1; b2; b3] max_index =
  Ret (decode_base89 (le_word [b0; b1; b2; b3]) max_index).
Proof. reflexivity. Qed.

End Decode.

Section Pack.

Lemma c_assert_true (cfg : assert_cfg) : c_assert cfg true = Ret tt.
Proof. unfold c_assert. rewrite andb_false_r. reflexivity. Qed.

Lemma c_assert_no_trap (cfg : assert_cfg) (c : bool) :
  assert_traps cfg = false -> c_assert cfg c = Ret tt.
Proof. intros H. unfold c_assert. rewrite H. reflexivity. Qed.

Lemma b89_pack_bytes (cfg : assert_cfg) (index : Z) :
  assert_traps cfg = false \/ index <= B89_CODE_MAX ->
  b89_pack cfg index = Ret (packed_bytes index).
Proof.
  intros H. unfold b89_pack.
  assert (c_assert cfg (index <=? B89_CODE_MAX) = Ret tt) as ->.
  { destruct H as [H|H]; [now apply c_assert_no_trap|].
    apply Z.leb_le in H. rewrite H. apply c_assert_true. }
  cbn [bind]. unfold packed_bytes.
  change B89__ORD_MIN with 38. change B89_ST with 3.
  pose proof (Z.mod_pos_bound index 89 ltac:(lia)).
  pose proof (Z.mod_pos_bound (index / 89) 89 ltac:(lia)).
  pose proof (Z.mod_pos_bound (index / 89 / 89) 89 ltac:(lia)).
  rewrite !u32_small by lia. reflexivity.
Qed.

Lemma packed_bytes_well_formed (index : Z) :
  well_formed_code (packed_bytes index) = true.
Proof.
  pose proof (Z.mod_pos_bound index 89 ltac:(lia)).
  pose proof (Z.mod_pos_bound (index / 89) 89 ltac:(lia)).
  pose proof (Z.mod_pos_bound (index / 89 / 89) 89 ltac:(lia)).
  unfold well_formed_code, packed_bytes. rewrite !byte_of_Z_small by lia.
  unfold in_alphabet.
  repeat (apply andb_true_intro; split); lia.
Qed.

Lemma packed_bytes_mod (index : Z) :
  packed_bytes (index mod 704969) = packed_bytes index.
Proof.
  assert (index mod 704969 mod 89 = index mod 89) as E1.
  { Z.div_mod_to_equations. lia. }
  assert ((index mod 704969) / 89 mod 89 = index / 89 mod 89) as E2.
  { Z.div_mod_to_equations. lia. }
  assert ((index mod 704969) / 89 / 89 mod 89 = index / 89 / 89 mod 89) as E3.
  { Z.div_mod_to_equations. lia. }
  unfold packed_bytes. rewrite E1, E2, E3. reflexivity.
Qed.

Lemma unpack_packed_bytes (index max_index : Z) :
  0 <= index <= B89_CODE_MAX ->
  b89_unpack (packed_bytes index) max_index =
  Ret (if index >? max_index then 0 else index).
Proof.
  intros Hi. unfold B89_CODE_MAX in Hi.
  pose proof (Z.mod_pos_bound index 89 ltac:(lia)).
  pose proof (Z.mod_pos_bound (index / 89) 89 ltac:(lia)).
  pose proof (Z.mod_pos_bound (index / 89 / 89) 89 ltac:(lia)).
  unfold packed_bytes.
  rewrite b89_unpack_bytes, decode_base89_le_word.
  rewrite !byte_of_Z_small by lia.
  unfold decode_bytes, in_alphabet.
  assert (horner_index (index mod 89 + 38) (index / 89 mod 89 + 38)
            (index / 89 / 89 mod 89 + 38) = index) as ->.
  { unfold horner_index. Z.div_mod_to_equations. lia. }
  replace (38 <=? index mod 89 + 38) with true by (symmetry; lia).
  replace (index mod 89 + 38 <=? 126) with true by (symmetry; lia).
  replace (38 <=? index / 89 mod 89 + 38) with true by (symmetry; lia).
  replace (index / 89 mod 89 + 38 <=? 126) with true by (symmetry; lia).
  replace (38 <=? index / 89 / 89 mod 89 + 38) with true by (symmetry; lia).
  replace (index / 89 / 89 mod 89 + 38 <=? 126) with true by (symmetry; lia).
  reflexivity.
Qed.

End Pack.

Section PackUnpack.

(** C2. Decoding the four bytes of a candidate code, loaded as a packed
    32-bit word, gives 0 when byte 0 is not 0x03 or one of bytes 1..3 is
    outside [38, 126]; otherwise it gives the Horner index
    ((d2 * 89) + d1) * 89 + d0 with di = byte (i+1) - 38, replaced by 0 when
    that index exceeds [max_index]. Both [decode_base89] on the packed word
    and [b89_unpack] on the bytes do so. *)
Theorem b89_decode_correct (b0 b1 b2 b3 : byte) (max_index : Z) :
  decode_base89 (le_word [b0; b1; b2; b3]) max_index =
    decode_bytes (byte.unsigned b0) (byte.unsigned b1) (byte.unsigned b2)
                 (byte.unsigned b3) max_index
  /\ b89_unpack [b0; b1; b2; b3] max_index =
    Ret (decode_bytes (byte.unsigned b0) (byte.unsigned b1) (byte.unsigned b2)
                      (byte.unsigned b3) max_index).
Proof.
  split.
  - apply decode_base89_le_word.
  - rewrite b89_unpack_bytes. f_equal. apply decode_base89_le_word.
Qed.

(** C3. For every index I in [0, 704968] and every max_index >= I, packing
    I and unpacking the four bytes with that max_index returns I. *)
Theorem b89_pack_unpack_roundtrip (cfg : assert_cfg) (index max_index : Z) :
  0 <= index <= 704968 ->
  index <= max_index ->
  exists bytes,
    b89_pack cfg index = Ret bytes /\ b89_unpack bytes max_index = Ret index.
Proof.
  intros Hi Hm. exists (packed_bytes index). split.
  - apply b89_pack_bytes. right. unfold B89_CODE_MAX. lia.
  - rewrite unpack_packed_bytes by (unfold B89_CODE_MAX; lia).
    destruct (Z.gtb_spec index max_index); [lia | reflexivity].
Qed.

Lemma b89_pack_unpack_roundtrip_witness :
  0 <= 192 <= 704968 /\ 192 <= 1000 /\
  exists bytes,
    b89_pack libc_assert 192 = Ret bytes /\ b89_unpack bytes 1000 = Ret 192.
Proof.
  split; [lia|]. split; [lia|].
  apply (b89_pack_unpack_roundtrip libc_assert 192 1000); lia.
Defined.

(** C10. Where the assertion on the precondition does not stop the program
    (it expands to nothing unless ftg_core.h is included), [b89_pack]
    stores a well-formed code for every unsigned int index, and the bytes
    are those stored for index mod 704969. *)
Theorem b89_pack_total (cfg : assert_cfg) (index : Z) :
  assert_traps cfg = false ->
  0 <= index < 2 ^ 32 ->
  exists bytes,
    b89_pack cfg index = Ret bytes
    /\ well_formed_code bytes = true
    /\ b89_pack cfg (index mod 704969) = Ret bytes.
Proof.
  intros Hc Hi. exists (packed_bytes index). split; [|split].
  - apply b89_pack_bytes. now left.
  - apply packed_bytes_well_formed.
  - rewrite b89_pack_bytes by now left. f_equal. apply packed_bytes_mod.
Qed.

Lemma b89_pack_total_witness :
  assert_traps no_trap = false /\ 0 <= 4294967295 < 2 ^ 32 /\
  exists bytes,
    b89_pack no_trap 4294967295 = Ret bytes
    /\ well_formed_code bytes = true
    /\ b89_pack no_trap (4294967295 mod 704969) = Ret bytes.
Proof.
  split; [reflexivity|]. split; [lia|].
  apply (b89_pack_total no_trap 4294967295); [reflexivity | lia].
Defined.

End PackUnpack.

(** * Base-89: the word-parallel scan *)

Section Swar.

Lemma le_word_digits (bs : list byte) :
  le_word bs = le_digits (map byte.unsigned bs).
Proof. induction bs as [|b t IH]; cbn; [reflexivity | now rewrite IH]. Qed.

Lemma Forall_is_byte (bs : list byte) : Forall is_byte (map byte.unsigned bs).
Proof.
  induction bs as [|b t IH]; cbn; constructor; [apply byte_range | exact IH].
Qed.

Lemma pow_8S (n : nat) : 2 ^ (8 * Z.of_nat (S n)) = 2 ^ 8 * 2 ^ (8 * Z.of_nat n).
Proof. rewrite <- Z.pow_add_r by lia. f_equal. lia. Qed.

(** The bytes of [has_match], with the borrow chain made explicit. *)
Lemma hz_word (qs : list Z) : forall borrow : Z,
  Forall is_byte qs ->
  0 <= borrow <= 1 ->
  let n := length qs in
  let diff := Z.lxor (le_digits qs) (le_digits (repeat 3 n)) in
  Z.land
    (Z.land ((diff - le_digits (repeat 1 n) - borrow) mod 2 ^ (8 * Z.of_nat n))
            (Z.lnot diff mod 2 ^ (8 * Z.of_nat n)))
    (le_digits (repeat 128 n))
  = le_digits (hz_digits borrow qs).
Proof.
  induction qs as [|q t IH]; intros borrow Hq Hb.
  - cbn. now rewrite Z.land_0_r.
  - inversion Hq as [|q' t' Hq1 Hq2]; subst. unfold is_byte in Hq1.
    cbn zeta. cbn [length repeat le_digits hz_digits].
    rewrite pow_8S.
    assert (0 < 2 ^ (8 * Z.of_nat (length t))) as HM by (apply Z.pow_pos_nonneg; lia).
    set (M := 2 ^ (8 * Z.of_nat (length t))) in *.
    rewrite (lxor_split 8 q 3) by lia.
    pose proof (lxor_small 8 q 3 ltac:(lia) ltac:(lia) ltac:(lia)) as Hd.
    set (d := Z.lxor q 3) in *.
    set (D := Z.lxor (le_digits t) (le_digits (repeat 3 (length t)))) in *.
    set (O := le_digits (repeat 1 (length t))) in *.
    set (e := d - 1 - borrow).
    set (b' := if e <? 0 then 1 else 0).
    assert (0 <= b' <= 1) as Hb' by (unfold b'; destruct (e <? 0); lia).
    assert (e mod 256 = e + 256 * b') as He.
    { unfold b'. destruct (Z.ltb_spec e 0).
      - symmetry. apply (Z.mod_unique e 256 (-1)); lia.
      - rewrite Z.mod_small; lia. }
    pose proof (Z.mod_pos_bound e 256 ltac:(lia)) as Hem.
    replace (d + 2 ^ 8 * D - (1 + 2 ^ 8 * O) - borrow)
      with (e mod 256 + 2 ^ 8 * (D - O - b')) by lia.
    rewrite Z.lnot_eq_pred_opp.
    replace (- (d + 2 ^ 8 * D) - 1) with ((255 - d) + 2 ^ 8 * (- D - 1)) by lia.
    rewrite !mod_split by lia.
    rewrite land_split by lia.
    rewrite land_split; [| lia | apply land_small; lia | lia].
    rewrite <- Z.lnot_eq_pred_opp.
    fold b'. rewrite <- (IH b' Hq2 Hb'). reflexivity.
Qed.

Lemma le_digits_nonneg (ds : list Z) : Forall (fun d => 0 <= d) ds -> 0 <= le_digits ds.
Proof.
  induction 1 as [|d t Hd Ht IH]; cbn [le_digits]; lia.
Qed.

Lemma hz_digits_nonneg (qs : list Z) (borrow : Z) :
  Forall (fun d => 0 <= d) (hz_digits borrow qs).
Proof.
  revert borrow. induction qs as [|q t IH]; intros borrow; cbn [hz_digits].
  - constructor.
  - constructor; [|apply IH]. apply Z.land_nonneg. right. lia.
Qed.

(** A byte other than [B89_ST] leaves no mark and passes no borrow on. *)
Lemma hz_byte_other (b : byte) :
  byte.unsigned b <> 3 ->
  let e := Z.lxor (byte.unsigned b) 3 - 1 - 0 in
  Z.land (Z.land (e mod 256) (255 - Z.lxor (byte.unsigned b) 3)) 128 = 0
  /\ (e <? 0) = false.
Proof.
  destruct b; vm_compute; intros H; try (split; reflexivity); now elim H.
Qed.

Lemma hz_digits_none (bs : list byte) :
  Forall (fun b => byte.unsigned b <> 3) bs ->
  hz_digits 0 (map byte.unsigned bs) = repeat 0 (length bs).
Proof.
  induction 1 as [|b t Hb Ht IH]; [reflexivity|].
  cbn [map hz_digits length repeat].
  destruct (hz_byte_other b Hb) as [E1 E2]. cbn zeta in E1, E2.
  rewrite E1, E2, IH. reflexivity.
Qed.

Lemma hz_digits_first (lo hi : list byte) (b : byte) :
  Forall (fun b => byte.unsigned b <> 3) lo ->
  byte.unsigned b = 3 ->
  hz_digits 0 (map byte.unsigned (lo ++ b :: hi)) =
  repeat 0 (length lo) ++ 128 :: hz_digits 1 (map byte.unsigned hi).
Proof.
  intros Hlo Hb. induction Hlo as [|c t Hc Ht IH].
  - cbn [app map hz_digits length repeat]. rewrite Hb. reflexivity.
  - cbn [app map hz_digits length repeat].
    destruct (hz_byte_other c Hc) as [E1 E2]. cbn zeta in E1, E2.
    change ((c :: t) ++ b :: hi) with (c :: (t ++ b :: hi)).
    cbn [map hz_digits].
    rewrite E1, E2, IH. reflexivity.
Qed.

Lemma le_digits_zeros (n : nat) (ds : list Z) :
  le_digits (repeat 0 n ++ ds) = 2 ^ (8 * Z.of_nat n) * le_digits ds.
Proof.
  induction n as [|n IH]; cbn [repeat app le_digits].
  - change (8 * Z.of_nat 0) with 0. lia.
  - rewrite IH, pow_8S. lia.
Qed.

(** Every set of eight bytes either has no [B89_ST] or has a first one. *)
Lemma first_st_split (bs : list byte) :
  Forall (fun b => byte.unsigned b <> 3) bs
  \/ exists lo b hi, bs = lo ++ b :: hi
       /\ Forall (fun b => byte.unsigned b <> 3) lo /\ byte.unsigned b = 3.
Proof.
  induction bs as [|c t IH].
  - left. constructor.
  - destruct (Z.eq_dec (byte.unsigned c) 3) as [E|E].
    + right. exists [], c, t. repeat split; [constructor | exact E].
    + destruct IH as [IH|(lo & b & hi & -> & Hlo & Hb)].
      * left. now constructor.
      * right. exists (c :: lo), b, hi. repeat split; [now constructor | exact Hb].
Qed.

Lemma has_match_word_digits (bs : list byte) :
  length bs = 8%nat ->
  has_match_word (le_word bs) = le_digits (hz_digits 0 (map byte.unsigned bs)).
Proof.
  intros Hlen.
  pose proof (hz_word (map byte.unsigned bs) 0 (Forall_is_byte bs) ltac:(lia)) as H.
  cbn zeta in H. rewrite length_map, Hlen in H.
  rewrite <- H, le_word_digits. unfold has_match_word, u64.
  rewrite Z.sub_0_r. reflexivity.
Qed.

Lemma has_match_none (bs : list byte) :
  length bs = 8%nat ->
  Forall (fun b => byte.unsigned b <> 3) bs ->
  has_match_word (le_word bs) = 0.
Proof.
  intros Hlen Hbs. rewrite has_match_word_digits, hz_digits_none by assumption.
  rewrite Hlen. reflexivity.
Qed.

Lemma ctz_from_pow2 (n : nat) : forall (fuel : nat) (m : Z),
  (n < fuel)%nat -> ctz_from fuel (2 ^ Z.of_nat n * (1 + 2 * m)) = Z.of_nat n.
Proof.
  induction n as [|n IH]; intros fuel m Hf; destruct fuel as [|fuel]; try lia.
  - cbn [ctz_from]. change (2 ^ Z.of_nat 0) with 1.
    rewrite Z.mul_1_l, Z.odd_add_mul_2. reflexivity.
  - cbn [ctz_from].
    replace (2 ^ Z.of_nat (S n) * (1 + 2 * m))
      with (0 + 2 * (2 ^ Z.of_nat n * (1 + 2 * m))).
    2:{ rewrite Nat2Z.inj_succ, Z.pow_succ_r by lia. lia. }
    rewrite Z.odd_add_mul_2. cbn [Z.odd].
    replace (0 + 2 * (2 ^ Z.of_nat n * (1 + 2 * m)))
      with (2 ^ Z.of_nat n * (1 + 2 * m) * 2) by lia.
    rewrite Z.div_mul by lia. rewrite IH by lia. lia.
Qed.

Lemma has_match_first (lo hi : list byte) (b : byte) :
  length (lo ++ b :: hi) = 8%nat ->
  Forall (fun b => byte.unsigned b <> 3) lo ->
  byte.unsigned b = 3 ->
  has_match_word (le_word (lo ++ b :: hi)) <> 0
  /\ get_first_match_index (has_match_word (le_word (lo ++ b :: hi)))
     = Ret (Z.of_nat (length lo)).
Proof.
  intros Hlen Hlo Hb.
  rewrite has_match_word_digits, (hz_digits_first lo hi b Hlo Hb) by assumption.
  rewrite le_digits_zeros. cbn [le_digits].
  pose proof (le_digits_nonneg _ (hz_digits_nonneg (map byte.unsigned hi) 1)) as Hr.
  set (R := le_digits (hz_digits 1 (map byte.unsigned hi))) in *.
  set (k := length lo) in *.
  assert (0 < 2 ^ (8 * Z.of_nat k)) as Hp by (apply Z.pow_pos_nonneg; lia).
  assert (2 ^ (8 * Z.of_nat k) * (128 + 2 ^ 8 * R)
          = 2 ^ Z.of_nat (8 * k + 7) * (1 + 2 * R)) as E.
  { replace (Z.of_nat (8 * k + 7)) with (8 * Z.of_nat k + 7) by lia.
    rewrite Z.pow_add_r by lia. change (2 ^ 8) with 256. change (2 ^ 7) with 128.
    generalize (2 ^ (8 * Z.of_nat k)). intros X. ring. }
  split; [nia|].
  unfold get_first_match_index, ctzll.
  destruct (Z.eqb_spec (2 ^ (8 * Z.of_nat k) * (128 + 2 ^ 8 * R)) 0) as [E0|_]; [nia|].
  cbn [bind]. rewrite E.
  rewrite length_app in Hlen. cbn [length] in Hlen. fold k in Hlen.
  rewrite ctz_from_pow2 by lia. f_equal.
  replace (Z.of_nat (8 * k + 7)) with (7 + Z.of_nat k * 8) by lia.
  rewrite Z.div_add by lia. reflexivity.
Qed.

End Swar.

Section Scan.

Lemma naive_scan_hit (n : nat) (mem : list byte) (i : nat) (b : byte) :
  mem !! i = Some b -> byte.unsigned b = 3 -> naive_scan (S n) mem i = i.
Proof.
  intros Hl Hb. cbn [naive_scan]. rewrite Hl, Hb. reflexivity.
Qed.

Lemma naive_scan_skip (j : nat) : forall (n : nat) (mem : list byte) (in_ : nat),
  (forall i, (i < j)%nat ->
     exists b, mem !! (in_ + i)%nat = Some b /\ byte.unsigned b <> 3) ->
  naive_scan (j + n) mem in_ = naive_scan n mem (in_ + j).
Proof.
  induction j as [|j IH]; intros n mem in_ H.
  - now rewrite Nat.add_0_r.
  - destruct (H 0%nat ltac:(lia)) as (b & Hl & Hb).
    rewrite Nat.add_0_r in Hl.
    change (S j + n)%nat with (S (j + n)). cbn [naive_scan]. rewrite Hl.
    change B89_ST with 3.
    destruct (Z.eqb_spec (byte.unsigned b) 3) as [E|_]; [contradiction|].
    rewrite IH.
    + f_equal. lia.
    + intros i Hi. destruct (H (S i) ltac:(lia)) as (c & Hc1 & Hc2).
      exists c. split; [|exact Hc2]. rewrite <- Hc1. f_equal. lia.
Qed.

(** What the byte-by-byte scan returns: the first [B89_ST] of the range,
    or its end. *)
Lemma naive_scan_spec (n : nat) : forall (mem : list byte) (in_ : nat),
  (in_ + n <= length mem)%nat ->
  let r := naive_scan n mem in_ in
  (in_ <= r <= in_ + n)%nat
  /\ (forall i b, (in_ <= i < r)%nat -> mem !! i = Some b -> byte.unsigned b <> 3)
  /\ ((r < in_ + n)%nat -> exists b, mem !! r = Some b /\ byte.unsigned b = 3).
Proof.
  induction n as [|n IH]; intros mem in_ Hlen; cbn zeta.
  - cbn [naive_scan]. split; [lia|]. split; intros; lia.
  - cbn [naive_scan].
    destruct (lookup_lt_is_Some_2 mem in_ ltac:(lia)) as [b Hb]. rewrite Hb.
    change B89_ST with 3.
    destruct (Z.eqb_spec (byte.unsigned b) 3) as [E|E].
    + split; [lia|]. split; [intros; lia|]. intros _. now exists b.
    + specialize (IH mem (S in_) ltac:(lia)). cbn zeta in IH.
      destruct IH as (Hr & Hbefore & Hat).
      split; [lia|]. split.
      * intros i c Hi Hc. destruct (Nat.eq_dec i in_) as [->|Hne].
        -- congruence.
        -- apply (Hbefore i c); [lia | exact Hc].
      * intros Hlt. apply Hat. lia.
Qed.

Lemma scan_tail_naive (fuel : nat) : forall (mem : list byte) (in_ end_ : nat),
  (in_ <= end_)%nat -> (end_ <= length mem)%nat -> (end_ - in_ < fuel)%nat ->
  scan_tail fuel mem in_ end_ = Ret (naive_scan (end_ - in_) mem in_).
Proof.
  induction fuel as [|fuel IH]; intros mem in_ end_ Hle Hlen Hf; [lia|].
  cbn [scan_tail]. destruct (Nat.ltb_spec in_ end_) as [Hlt|Hge].
  - destruct (lookup_lt_is_Some_2 mem in_ ltac:(lia)) as [b Hb].
    unfold load_byte. rewrite Hb. cbn [bind].
    replace (end_ - in_)%nat with (S (end_ - S in_)) by lia.
    cbn [naive_scan]. rewrite Hb.
    destruct (byte.unsigned b =? B89_ST); [reflexivity|].
    apply IH; lia.
  - replace (end_ - in_)%nat with 0%nat by lia. cbn [naive_scan]. f_equal. lia.
Qed.

Lemma load_le_chunk (mem : list byte) (in_ n : nat) :
  (in_ + n <= length mem)%nat ->
  load_le mem in_ n = Ret (le_word (take n (drop in_ mem)))
  /\ length (take n (drop in_ mem)) = n.
Proof.
  intros H. assert (length (take n (drop in_ mem)) = n) as E.
  { rewrite length_take, length_drop. lia. }
  unfold load_le. rewrite E, Nat.eqb_refl. now split.
Qed.

Lemma chunk_lookup (mem : list byte) (in_ n i : nat) :
  (i < n)%nat -> take n (drop in_ mem) !! i = mem !! (in_ + i)%nat.
Proof. intros H. now rewrite lookup_take_lt, lookup_drop. Qed.

Lemma scan_words_naive (fuel : nat) : forall (mem : list byte) (in_ end_ : nat),
  (in_ <= end_)%nat -> (end_ <= length mem)%nat -> (end_ - in_ < 8 * fuel)%nat ->
  scan_words fuel mem in_ end_ = Ret (naive_scan (end_ - in_) mem in_).
Proof.
  induction fuel as [|fuel IH]; intros mem in_ end_ Hle Hlen Hf; [lia|].
  cbn [scan_words]. destruct (Nat.leb_spec (in_ + 8) end_) as [Hw|Ht].
  - destruct (load_le_chunk mem in_ 8 ltac:(lia)) as [-> Hlen8]. cbn [bind].
    set (bs := take 8 (drop in_ mem)) in *.
    destruct (first_st_split bs) as [Hnone|(lo & b & hi & Hbs & Hlo & Hb)].
    + rewrite (has_match_none bs Hlen8 Hnone). cbn [Z.eqb negb].
      rewrite IH by lia.
      replace (end_ - in_)%nat with (8 + (end_ - (in_ + 8)))%nat by lia.
      rewrite naive_scan_skip; [reflexivity|].
      intros i Hi.
      destruct (lookup_lt_is_Some_2 bs i ltac:(lia)) as [c Hc].
      exists c. split.
      * rewrite <- Hc. symmetry. now apply chunk_lookup.
      * apply (Forall_lookup_1 _ _ _ _ Hnone Hc).
    + assert (length lo < 8)%nat as Hk.
      { rewrite Hbs, length_app in Hlen8. cbn [length] in Hlen8. lia. }
      rewrite Hbs in Hlen8.
      destruct (has_match_first lo hi b Hlen8 Hlo Hb) as [Hnz Hidx].
      rewrite <- Hbs in Hnz, Hidx.
      destruct (Z.eqb_spec (has_match_word (le_word bs)) 0) as [E|_]; [contradiction|].
      cbn [negb]. rewrite Hidx. cbn [bind]. f_equal. rewrite Nat2Z.id.
      replace (end_ - in_)%nat with (length lo + S (end_ - in_ - S (length lo)))%nat by lia.
      rewrite naive_scan_skip.
      * symmetry. apply (naive_scan_hit _ _ _ b); [|exact Hb].
        rewrite <- chunk_lookup with (n := 8%nat) by lia. fold bs.
        rewrite Hbs. now rewrite list_lookup_middle.
      * intros i Hi.
        destruct (lookup_lt_is_Some_2 lo i Hi) as [c Hc].
        exists c. split.
        -- rewrite <- chunk_lookup with (n := 8%nat) by lia. fold bs.
           rewrite Hbs. now rewrite lookup_app_l.
        -- apply (Forall_lookup_1 _ _ _ _ Hlo Hc).
  - apply scan_tail_naive; lia.
Qed.

(** C6. On every byte range [[in_, end_)] the word-parallel scan returns,
    and the position it returns is the one the byte-by-byte scan reaches:
    the first byte equal to 0x03 of the range, or [end_] when the range has
    none. *)
Theorem scan_string_seg_equiv (mem : list byte) (in_ end_ : nat) :
  (in_ <= end_)%nat ->
  (end_ <= length mem)%nat ->
  exists r,
    scan_string_seg mem in_ end_ = Ret r
    /\ r = naive_scan (end_ - in_) mem in_
    /\ (in_ <= r <= end_)%nat
    /\ (forall i b, (in_ <= i < r)%nat -> mem !! i = Some b -> byte.unsigned b <> 3)
    /\ ((r < end_)%nat -> exists b, mem !! r = Some b /\ byte.unsigned b = 3).
Proof.
  intros Hle Hlen. exists (naive_scan (end_ - in_) mem in_).
  split; [|split; [reflexivity|]].
  - unfold scan_string_seg. apply scan_words_naive; lia.
  - pose proof (naive_scan_spec (end_ - in_) mem in_ ltac:(lia)) as H.
    cbn zeta in H. replace (in_ + (end_ - in_))%nat with end_ in H by lia.
    exact H.
Qed.

End Scan.

Lemma scan_string_seg_equiv_witness :
  (0 <= 18)%nat /\ (18 <= length example_str)%nat /\
  exists r,
    scan_string_seg example_str 0 18 = Ret r
    /\ r = naive_scan (18 - 0) example_str 0
    /\ (0 <= r <= 18)%nat
    /\ (forall i b, (0 <= i < r)%nat -> example_str !! i = Some b -> byte.unsigned b <> 3)
    /\ ((r < 18)%nat -> exists b, example_str !! r = Some b /\ byte.unsigned b = 3).
Proof.
  split; [lia|]. split; [cbn; lia|].
  apply (scan_string_seg_equiv example_str 0 18); cbn; lia.
Defined.

Section Iterator.

(** The header's example string splits into the text "Hello, ", the code
    2, the text "guy" and the code 1. *)
Lemma example_str_events :
  b89_events 8 libc_assert (b89_iter_init example_str 18 10000) =
  Ret [B89_EVENT_TEXT 0 7; B89_EVENT_CODE 2; B89_EVENT_TEXT 11 3; B89_EVENT_CODE 1].
Proof. vm_compute. reflexivity. Qed.

(** C7. When [b89_iter_next] is called with [pos] on a 0x03 byte and fewer
    than four bytes left before [end_], it returns 0 (no event) and leaves
    [pos] equal to [end_]; the next call returns 0 as well. *)
Theorem b89_iter_next_truncated (cfg : assert_cfg) (it : b89_iter_t) (b : byte) :
  (pos it < end_ it)%nat ->
  (end_ it <= length (str it))%nat ->
  str it !! pos it = Some b ->
  byte.unsigned b = 3 ->
  (end_ it - pos it < 4)%nat ->
  exists it',
    b89_iter_next cfg it = Ret (0, it')
    /\ pos it' = end_ it
    /\ end_ it' = end_ it
    /\ b89_iter_next cfg it' = Ret (0, it').
Proof.
  intros Hlt Hlen Hb Hst Hfew.
  unfold b89_iter_next at 1.
  destruct (Nat.leb_spec (end_ it) (pos it)) as [Hge|_]; [lia|].
  unfold scan_string_seg. rewrite scan_words_naive by lia.
  replace (end_ it - pos it)%nat with (S (end_ it - S (pos it))) by lia.
  rewrite (naive_scan_hit _ _ _ b Hb Hst). cbn [bind].
  cbn [set_pos set_event pos str end_ max_index event].
  rewrite Nat.eqb_refl. cbn [negb].
  unfold load_byte. rewrite Hb, Hst. cbn [bind]. change (3 =? B89_ST) with true.
  cbn match.
  destruct (Z.ltb_spec (Z.of_nat (end_ it) - Z.of_nat (pos it)) 4) as [_|Hge]; [|lia].
  eexists. split; [reflexivity|]. cbn [set_pos set_event pos end_ str].
  split; [reflexivity|]. split; [reflexivity|].
  unfold b89_iter_next. cbn [pos end_ set_pos set_event].
  rewrite Nat.leb_refl. reflexivity.
Qed.

Lemma b89_iter_next_truncated_witness :
  let it := {| str := example_str; pos := 14; end_ := 17; event := None;
               max_index := 10000 |} in
  (pos it < end_ it)%nat /\
  (end_ it <= length (str it))%nat /\
  str it !! pos it = Some (byte.of_Z 3) /\
  byte.unsigned (byte.of_Z 3) = 3 /\
  (end_ it - pos it < 4)%nat /\
  exists it',
    b89_iter_next libc_assert it = Ret (0, it')
    /\ pos it' = end_ it
    /\ end_ it' = end_ it
    /\ b89_iter_next libc_assert it' = Ret (0, it').
Proof.
  cbn zeta. split; [cbn; lia|]. split; [cbn; lia|]. split; [reflexivity|].
  split; [reflexivity|]. split; [cbn; lia|].
  apply (b89_iter_next_truncated libc_assert
           {| str := example_str; pos := 14; end_ := 17; event := None;
              max_index := 10000 |} (byte.of_Z 3));
    [cbn; lia | cbn; lia | reflexivity | reflexivity | cbn; lia].
Defined.

End Iterator.

(** * The bit buffer *)

Import BitBuf.

Section Masks.

Lemma spanmask_table :
  bitbuf__spanmasktable = map (fun n => 2 ^ n - 1) (seqZ 0 65).
Proof. vm_compute. reflexivity. Qed.

Lemma spanmask_spec (n : Z) : 0 <= n <= 64 -> spanmask n = Ret (2 ^ n - 1).
Proof.
  intros Hn. unfold spanmask.
  destruct (Z.ltb_spec n 0) as [?|_]; [lia|].
  rewrite spanmask_table, list_lookup_fmap.
  rewrite lookup_seqZ_lt by (rewrite Z2Nat.id; lia).
  cbn. rewrite Z2Nat.id by lia. reflexivity.
Qed.

Lemma spanmask_ones (n : Z) : 0 <= n <= 64 -> spanmask n = Ret (Z.ones n).
Proof.
  intros Hn. rewrite spanmask_spec by lia. f_equal.
  rewrite Z.ones_equiv. lia.
Qed.

Lemma pow2_pos (n : Z) : 0 <= n -> 0 < 2 ^ n.
Proof. intros. apply Z.pow_pos_nonneg; lia. Qed.

Lemma pow2_le (a b : Z) : 0 <= a <= b -> 2 ^ a <= 2 ^ b.
Proof. intros. apply Z.pow_le_mono_r; lia. Qed.

Lemma pow2_lt (a b : Z) : 0 <= a < b -> 2 ^ a < 2 ^ b.
Proof. intros. apply Z.pow_lt_mono_r; lia. Qed.

Lemma land_mask (v n : Z) : 0 <= n -> Z.land v (2 ^ n - 1) = v mod 2 ^ n.
Proof.
  intros Hn. replace (2 ^ n - 1) with (Z.ones n) by (rewrite Z.ones_equiv; lia).
  now apply Z.land_ones.
Qed.

Lemma lor_split (n a b x y : Z) :
  0 <= n -> 0 <= a < 2 ^ n -> 0 <= b < 2 ^ n ->
  Z.lor (a + 2 ^ n * x) (b + 2 ^ n * y) = Z.lor a b + 2 ^ n * Z.lor x y.
Proof.
  intros Hn Ha Hb.
  rewrite (Z.div_mod (Z.lor (a + 2 ^ n * x) (b + 2 ^ n * y)) (2 ^ n)) by lia.
  rewrite <- Z.shiftr_div_pow2, Z.shiftr_lor, !Z.shiftr_div_pow2 by lia.
  rewrite !split_high by lia.
  rewrite <- Z.land_ones, Z.land_lor_distr_l, !Z.land_ones, !split_low by lia.
  lia.
Qed.

(** Bits stored above the low [k] bits of a segment do not disturb them. *)
Lemma lor_above (k x w : Z) :
  0 <= k -> 0 <= x < 2 ^ k -> Z.lor x (2 ^ k * w) = x + 2 ^ k * w.
Proof.
  intros Hk Hx.
  pose proof (lor_split k x 0 0 w Hk Hx ltac:(pose proof (pow2_pos k); lia)) as H.
  rewrite Z.lor_0_r, Z.lor_0_l in H.
  replace (x + 2 ^ k * 0) with x in H by lia.
  replace (0 + 2 ^ k * w) with (2 ^ k * w) in H by lia. exact H.
Qed.

Lemma land_above (k x w m : Z) :
  0 <= k -> 0 <= x < 2 ^ k ->
  Z.land (x + 2 ^ k * w) (2 ^ k * m) = 2 ^ k * Z.land w m.
Proof.
  intros Hk Hx.
  pose proof (land_split k x 0 w m Hk Hx ltac:(pose proof (pow2_pos k); lia)) as H.
  rewrite Z.land_0_r in H.
  replace (0 + 2 ^ k * m) with (2 ^ k * m) in H by lia.
  rewrite H. lia.
Qed.

Lemma shl64_small (x n : Z) :
  0 <= n < 64 -> 0 <= x -> x * 2 ^ n < 2 ^ 64 -> shl64 x n = Ret (2 ^ n * x).
Proof.
  intros Hn Hx Hb. unfold shl64.
  destruct (Z.leb_spec 0 n), (Z.ltb_spec n 64); try lia. cbn [andb].
  rewrite Z.shiftl_mul_pow2 by lia. rewrite u64_small by lia. f_equal. lia.
Qed.

Lemma shr64_spec (x n : Z) : 0 <= n < 64 -> shr64 x n = Ret (x / 2 ^ n).
Proof.
  intros Hn. unfold shr64.
  destruct (Z.leb_spec 0 n), (Z.ltb_spec n 64); try lia. cbn [andb].
  now rewrite Z.shiftr_div_pow2 by lia.
Qed.

End Masks.

Lemma c_assert_ok (cfg : assert_cfg) (c : bool) : c = true -> c_assert cfg c = Ret tt.
Proof. intros ->. apply c_assert_true. Qed.

Ltac bool_true :=
  first [ apply Z.ltb_lt | apply Z.leb_le | apply Z.geb_le | apply Z.gtb_lt
        | apply Z.eqb_eq ]; lia.

Ltac bool_false :=
  first [ apply Z.ltb_ge | apply Z.leb_gt | apply Z.eqb_neq ]; lia.

Ltac pass_assert :=
  rewrite c_assert_ok by bool_true; cbn [bind].

Section WriteBits.

Lemma s64_small (z : Z) : - 2 ^ 63 <= z < 2 ^ 63 -> s64 z = z.
Proof. intros H. unfold s64. rewrite Z.mod_small; lia. Qed.

Lemma wf_seg_bound (b : bitbuf_buffer_t) :
  buffer_wf b -> 0 <= 64 * Z.of_nat (length (data b)) < 2 ^ 63.
Proof. intros [Hc Hs _ _ _ _ _]. lia. Qed.

Lemma remaining_capacity_wf (cfg : assert_cfg) (b : bitbuf_buffer_t) :
  buffer_wf b ->
  bitbuf__remaining_capacity_in_bits cfg b =
  Ret (8 * capacity_bytes b - bit_position (write b)).
Proof.
  intros Hwf. pose proof (wf_seg_bound b Hwf) as HL.
  destruct Hwf as [Hc Hs Hseg Hbits Hend _ _].
  unfold bitbuf__remaining_capacity_in_bits, bit_position.
  change BITBUF__SEG_BITS with 64.
  pass_assert.
  rewrite (u64_small (seg (write b) * 64)) by lia.
  rewrite (u64_small (64 - bits_into_seg (write b))) by lia.
  pass_assert.
  rewrite (u64_small (seg (write b) * 64 + bits_into_seg (write b))) by lia.
  rewrite (u64_small (capacity_bytes b * 8)) by lia.
  assert (seg (write b) * 64 + bits_into_seg (write b) <= capacity_bytes b * 8).
  { destruct (Z.eq_dec (seg (write b)) (Z.of_nat (length (data b)))) as [E|E].
    - rewrite (Hend E). lia.
    - lia. }
  pass_assert. rewrite s64_small by lia. f_equal. lia.
Qed.

Lemma load_seg_lookup (d : list Z) (i : Z) (x : Z) :
  0 <= i -> d !! Z.to_nat i = Some x -> load_seg d i = Ret x.
Proof.
  intros Hi Hx. unfold load_seg.
  destruct (Z.ltb_spec i 0); [lia|]. now rewrite Hx.
Qed.

Lemma store_seg_ok (d : list Z) (i v : Z) :
  0 <= i < Z.of_nat (length d) -> store_seg d i v = Ret (<[Z.to_nat i := v]> d).
Proof.
  intros Hi. unfold store_seg.
  destruct (Z.leb_spec 0 i), (Z.ltb_spec i (Z.of_nat (length d))); try lia.
  reflexivity.
Qed.

Lemma or_into_seg_ok (b : bitbuf_buffer_t) (v x : Z) :
  0 <= seg (write b) ->
  data b !! Z.to_nat (seg (write b)) = Some x ->
  or_into_seg b v =
  Ret (set_data b (<[Z.to_nat (seg (write b)) := Z.lor x v]> (data b))).
Proof.
  intros Hs Hx. unfold or_into_seg.
  rewrite (load_seg_lookup _ _ x Hs Hx). cbn [bind].
  rewrite store_seg_ok; [reflexivity|].
  apply lookup_lt_Some in Hx. lia.
Qed.

End WriteBits.

Section WriteBitsWf.

Variable cfg : assert_cfg.

Lemma lor_small (n a b : Z) :
  0 <= n -> 0 <= a < 2 ^ n -> 0 <= b < 2 ^ n -> 0 <= Z.lor a b < 2 ^ n.
Proof.
  intros Hn Ha Hb. split; [apply Z.lor_nonneg; lia|].
  rewrite <- (Z.mod_small (Z.lor a b) (2 ^ n)).
  - apply Z.mod_pos_bound. now apply pow2_pos.
  - split; [apply Z.lor_nonneg; lia|].
    destruct (Z.eq_dec (Z.lor a b) 0) as [->|Hne]; [now apply pow2_pos|].
    apply Z.log2_lt_pow2; [pose proof (Z.lor_nonneg a b); lia|].
    rewrite Z.log2_lor by lia.
    destruct (Z.eq_dec a 0) as [->|Ha0], (Z.eq_dec b 0) as [->|Hb0].
    + now rewrite Z.lor_0_l in Hne.
    + cbn [Z.log2]. rewrite Z.max_r by apply Z.log2_nonneg.
      apply Z.log2_lt_pow2; lia.
    + cbn [Z.log2]. rewrite Z.max_l by apply Z.log2_nonneg.
      apply Z.log2_lt_pow2; lia.
    + apply Z.max_lub_lt; apply Z.log2_lt_pow2; lia.
Qed.

Lemma unfrozen_assert (b : bitbuf_buffer_t) :
  owner (write b) = false \/ assert_traps cfg = false ->
  c_assert cfg (negb (owner (write b))) = Ret tt.
Proof.
  intros [H|H]; [rewrite H; apply c_assert_true | now apply c_assert_no_trap].
Qed.

Lemma wf_lookup (b : bitbuf_buffer_t) (i : Z) :
  buffer_wf b -> 0 <= i < Z.of_nat (length (data b)) ->
  exists x, data b !! Z.to_nat i = Some x /\ 0 <= x < 2 ^ 64.
Proof.
  intros Hwf Hi.
  destruct (lookup_lt_is_Some_2 (data b) (Z.to_nat i) ltac:(lia)) as [x Hx].
  exists x. split; [exact Hx|].
  apply (Forall_lookup_1 _ _ _ _ (wf_data b Hwf) Hx).
Qed.

Lemma after_fit_wf (b : bitbuf_buffer_t) (x datum n : Z) :
  buffer_wf b ->
  data b !! Z.to_nat (seg (write b)) = Some x ->
  0 <= n <= 64 - bits_into_seg (write b) ->
  buffer_wf (after_fit b x datum n).
Proof.
  intros Hwf Hx Hn. pose proof (lookup_lt_Some _ _ _ Hx) as Hlt.
  pose proof (Forall_lookup_1 _ _ _ _ (wf_data b Hwf) Hx) as Hxr.
  cbn beta in Hxr.
  destruct Hwf as [Hc Hs Hseg Hbits Hend Hdata Htr].
  set (k := bits_into_seg (write b)) in *.
  assert (0 <= 2 ^ k * (datum mod 2 ^ n) < 2 ^ 64) as Hv.
  { pose proof (Z.mod_pos_bound datum (2 ^ n) (pow2_pos n ltac:(lia))).
    pose proof (pow2_pos k ltac:(lia)).
    pose proof (pow2_le (k + n) 64 ltac:(lia)) as Hp.
    rewrite Z.pow_add_r in Hp by lia. nia. }
  assert (Forall (fun z => 0 <= z < 2 ^ 64)
            (<[Z.to_nat (seg (write b)) := Z.lor x (2 ^ k * (datum mod 2 ^ n))]> (data b)))
    as Hd'.
  { apply Forall_insert; [exact Hdata|]. apply lor_small; lia. }
  unfold after_fit. fold k.
  destruct (Z.eqb_spec (k + n) 64) as [E|E]; constructor;
    cbn [data capacity_bytes truncated write set_data set_write set_bits
         bitbuf__advance_cursor seg bits_into_seg];
    rewrite ?length_insert; try assumption; try lia.
Qed.

Lemma write_rec_fit (fuel : nat) (b : bitbuf_buffer_t) (x datum n : Z) :
  buffer_wf b ->
  owner (write b) = false \/ assert_traps cfg = false ->
  data b !! Z.to_nat (seg (write b)) = Some x ->
  0 <= n <= 64 - bits_into_seg (write b) ->
  bitbuf__write_bits_rec (S fuel) cfg b datum n = Ret (after_fit b x datum n).
Proof.
  intros Hwf Hfr Hx Hn. pose proof (lookup_lt_Some _ _ _ Hx) as Hlt.
  pose proof (after_fit_wf b x datum n Hwf Hx Hn) as Hwf'.
  pose proof (wf_seg_bound b Hwf) as HL.
  cbn [bitbuf__write_bits_rec].
  pose proof Hwf as [Hc Hs Hseg Hbits Hend Hdata Htr].
  pass_assert. destruct (Z.gtb_spec n 64) as [?|_]; [lia|].
  rewrite unfrozen_assert by assumption. cbn [bind].
  rewrite remaining_capacity_wf by assumption. cbn [bind].
  unfold bit_position. change BITBUF__SEG_BITS with 64.
  set (k := bits_into_seg (write b)) in *.
  destruct (Z.ltb_spec (8 * capacity_bytes b - (64 * seg (write b) + k)) n) as [?|_];
    [lia|].
  destruct (Z.leb_spec n (64 - k)) as [_|?]; [|lia].
  rewrite spanmask_spec by lia. cbn [bind].
  rewrite land_mask by lia.
  pose proof (Z.mod_pos_bound datum (2 ^ n) (pow2_pos n ltac:(lia))) as Hm.
  rewrite shl64_small; [| lia | lia |].
  2:{ pose proof (pow2_pos k ltac:(lia)).
      pose proof (pow2_le (k + n) 64 ltac:(lia)) as Hp.
      rewrite Z.pow_add_r in Hp by lia. nia. }
  cbn [bind]. rewrite (or_into_seg_ok b _ x) by (assumption || lia). cbn [bind].
  cbn [write set_write set_data set_bits bits_into_seg]. fold k.
  unfold after_fit in *. fold k in Hwf' |- *.
  destruct (Z.eqb_spec (k + n) 64) as [E|E]; [|reflexivity].
  rewrite remaining_capacity_wf by exact Hwf'. cbn [bind].
  unfold bit_position.
  cbn [write set_write set_data set_bits bits_into_seg bitbuf__advance_cursor seg
       capacity_bytes].
  pass_assert. reflexivity.
Qed.

Lemma after_fill_wf (b : bitbuf_buffer_t) (x datum : Z) :
  buffer_wf b ->
  data b !! Z.to_nat (seg (write b)) = Some x ->
  buffer_wf (after_fill b x datum).
Proof.
  intros Hwf Hx. pose proof (lookup_lt_Some _ _ _ Hx) as Hlt.
  pose proof (Forall_lookup_1 _ _ _ _ (wf_data b Hwf) Hx) as Hxr.
  cbn beta in Hxr.
  destruct Hwf as [Hc Hs Hseg Hbits Hend Hdata Htr].
  set (k := bits_into_seg (write b)) in *.
  assert (0 <= 2 ^ k * (datum mod 2 ^ (64 - k)) < 2 ^ 64) as Hv.
  { pose proof (Z.mod_pos_bound datum (2 ^ (64 - k)) (pow2_pos (64 - k) ltac:(lia))).
    pose proof (pow2_pos k ltac:(lia)).
    assert (2 ^ 64 = 2 ^ k * 2 ^ (64 - k)) as Hp.
    { rewrite <- Z.pow_add_r by lia. f_equal. lia. }
    nia. }
  assert (Forall (fun z => 0 <= z < 2 ^ 64)
            (<[Z.to_nat (seg (write b)) :=
                Z.lor x (2 ^ k * (datum mod 2 ^ (64 - k)))]> (data b)))
    as Hd'.
  { apply Forall_insert; [exact Hdata|]. apply lor_small; lia. }
  unfold after_fill. fold k.
  constructor;
    cbn [data capacity_bytes truncated write set_data set_write set_bits
         bitbuf__advance_cursor seg bits_into_seg];
    rewrite ?length_insert; try assumption; try lia.
Qed.

Lemma after_fit_mod (b : bitbuf_buffer_t) (x datum n : Z) :
  after_fit b x (datum mod 2 ^ n) n = after_fit b x datum n.
Proof.
  unfold after_fit. now rewrite Zmod_mod.
Qed.

Lemma write_rec_straddle (fuel : nat) (b : bitbuf_buffer_t) (x y datum n : Z) :
  buffer_wf b ->
  owner (write b) = false \/ assert_traps cfg = false ->
  data b !! Z.to_nat (seg (write b)) = Some x ->
  data b !! Z.to_nat (seg (write b) + 1) = Some y ->
  64 - bits_into_seg (write b) < n <= 64 ->
  0 <= datum ->
  bitbuf__write_bits_rec (S (S fuel)) cfg b datum n =
  Ret (after_fit (after_fill b x datum) y
         (datum / 2 ^ (64 - bits_into_seg (write b)))
         (n - (64 - bits_into_seg (write b)))).
Proof.
  intros Hwf Hfr Hx Hy Hn Hd.
  pose proof (lookup_lt_Some _ _ _ Hx) as Hlt.
  pose proof (lookup_lt_Some _ _ _ Hy) as Hlt'.
  pose proof (after_fill_wf b x datum Hwf Hx) as Hwf1.
  pose proof (wf_seg_bound b Hwf) as HL.
  pose proof Hwf as [Hc Hs Hseg Hbits Hend Hdata Htr].
  remember (S fuel) as fuel1 eqn:Hfuel.
  cbn [bitbuf__write_bits_rec].
  pass_assert. destruct (Z.gtb_spec n 64) as [?|_]; [lia|].
  rewrite unfrozen_assert by assumption. cbn [bind].
  rewrite remaining_capacity_wf by assumption. cbn [bind].
  unfold bit_position. change BITBUF__SEG_BITS with 64.
  set (k := bits_into_seg (write b)) in *.
  set (R := 64 - k) in *.
  destruct (Z.ltb_spec (8 * capacity_bytes b - (64 * seg (write b) + k)) n) as [?|_];
    [lia|].
  destruct (Z.leb_spec n R) as [?|_]; [lia|].
  rewrite (spanmask_spec R) by lia. cbn [bind].
  rewrite land_mask by lia.
  replace (64 - R) with k by lia.
  pose proof (Z.mod_pos_bound datum (2 ^ R) (pow2_pos R ltac:(lia))) as Hm.
  assert (2 ^ 64 = 2 ^ k * 2 ^ R) as Hp.
  { rewrite <- Z.pow_add_r by lia. f_equal. lia. }
  pose proof (pow2_pos k ltac:(lia)) as Hpk.
  pose proof (pow2_pos R ltac:(lia)) as HpR.
  rewrite shl64_small by (lia || nia). cbn [bind].
  rewrite (or_into_seg_ok b _ x) by (assumption || lia). cbn [bind].
  cbn [write set_write set_data].
  pass_assert.
  set (next := n - R) in *.
  rewrite (spanmask_spec next) by lia. cbn [bind].
  pose proof (pow2_pos next ltac:(lia)) as Hpn.
  assert (2 ^ next * 2 ^ R <= 2 ^ 64) as Hpn'.
  { rewrite <- Z.pow_add_r by lia. apply pow2_le. lia. }
  rewrite shl64_small by (lia || nia). cbn [bind].
  rewrite (Z.div_mod datum (2 ^ R)) at 1 by lia.
  rewrite Z.add_comm, land_above by lia.
  rewrite land_mask by lia.
  rewrite shr64_spec by lia. cbn [bind].
  rewrite (Z.mul_comm (2 ^ R)), Z.div_mul by lia.
  fold (after_fill b x datum). subst fuel1.
  rewrite write_rec_fit with (x := y).
  - now rewrite after_fit_mod.
  - exact Hwf1.
  - exact Hfr.
  - unfold after_fill. cbn [data write set_write set_data seg bitbuf__advance_cursor].
    rewrite list_lookup_insert_ne by lia. exact Hy.
  - unfold after_fill. cbn [write set_write bits_into_seg bitbuf__advance_cursor]. lia.
Qed.

End WriteBitsWf.

Section ReadBits.

Variable cfg : assert_cfg.

Lemma bits_remaining_ok (b : bitbuf_buffer_t) (rd : bitbuf_cursor_t) :
  capacity_bytes b = 8 * Z.of_nat (length (data b)) ->
  capacity_bytes b < 2 ^ 60 ->
  0 <= seg rd <= Z.of_nat (length (data b)) ->
  bitbuf__bits_remaining_for_cursor cfg b rd =
  Ret ((Z.of_nat (length (data b)) - seg rd) * 64 + (64 - bits_into_seg rd)).
Proof.
  intros Hc Hs Hseg. unfold bitbuf__bits_remaining_for_cursor.
  rewrite Hc. replace (8 * Z.of_nat (length (data b)) / 8)
    with (Z.of_nat (length (data b))).
  2:{ rewrite Z.mul_comm, Z.div_mul; lia. }
  rewrite s64_small by lia. pass_assert. reflexivity.
Qed.

Lemma valid_read_cursor (b : bitbuf_buffer_t) (rd : bitbuf_cursor_t) :
  capacity_bytes b = 8 * Z.of_nat (length (data b)) ->
  capacity_bytes b < 2 ^ 60 ->
  0 <= seg rd <= Z.of_nat (length (data b)) ->
  0 <= bits_into_seg rd < 64 ->
  owner rd = true ->
  bitbuf__is_valid_read_cursor cfg b rd = Ret true.
Proof.
  intros Hc Hs Hseg Hbits Ho. unfold bitbuf__is_valid_read_cursor.
  rewrite Ho. destruct (Z.geb_spec (seg rd) 0) as [_|?]; [|lia].
  rewrite bits_remaining_ok by assumption. cbn [bind]. f_equal. bool_true.
Qed.

(** Bits [k .. k+n) of a segment value. *)
Lemma extract_field (z k n : Z) :
  0 <= k -> 0 <= n -> 0 <= z ->
  Z.land z (2 ^ k * (2 ^ n - 1)) / 2 ^ k = (z / 2 ^ k) mod 2 ^ n.
Proof.
  intros Hk Hn Hz. pose proof (pow2_pos k Hk).
  rewrite (Z.div_mod z (2 ^ k)) at 1 by lia.
  rewrite Z.add_comm, land_above by (try apply Z.mod_pos_bound; lia).
  rewrite land_mask by lia.
  now rewrite (Z.mul_comm (2 ^ k)), Z.div_mul by lia.
Qed.

Lemma read_fit (b : bitbuf_buffer_t) (rd : bitbuf_cursor_t) (z n : Z) :
  capacity_bytes b = 8 * Z.of_nat (length (data b)) ->
  capacity_bytes b < 2 ^ 60 ->
  owner rd = true ->
  0 <= seg rd ->
  data b !! Z.to_nat (seg rd) = Some z ->
  0 <= z ->
  0 <= bits_into_seg rd < 64 ->
  0 <= n <= 64 - bits_into_seg rd ->
  bitbuf__read_bits cfg b rd n =
  Ret ((z / 2 ^ bits_into_seg rd) mod 2 ^ n,
       if bits_into_seg rd + n =? 64
       then bitbuf__advance_cursor (set_bits rd (bits_into_seg rd + n))
       else set_bits rd (bits_into_seg rd + n)).
Proof.
  intros Hc Hs Ho Hseg Hz Hz0 Hbits Hn.
  pose proof (lookup_lt_Some _ _ _ Hz) as Hlt.
  unfold bitbuf__read_bits.
  rewrite valid_read_cursor by (assumption || lia). cbn [bind].
  rewrite c_assert_true. cbn [bind]. pass_assert.
  destruct (Z.gtb_spec n 64) as [?|_]; [lia|].
  rewrite Ho. cbn [negb].
  rewrite bits_remaining_ok by (assumption || lia). cbn [bind].
  change BITBUF__SEG_BITS with 64.
  set (k := bits_into_seg rd) in *.
  destruct (Z.ltb_spec ((Z.of_nat (length (data b)) - seg rd) * 64 + (64 - k)) n)
    as [?|_]; [lia|].
  destruct (Z.leb_spec n (64 - k)) as [_|?]; [|lia].
  rewrite spanmask_spec by lia. cbn [bind].
  pose proof (pow2_pos k ltac:(lia)) as Hpk.
  pose proof (pow2_pos n ltac:(lia)) as Hpn.
  assert (2 ^ n * 2 ^ k <= 2 ^ 64) as Hp.
  { rewrite <- Z.pow_add_r by lia. apply pow2_le. lia. }
  rewrite shl64_small by (lia || nia). cbn [bind].
  rewrite (load_seg_lookup _ _ z Hseg Hz). cbn [bind].
  rewrite shr64_spec by lia. cbn [bind].
  rewrite extract_field by lia.
  cbn [set_bits bits_into_seg]. fold k.
  now destruct (k + n =? 64).
Qed.

Lemma read_straddle (b : bitbuf_buffer_t) (rd : bitbuf_cursor_t) (z z2 n : Z) :
  capacity_bytes b = 8 * Z.of_nat (length (data b)) ->
  capacity_bytes b < 2 ^ 60 ->
  owner rd = true ->
  0 <= seg rd ->
  data b !! Z.to_nat (seg rd) = Some z ->
  data b !! Z.to_nat (seg rd + 1) = Some z2 ->
  0 <= z < 2 ^ 64 ->
  0 <= z2 ->
  0 <= bits_into_seg rd < 64 ->
  64 - bits_into_seg rd < n <= 64 ->
  bitbuf__read_bits cfg b rd n =
  Ret (z / 2 ^ bits_into_seg rd
       + 2 ^ (64 - bits_into_seg rd) * (z2 mod 2 ^ (n - (64 - bits_into_seg rd))),
       set_bits (bitbuf__advance_cursor rd) (0 + (n - (64 - bits_into_seg rd)))).
Proof.
  intros Hc Hs Ho Hseg Hz Hz2 Hzr Hz20 Hbits Hn.
  pose proof (lookup_lt_Some _ _ _ Hz) as Hlt.
  pose proof (lookup_lt_Some _ _ _ Hz2) as Hlt2.
  unfold bitbuf__read_bits.
  rewrite valid_read_cursor by (assumption || lia). cbn [bind].
  rewrite c_assert_true. cbn [bind]. pass_assert.
  destruct (Z.gtb_spec n 64) as [?|_]; [lia|].
  rewrite Ho. cbn [negb].
  rewrite bits_remaining_ok by (assumption || lia). cbn [bind].
  change BITBUF__SEG_BITS with 64.
  set (k := bits_into_seg rd) in *. set (R := 64 - k) in *.
  destruct (Z.ltb_spec ((Z.of_nat (length (data b)) - seg rd) * 64 + R) n)
    as [?|_]; [lia|].
  destruct (Z.leb_spec n R) as [?|_]; [lia|].
  rewrite (spanmask_spec R) by lia. cbn [bind].
  replace (64 - R) with k by lia.
  pose proof (pow2_pos k ltac:(lia)) as Hpk.
  pose proof (pow2_pos R ltac:(lia)) as HpR.
  assert (2 ^ 64 = 2 ^ k * 2 ^ R) as Hp.
  { rewrite <- Z.pow_add_r by lia. f_equal. lia. }
  rewrite shl64_small by (lia || nia). cbn [bind].
  rewrite (load_seg_lookup _ _ z Hseg Hz). cbn [bind].
  rewrite shr64_spec by lia. cbn [bind].
  rewrite extract_field by lia.
  assert (0 <= z / 2 ^ k < 2 ^ R) as Hq.
  { split; [apply Z.div_pos; lia|]. apply Z.div_lt_upper_bound; lia. }
  rewrite (Z.mod_small (z / 2 ^ k)) by lia.
  set (next := n - R) in *.
  pass_assert.
  rewrite bits_remaining_ok
    by (cbn [seg bitbuf__advance_cursor]; (assumption || lia)).
  cbn [bind seg bits_into_seg bitbuf__advance_cursor].
  pass_assert.
  rewrite (spanmask_spec next) by lia. cbn [bind].
  rewrite (load_seg_lookup _ _ z2) by (lia || assumption). cbn [bind].
  rewrite land_mask by lia.
  pose proof (Z.mod_pos_bound z2 (2 ^ next) (pow2_pos next ltac:(lia))) as Hm.
  assert (2 ^ next * 2 ^ R <= 2 ^ 64) as Hpn.
  { rewrite <- Z.pow_add_r by lia. apply pow2_le. lia. }
  rewrite shl64_small by (lia || nia). cbn [bind].
  rewrite lor_above by lia. reflexivity.
Qed.

End ReadBits.

Section Invariants.

Variable cfg : assert_cfg.

Lemma after_fit_clean (b : bitbuf_buffer_t) (x datum n : Z) :
  buffer_wf b -> clean_tail b ->
  data b !! Z.to_nat (seg (write b)) = Some x ->
  0 <= n <= 64 - bits_into_seg (write b) ->
  clean_tail (after_fit b x datum n).
Proof.
  intros Hwf Hcl Hx Hn.
  pose proof (lookup_lt_Some _ _ _ Hx) as Hlt.
  pose proof Hwf as [Hc Hs Hseg Hbits Hend Hdata Htr].
  pose proof (Forall_lookup_1 _ _ _ _ Hdata Hx) as Hxr. cbn beta in Hxr.
  destruct (Hcl _ _ Hx) as [_ Hxk]. specialize (Hxk ltac:(lia)).
  set (k := bits_into_seg (write b)) in *.
  pose proof (Z.mod_pos_bound datum (2 ^ n) (pow2_pos n ltac:(lia))) as Hm.
  pose proof (pow2_pos k ltac:(lia)) as Hpk.
  assert (Z.lor x (2 ^ k * (datum mod 2 ^ n)) < 2 ^ (k + n)) as Hnew.
  { rewrite lor_above by lia. rewrite Z.pow_add_r by lia. nia. }
  unfold after_fit. fold k. intros i v Hv.
  destruct (Z.eqb_spec (k + n) 64) as [E|E];
    cbn [data write set_data set_write set_bits bitbuf__advance_cursor seg
         bits_into_seg] in *.
  - destruct (Nat.eq_dec i (Z.to_nat (seg (write b)))) as [->|Hne].
    + split; intros; lia.
    + rewrite list_lookup_insert_ne in Hv by lia.
      destruct (Hcl _ _ Hv) as [H0 _]. split.
      * intros Hi. apply H0. lia.
      * intros Hi. rewrite H0 by lia. change (2 ^ 0) with 1. lia.
  - destruct (Nat.eq_dec i (Z.to_nat (seg (write b)))) as [->|Hne].
    + rewrite list_lookup_insert_eq in Hv by lia. injection Hv as <-.
      split; intros; lia.
    + rewrite list_lookup_insert_ne in Hv by lia.
      destruct (Hcl _ _ Hv) as [H0 _]. split; intros Hi; [|lia].
      apply H0. lia.
Qed.

Lemma after_fill_clean (b : bitbuf_buffer_t) (x datum : Z) :
  buffer_wf b -> clean_tail b ->
  data b !! Z.to_nat (seg (write b)) = Some x ->
  clean_tail (after_fill b x datum).
Proof.
  intros Hwf Hcl Hx.
  pose proof (lookup_lt_Some _ _ _ Hx) as Hlt.
  pose proof Hwf as [Hc Hs Hseg Hbits Hend Hdata Htr].
  unfold after_fill. intros i v Hv.
  cbn [data write set_data set_write bitbuf__advance_cursor seg bits_into_seg] in *.
  destruct (Nat.eq_dec i (Z.to_nat (seg (write b)))) as [->|Hne].
  - split; intros; lia.
  - rewrite list_lookup_insert_ne in Hv by lia.
    destruct (Hcl _ _ Hv) as [H0 _]. split.
    + intros Hi. apply H0. lia.
    + intros Hi. rewrite H0 by lia. change (2 ^ 0) with 1. lia.
Qed.

(** A write that has room returns, and keeps the buffer well formed and
    its tail clean. *)
Lemma write_bits_keeps (b : bitbuf_buffer_t) (datum n : Z) :
  buffer_wf b -> clean_tail b ->
  owner (write b) = false \/ assert_traps cfg = false ->
  1 <= n <= 64 ->
  0 <= datum ->
  bit_position (write b) + n <= 8 * capacity_bytes b ->
  exists b',
    bitbuf__write_bits cfg b datum n = Ret b'
    /\ buffer_wf b' /\ clean_tail b'
    /\ bit_position (write b') = bit_position (write b) + n
    /\ owner (write b') = owner (write b)
    /\ truncated b' = truncated b.
Proof.
  intros Hwf Hcl Hfr Hn Hd Hcap.
  pose proof Hwf as [Hc Hs Hseg Hbits Hend Hdata Htr].
  unfold bit_position in *.
  set (k := bits_into_seg (write b)) in *.
  destruct (wf_lookup b (seg (write b)) Hwf ltac:(lia)) as (x & Hx & Hxr).
  destruct (Z.le_gt_cases n (64 - k)) as [Hfit|Hst].
  - exists (after_fit b x datum n). unfold bitbuf__write_bits.
    rewrite (write_rec_fit cfg 1 b x datum n) by (assumption || lia).
    split; [reflexivity|].
    split; [apply after_fit_wf; assumption || lia|].
    split; [apply after_fit_clean; assumption || lia|].
    unfold after_fit. fold k.
    destruct (Z.eqb_spec (k + n) 64) as [E|E];
      cbn [write set_write set_data set_bits bitbuf__advance_cursor seg
           bits_into_seg owner truncated]; repeat split; lia.
  - destruct (wf_lookup b (seg (write b) + 1) Hwf ltac:(lia)) as (y & Hy & Hyr).
    exists (after_fit (after_fill b x datum) y (datum / 2 ^ (64 - k)) (n - (64 - k))).
    unfold bitbuf__write_bits.
    rewrite (write_rec_straddle cfg 0 b x y datum n) by (assumption || lia).
    pose proof (after_fill_wf b x datum Hwf Hx) as Hwf1.
    pose proof (after_fill_clean b x datum Hwf Hcl Hx) as Hcl1.
    assert (data (after_fill b x datum)
              !! Z.to_nat (seg (write (after_fill b x datum))) = Some y) as Hy1.
    { unfold after_fill. cbn [data write set_write set_data seg bitbuf__advance_cursor].
      rewrite list_lookup_insert_ne by lia. exact Hy. }
    assert (bits_into_seg (write (after_fill b x datum)) = 0) as Hk1 by reflexivity.
    split; [reflexivity|].
    split; [apply after_fit_wf; try assumption; rewrite Hk1; lia|].
    split; [apply after_fit_clean; try assumption; rewrite Hk1; lia|].
    unfold after_fit. rewrite Hk1.
    destruct (Z.eqb_spec (0 + (n - (64 - k))) 64) as [E|E]; [lia|].
    unfold after_fill.
    cbn [write set_write set_data set_bits bitbuf__advance_cursor seg
         bits_into_seg owner truncated]. fold k. repeat split; lia.
Qed.

End Invariants.

Section RoundTrip.

Lemma land_clear_low (x : Z) : Z.land x (Z.lnot (8 - 1)) = 8 * (x / 8).
Proof.
  change (Z.lnot (8 - 1)) with (0 + 2 ^ 3 * -1).
  rewrite (Z.div_mod x (2 ^ 3)) at 1 by lia.
  rewrite Z.add_comm, land_split by (try apply Z.mod_pos_bound; lia).
  rewrite Z.land_0_r, Z.land_m1_r. change (2 ^ 3) with 8. lia.
Qed.

(** A buffer from [bitbuf_alloc_buffer] is well formed, empty and open for
    writing. *)
Lemma alloc_buffer_wf (cfg : assert_cfg) (max_bytes : Z) :
  0 < max_bytes < 2 ^ 59 ->
  exists b,
    bitbuf_alloc_buffer cfg max_bytes = Ret b
    /\ buffer_wf b /\ clean_tail b
    /\ owner (write b) = false
    /\ bit_position (write b) = 0
    /\ capacity_bytes b = 8 * ((max_bytes + 7) / 8).
Proof.
  intros Hm. unfold bitbuf_alloc_buffer. pass_assert.
  unfold BITBUF__ALIGN_UP, BITBUF__ALIGN_DOWN. rewrite land_clear_low.
  replace (max_bytes + 8 - 1) with (max_bytes + 7) by lia.
  assert (0 <= (max_bytes + 7) / 8 < 2 ^ 57) as Hq.
  { split; [apply Z.div_pos; lia|]. apply Z.div_lt_upper_bound; lia. }
  rewrite u64_small by lia.
  rewrite (Z.mul_comm 8), Z.div_mul by lia.
  eexists. split; [reflexivity|].
  split; [|split; [|split; [reflexivity|split; [reflexivity|cbn; lia]]]].
  - constructor; cbn [data capacity_bytes truncated write seg bits_into_seg];
      rewrite ?length_replicate; try lia;
      try (apply Forall_replicate; lia).
  - intros i x Hx. cbn [data write seg bits_into_seg] in *.
    apply lookup_replicate in Hx. destruct Hx as [-> _].
    change (2 ^ 0) with 1. split; intros; lia.
Qed.

(** Writing a field into clean space and reading it back. *)
Lemma write_then_read (cfg : assert_cfg) (b : bitbuf_buffer_t) (n v : Z) :
  buffer_wf b ->
  clean_tail b ->
  owner (write b) = false ->
  1 <= n <= 64 ->
  0 <= v <= 2 ^ n - 1 ->
  bit_position (write b) + n <= 8 * capacity_bytes b ->
  roundtrips cfg b n v.
Proof.
  intros Hwf Hcl Ho Hn Hv Hcap. unfold roundtrips.
  pose proof Hwf as [Hc Hs Hseg Hbits Hend Hdata Htr].
  unfold bit_position in *.
  set (k := bits_into_seg (write b)) in *.
  set (s := seg (write b)) in *.
  destruct (wf_lookup b s Hwf ltac:(lia)) as (x & Hx & Hxr).
  pose proof (lookup_lt_Some _ _ _ Hx) as Hlt.
  destruct (Hcl _ _ Hx) as [_ Hxk]. specialize (Hxk ltac:(lia)). fold k in Hxk.
  pose proof (pow2_pos k ltac:(lia)) as Hpk.
  pose proof (pow2_pos n ltac:(lia)) as Hpn.
  destruct (Z.le_gt_cases n (64 - k)) as [Hfit|Hst].
  - exists (after_fit b x v n). eexists. unfold bitbuf__write_bits.
    rewrite (write_rec_fit cfg 1 b x v n) by (auto; lia).
    split; [reflexivity|].
    assert (data (after_fit b x v n) !! Z.to_nat s = Some (x + 2 ^ k * v)) as Hz.
    { unfold after_fit. fold k s. rewrite (Z.mod_small v) by lia.
      rewrite lor_above by lia.
      destruct (k + n =? 64); cbn [data set_write set_data];
        now rewrite list_lookup_insert_eq by lia. }
    assert (length (data (after_fit b x v n)) = length (data b)) as Hlen.
    { unfold after_fit. destruct (_ =? 64); cbn [data set_write set_data];
        apply length_insert. }
    assert (capacity_bytes (after_fit b x v n) = capacity_bytes b) as Hcap'.
    { unfold after_fit. now destruct (_ =? 64). }
    rewrite (read_fit cfg _ _ (x + 2 ^ k * v) n);
      cbn [fst bitbuf_cursor_init set_write data capacity_bytes cursor_at seg
           bits_into_seg owner]; fold k s;
      rewrite ?Hlen, ?Hcap'; try assumption; try lia.
    rewrite split_high, (Z.mod_small v) by lia.
    split; [reflexivity|].
    unfold after_fit. fold k s.
    destruct (k + n =? 64);
      cbn [write set_write set_data set_bits bitbuf__advance_cursor seg
           bits_into_seg]; reflexivity.
  - set (R := 64 - k) in *. set (next := n - R) in *.
    destruct (wf_lookup b (s + 1) Hwf ltac:(lia)) as (y & Hy & Hyr).
    destruct (Hcl _ _ Hy) as [Hy0 _]. specialize (Hy0 ltac:(lia)). subst y.
    pose proof (pow2_pos R ltac:(lia)) as HpR.
    pose proof (pow2_pos next ltac:(lia)) as Hpx.
    assert (2 ^ n = 2 ^ R * 2 ^ next) as Hpn2.
    { rewrite <- Z.pow_add_r by lia. f_equal. lia. }
    assert (2 ^ 64 = 2 ^ k * 2 ^ R) as Hp64.
    { rewrite <- Z.pow_add_r by lia. f_equal. lia. }
    assert (0 <= v / 2 ^ R < 2 ^ next) as Hhi.
    { split; [apply Z.div_pos; lia|]. apply Z.div_lt_upper_bound; lia. }
    pose proof (Z.mod_pos_bound v (2 ^ R) HpR) as Hlo.
    set (b2 := after_fit (after_fill b x v) 0 (v / 2 ^ R) next).
    exists b2. eexists. unfold bitbuf__write_bits.
    rewrite (write_rec_straddle cfg 0 b x 0 v n) by (auto; lia).
    fold k R next b2. split; [reflexivity|].
    assert (data b2 = <[Z.to_nat (s + 1) := v / 2 ^ R]>
                        (<[Z.to_nat s := x + 2 ^ k * (v mod 2 ^ R)]> (data b))) as Hd2.
    { unfold b2, after_fit, after_fill. fold k s R.
      cbn [write set_write set_data bits_into_seg bitbuf__advance_cursor seg data].
      destruct (0 + next =? 64); cbn [data set_write set_data];
        rewrite Z.lor_0_l, (Z.mod_small (v / 2 ^ R)) by lia;
        rewrite lor_above by lia; change (2 ^ 0) with 1;
        now rewrite Z.mul_1_l. }
    assert (capacity_bytes b2 = capacity_bytes b) as Hcap2.
    { unfold b2, after_fit. now destruct (_ =? 64). }
    rewrite (read_straddle cfg _ _ (x + 2 ^ k * (v mod 2 ^ R)) (v / 2 ^ R) n);
      cbn [fst bitbuf_cursor_init set_write data capacity_bytes cursor_at seg
           bits_into_seg owner]; fold k s R next;
      rewrite ?Hd2, ?Hcap2, ?length_insert; try assumption; try lia; try nia.
    + rewrite split_high, (Z.mod_small (v / 2 ^ R)) by lia.
      replace (v mod 2 ^ R + 2 ^ R * (v / 2 ^ R)) with v
        by (rewrite (Z.div_mod v (2 ^ R)) at 1 by lia; lia).
      split; [reflexivity|].
      unfold b2, after_fit, after_fill. fold k s R.
      cbn [write set_write set_data bits_into_seg bitbuf__advance_cursor seg data].
      destruct (Z.eqb_spec (0 + next) 64) as [E|E]; [lia|].
      cbn [write set_write set_data set_bits bitbuf__advance_cursor seg
           bits_into_seg cursor_at]. reflexivity.
    + rewrite list_lookup_insert_ne by lia.
      now rewrite list_lookup_insert_eq by lia.
    + now rewrite list_lookup_insert_eq by (rewrite length_insert; lia).
Qed.

(** C1 (amended). On a well-formed buffer that is open for writing and has
    no bit set at or after its write position -- which is how
    [bitbuf_alloc_buffer] makes a buffer and how every write leaves it --
    writing a value v < 2^N as N bits, 1 <= N <= 64, with at least N bits
    of capacity left, and then reading N bits through a cursor that stands
    where the write began, returns v; the read cursor ends where the write
    cursor ended. This includes fields that straddle two segments. *)
Theorem write_read_roundtrip (cfg : assert_cfg) (b : bitbuf_buffer_t) (n v : Z) :
  buffer_wf b ->
  clean_tail b ->
  owner (write b) = false ->
  1 <= n <= 64 ->
  0 <= v <= 2 ^ n - 1 ->
  bit_position (write b) + n <= 8 * capacity_bytes b ->
  roundtrips cfg b n v.
Proof. apply write_then_read. Qed.

Lemma example_buffer_written :
  (do b <- bitbuf_alloc_buffer libc_assert 16 ;
   bitbuf_write_n_bits libc_assert b 63 0x7FFFFFFFFFFFFFFF) = Ret example_buffer.
Proof. vm_compute. reflexivity. Qed.

Lemma example_buffer_wf : buffer_wf example_buffer.
Proof.
  constructor; cbn; try lia; try (now left); repeat constructor; lia.
Qed.

Lemma example_buffer_clean : clean_tail example_buffer.
Proof.
  intros i x Hx. destruct i as [|[|i]]; cbn in Hx; try discriminate;
    injection Hx as <-; cbn; split; intros; lia.
Qed.

Lemma write_read_roundtrip_witness :
  buffer_wf example_buffer /\ clean_tail example_buffer
  /\ owner (write example_buffer) = false
  /\ 1 <= 32 <= 64
  /\ 0 <= 4294467296 <= 2 ^ 32 - 1
  /\ bit_position (write example_buffer) + 32 <= 8 * capacity_bytes example_buffer
  /\ roundtrips libc_assert example_buffer 32 4294467296.
Proof.
  split; [exact example_buffer_wf|]. split; [exact example_buffer_clean|].
  split; [reflexivity|]. split; [lia|]. split; [lia|].
  split; [vm_compute; discriminate|].
  apply (write_read_roundtrip libc_assert example_buffer 32 4294467296);
    [exact example_buffer_wf | exact example_buffer_clean | reflexivity
    | lia | lia | vm_compute; discriminate].
Defined.

(** C1 as stated fails on a buffer that wraps caller bytes: the write ORs
    into whatever the bytes hold. Wrapping eight 0xFF bytes gives a
    writable buffer with 64 bits of capacity; writing the 1-bit value 0
    and reading it back yields 1. *)
Lemma write_read_roundtrip_counterexample :
  exists w,
    bitbuf_init_buffer_with_bytes libc_assert ones_bytes 8 = Ret w
    /\ bitbuf__remaining_capacity_in_bits libc_assert w = Ret 64
    /\ 1 <= 1 <= 64 /\ 0 <= 0 <= 2 ^ 1 - 1
    /\ ~ roundtrips libc_assert w 1 0
    /\ bitbuf__read_bits libc_assert
         (fst (bitbuf_cursor_init
            {| data := [0xFFFFFFFFFFFFFFFF]; capacity_bytes := 8; truncated := 0;
               write := {| seg := 0; bits_into_seg := 1; owner := false;
                           read_past_end := 0 |} |}))
         (cursor_at (write w)) 1
       = Ret (1, {| seg := 0; bits_into_seg := 1; owner := true;
                    read_past_end := 0 |}).
Proof.
  eexists. split; [vm_compute; reflexivity|].
  split; [vm_compute; reflexivity|]. split; [lia|]. split; [lia|].
  split; [|vm_compute; reflexivity].
  intros (b' & rd' & Hw & Hr & _).
  vm_compute in Hw. injection Hw as <-.
  vm_compute in Hr. discriminate Hr.
Qed.

End RoundTrip.

(** * What every call keeps *)

Ltac inv_step H :=
  lazymatch type of H with
  | bind ?m _ = Ret _ =>
      let E := fresh "E" in
      destruct m eqn:E; cbn [bind] in H; [|discriminate H ..]
  | (if ?c then _ else _) = Ret _ =>
      let E := fresh "E" in destruct c eqn:E
  end.

Ltac splits := repeat match goal with |- _ /\ _ => split end.

Section Keeps.

Variable cfg : assert_cfg.

Lemma spanmask_inv (n m : Z) : spanmask n = Ret m -> 0 <= n <= 64 /\ m = 2 ^ n - 1.
Proof.
  intros H. assert (0 <= n <= 64) as Hn.
  { unfold spanmask in H. destruct (Z.ltb_spec n 0) as [?|Hn]; [discriminate|].
    destruct (bitbuf__spanmasktable !! Z.to_nat n) eqn:E; [|discriminate].
    apply lookup_lt_Some in E. rewrite spanmask_table in E.
    rewrite length_fmap, length_seqZ in E. lia. }
  split; [exact Hn|]. rewrite spanmask_spec in H by exact Hn. congruence.
Qed.

Ltac bools :=
  repeat match goal with
  | H : (_ <=? _) = true |- _ => apply Z.leb_le in H
  | H : (_ <=? _) = false |- _ => apply Z.leb_gt in H
  | H : (_ <? _) = true |- _ => apply Z.ltb_lt in H
  | H : (_ <? _) = false |- _ => apply Z.ltb_ge in H
  | H : (_ >? _) = _ |- _ => rewrite Z.gtb_ltb in H
  | H : (_ >=? _) = _ |- _ => rewrite Z.geb_leb in H
  | H : (_ =? _) = true |- _ => apply Z.eqb_eq in H
  | H : (_ =? _) = false |- _ => apply Z.eqb_neq in H
  | H : spanmask _ = Ret _ |- _ => apply spanmask_inv in H; destruct H as [? ?]
  end.

Lemma or_into_seg_inv (b b1 : bitbuf_buffer_t) (v : Z) :
  or_into_seg b v = Ret b1 ->
  write b1 = write b /\ capacity_bytes b1 = capacity_bytes b
  /\ truncated b1 = truncated b /\ length (data b1) = length (data b).
Proof.
  unfold or_into_seg. intros H. inv_step H. inv_step H.
  injection H as <-. unfold store_seg in E0.
  destruct (_ && _); [|discriminate]. injection E0 as <-.
  cbn [set_data write capacity_bytes truncated data].
  now rewrite length_insert.
Qed.

(** The fields a write leaves alone, and how it moves the cursor. *)
Lemma write_rec_inv (fuel : nat) : forall (b b' : bitbuf_buffer_t) (datum n : Z),
  bitbuf__write_bits_rec fuel cfg b datum n = Ret b' ->
  capacity_bytes b' = capacity_bytes b
  /\ owner (write b') = owner (write b)
  /\ length (data b') = length (data b)
  /\ (truncated b' = truncated b \/ truncated b' = Z.lor (truncated b) 1)
  /\ (cursor_ok (write b) -> cursor_ok (write b')).
Proof.
  induction fuel as [|fuel IH]; intros b b' datum n H; [discriminate H|].
  cbn [bitbuf__write_bits_rec] in H.
  inv_step H. inv_step H.
  { injection H as <-. splits; auto. }
  inv_step H. inv_step H. inv_step H.
  { inv_step H. injection H as <-.
    cbn [set_truncated capacity_bytes write data truncated]. splits; auto. }
  change BITBUF__SEG_BITS with 64 in *.
  inv_step H.
  - (* the datum fits *)
    inv_step H. inv_step H. inv_step H.
    destruct (or_into_seg_inv _ _ _ E7) as (Hw & Hc & Ht & Hl).
    destruct (spanmask_inv _ _ E5) as [Hn _].
    apply Z.leb_le in E4.
    cbn [write set_write set_bits bits_into_seg] in H.
    rewrite Hw in H.
    inv_step H.
    + inv_step H. inv_step H. injection H as <-.
      cbn [set_write capacity_bytes write data truncated bitbuf__advance_cursor
           owner set_bits bits_into_seg].
      rewrite ?Hw. splits; auto. intros _. unfold cursor_ok. cbn. lia.
    + injection H as <-. apply Z.eqb_neq in E8.
      cbn [set_write capacity_bytes write data truncated owner set_bits
           bits_into_seg].
      rewrite ?Hw. splits; auto.
      unfold cursor_ok. cbn [bits_into_seg set_bits]. lia.
  - (* the datum straddles *)
    inv_step H. inv_step H. inv_step H.
    destruct (or_into_seg_inv _ _ _ E7) as (Hw & Hc & Ht & Hl).
    inv_step H. inv_step H. inv_step H. inv_step H.
    apply IH in H. destruct H as (Hc' & Ho' & Hl' & Ht' & Hok').
    cbn [set_write capacity_bytes write data truncated bitbuf__advance_cursor
         owner] in *.
    rewrite Hw in *.
    split; [congruence|]. split; [congruence|]. split; [congruence|]. split.
    + destruct Ht' as [Ht'|Ht']; [left|right]; congruence.
    + intros _. apply Hok'. unfold cursor_ok, bitbuf__advance_cursor. cbn. lia.
Qed.

Lemma keeps_refl (b : bitbuf_buffer_t) : keeps b b.
Proof. split; auto. Qed.

Lemma keeps_trans (b1 b2 b3 : bitbuf_buffer_t) : keeps b1 b2 -> keeps b2 b3 -> keeps b1 b3.
Proof.
  intros [Ht1 Hc1] [Ht2 Hc2]. split; [|auto].
  destruct Ht1 as [Ht1|Ht1], Ht2 as [Ht2|Ht2]; rewrite Ht2, Ht1; auto.
  right. rewrite <- Z.lor_assoc. reflexivity.
Qed.

Lemma write_bits_keeps_inv (b b' : bitbuf_buffer_t) (datum n : Z) :
  bitbuf__write_bits cfg b datum n = Ret b' -> keeps b b'.
Proof.
  intros H. apply write_rec_inv in H. unfold keeps. tauto.
Qed.

Lemma write_n_bits_keeps (b b' : bitbuf_buffer_t) (n value : Z) :
  bitbuf_write_n_bits cfg b n value = Ret b' -> keeps b b'.
Proof.
  unfold bitbuf_write_n_bits. intros H. inv_step H. inv_step H.
  - injection H as <-. apply keeps_refl.
  - inv_step H. inv_step H. now apply write_bits_keeps_inv in H.
Qed.

Lemma write_cstr_keeps (str : list byte) : forall b b' : bitbuf_buffer_t,
  bitbuf_write_cstr cfg b str = Ret b' -> keeps b b'.
Proof.
  induction str as [|c p IH]; intros b b' H; cbn [bitbuf_write_cstr] in H.
  - now apply write_bits_keeps_inv in H.
  - inv_step H.
    + now apply write_bits_keeps_inv in H.
    + inv_step H. apply write_bits_keeps_inv in E0. apply IH in H.
      now apply keeps_trans with a.
Qed.

Lemma write_quantized_float_keeps (b b' : bitbuf_buffer_t) (n : Z)
    (min max value : spec_float) :
  bitbuf_write_quantized_float cfg b n min max value = Ret b' -> keeps b b'.
Proof.
  unfold bitbuf_write_quantized_float. intros H.
  inv_step H. inv_step H. inv_step H. inv_step H. inv_step H.
  now apply write_bits_keeps_inv in H.
Qed.

Lemma pad_to_byte_keeps (b b' : bitbuf_buffer_t) :
  bitbuf_pad_to_byte cfg b = Ret b' -> keeps b b'.
Proof.
  unfold bitbuf_pad_to_byte. intros H. inv_step H.
  - now apply write_bits_keeps_inv in H.
  - injection H as <-. apply keeps_refl.
Qed.

Lemma cursor_init_keeps (b : bitbuf_buffer_t) :
  keeps b (fst (bitbuf_cursor_init b)) /\ cursor_ok (snd (bitbuf_cursor_init b)).
Proof.
  split; [split; [now left|auto] | unfold cursor_ok; cbn; lia].
Qed.

Lemma read_bits_ok (b : bitbuf_buffer_t) (rd rd' : bitbuf_cursor_t) (n v : Z) :
  bitbuf__read_bits cfg b rd n = Ret (v, rd') -> cursor_ok rd -> cursor_ok rd'.
Proof.
  unfold bitbuf__read_bits, cursor_ok. intros H Hok.
  inv_step H. inv_step H. inv_step H. inv_step H.
  { now injection H as _ <-. }
  inv_step H; [discriminate H|]. inv_step H. inv_step H.
  { inv_step H. now injection H as _ <-. }
  change BITBUF__SEG_BITS with 64 in *.
  inv_step H.
  - inv_step H. inv_step H. inv_step H. inv_step H.
    cbn [set_bits bits_into_seg] in H.
    inv_step H; injection H as _ <-; bools; cbn; lia.
  - inv_step H. inv_step H. inv_step H. inv_step H. inv_step H. inv_step H.
    inv_step H. inv_step H. inv_step H. inv_step H.
    injection H as _ <-. bools. cbn. lia.
Qed.

Lemma read_n_bits_ok (b : bitbuf_buffer_t) (rd : bitbuf_cursor_t) (n : Z)
    (out_mask : bool) (r : Z * option Z * bitbuf_cursor_t) :
  bitbuf_read_n_bits cfg b rd n out_mask = Ret r -> cursor_ok rd -> cursor_ok (snd r).
Proof.
  unfold bitbuf_read_n_bits. intros H Hok. inv_step H. inv_step H.
  - now injection H as <-.
  - inv_step H. destruct a0 as [v rd']. apply read_bits_ok in E1; [|exact Hok].
    inv_step H.
    + inv_step H. now injection H as <-.
    + now injection H as <-.
Qed.

Lemma read_cstr_loop_ok (n : nat) : forall (b : bitbuf_buffer_t)
    (rd : bitbuf_cursor_t) (out : list Z) (r : list Z * bitbuf_cursor_t),
  bitbuf_read_cstr_loop cfg b rd n out = Ret r -> cursor_ok rd -> cursor_ok (snd r).
Proof.
  induction n as [|n IH]; intros b rd out r H Hok; cbn [bitbuf_read_cstr_loop] in H.
  - now injection H as <-.
  - inv_step H. destruct a as [v rd']. apply read_bits_ok in E; [|exact Hok].
    cbn [fst snd] in H. inv_step H.
    + now injection H as <-.
    + now apply IH in H.
Qed.

Lemma read_quantized_float_ok (b : bitbuf_buffer_t) (rd : bitbuf_cursor_t) (n : Z)
    (min max : spec_float) (r : spec_float * bitbuf_cursor_t) :
  bitbuf_read_quantized_float cfg b rd n min max = Ret r ->
  cursor_ok rd -> cursor_ok (snd r).
Proof.
  unfold bitbuf_read_quantized_float. intros H Hok.
  inv_step H. inv_step H. inv_step H. inv_step H.
  apply read_n_bits_ok in E2; [|exact Hok].
  inv_step H. inv_step H. now injection H as <-.
Qed.

Lemma align_up_8 (k : Z) : BITBUF__ALIGN_UP k 8 = 8 * ((k + 7) / 8).
Proof.
  unfold BITBUF__ALIGN_UP, BITBUF__ALIGN_DOWN. rewrite land_clear_low.
  do 2 f_equal. lia.
Qed.

Lemma skip_byte_padding_ok (b : bitbuf_buffer_t) (rd rd' : bitbuf_cursor_t) :
  bitbuf_skip_byte_padding cfg b rd = Ret rd' -> cursor_ok rd -> cursor_ok rd'.
Proof.
  unfold bitbuf_skip_byte_padding, cursor_ok. intros H Hok.
  inv_step H. inv_step H. inv_step H.
  cbn [set_bits bits_into_seg] in H. rewrite align_up_8 in H.
  change BITBUF__SEG_BITS with 64 in *.
  assert (0 <= 8 * ((bits_into_seg rd + 7) / 8) <= 64) as Hr.
  { pose proof (Z.div_pos (bits_into_seg rd + 7) 8 ltac:(lia) ltac:(lia)).
    pose proof (Z.div_lt_upper_bound (bits_into_seg rd + 7) 8 9 ltac:(lia) ltac:(lia)).
    lia. }
  destruct (Z.eqb_spec (8 * ((bits_into_seg rd + 7) / 8)) 64) as [E2|E2].
  - inv_step H; [discriminate H|]. inv_step H. inv_step H.
    injection H as <-. cbn. lia.
  - inv_step H; [discriminate H|]. inv_step H. inv_step H.
    injection H as <-. cbn. lia.
Qed.

End Keeps.

Section Sessions.

Variable cfg : assert_cfg.

Lemma on_cursor_ok (s s' : session) (c : nat)
    (f : bitbuf_cursor_t -> outcome bitbuf_cursor_t) :
  (forall rd rd', f rd = Ret rd' -> cursor_ok rd -> cursor_ok rd') ->
  on_cursor s c f = Ret s' ->
  buf s' = buf s /\ (Forall cursor_ok (cursors s) -> Forall cursor_ok (cursors s')).
Proof.
  intros Hf H. unfold on_cursor in H.
  destruct (cursors s !! c) as [rd|] eqn:Hc; [|discriminate H].
  inv_step H. injection H as <-. cbn [buf cursors]. split; [reflexivity|].
  intros Hall. apply Forall_insert; [exact Hall|].
  apply (Hf rd a E). apply (Forall_lookup_1 _ _ _ _ Hall Hc).
Qed.

Lemma on_buffer_keeps (s s' : session) (m : outcome bitbuf_buffer_t) :
  (forall b', m = Ret b' -> keeps (buf s) b') ->
  on_buffer s m = Ret s' ->
  keeps (buf s) (buf s') /\ cursors s' = cursors s.
Proof.
  intros Hm H. unfold on_buffer in H. inv_step H. injection H as <-.
  cbn [buf cursors]. split; [now apply Hm | reflexivity].
Qed.

(** One call: the truncation flag can only be set, and cursors that were
    in range stay in range. *)
Lemma call_keeps (op : bitbuf_call) (s s' : session) :
  call cfg op s = Ret s' ->
  keeps (buf s) (buf s')
  /\ (Forall cursor_ok (cursors s) -> Forall cursor_ok (cursors s')).
Proof.
  destruct op as [datum n|n value|str|n mn mx v| | |c n|c n m|c n|c n mn mx|c];
    cbn [call]; intros H.
  - apply on_buffer_keeps in H; [destruct H as [Hk ->]; now split|].
    intros b'. apply write_bits_keeps_inv.
  - apply on_buffer_keeps in H; [destruct H as [Hk ->]; now split|].
    intros b'. apply write_n_bits_keeps.
  - apply on_buffer_keeps in H; [destruct H as [Hk ->]; now split|].
    intros b'. apply write_cstr_keeps.
  - apply on_buffer_keeps in H; [destruct H as [Hk ->]; now split|].
    intros b'. apply write_quantized_float_keeps.
  - apply on_buffer_keeps in H; [destruct H as [Hk ->]; now split|].
    intros b'. apply pad_to_byte_keeps.
  - injection H as <-. cbn [buf cursors].
    destruct (cursor_init_keeps (buf s)) as [Hk Hc]. split; [exact Hk|].
    intros Hall. apply Forall_app. split; [exact Hall|]. now constructor.
  - apply on_cursor_ok in H; [destruct H as [-> Hc]; split; [apply keeps_refl|exact Hc]|].
    intros rd rd' Hr Hok. inv_step Hr. injection Hr as <-. destruct a as [v r].
    now apply read_bits_ok in E.
  - apply on_cursor_ok in H; [destruct H as [-> Hc]; split; [apply keeps_refl|exact Hc]|].
    intros rd rd' Hr Hok. inv_step Hr. injection Hr as <-.
    now apply read_n_bits_ok in E.
  - apply on_cursor_ok in H; [destruct H as [-> Hc]; split; [apply keeps_refl|exact Hc]|].
    intros rd rd' Hr Hok. inv_step Hr. injection Hr as <-.
    now apply read_cstr_loop_ok in E.
  - apply on_cursor_ok in H; [destruct H as [-> Hc]; split; [apply keeps_refl|exact Hc]|].
    intros rd rd' Hr Hok. inv_step Hr. injection Hr as <-.
    now apply read_quantized_float_ok in E.
  - apply on_cursor_ok in H; [destruct H as [-> Hc]; split; [apply keeps_refl|exact Hc]|].
    intros rd rd'. apply skip_byte_padding_ok.
Qed.

Lemma run_keeps (ops : list bitbuf_call) : forall s s' : session,
  run cfg ops s = Ret s' ->
  keeps (buf s) (buf s')
  /\ (Forall cursor_ok (cursors s) -> Forall cursor_ok (cursors s')).
Proof.
  induction ops as [|op rest IH]; intros s s' H; cbn [run] in H.
  - injection H as <-. split; [apply keeps_refl | auto].
  - inv_step H. apply call_keeps in E. apply IH in H.
    destruct E as [Hk1 Hc1], H as [Hk2 Hc2].
    split; [now apply keeps_trans with (buf a) | auto].
Qed.

Lemma run_app (ops1 ops2 : list bitbuf_call) : forall s : session,
  run cfg (ops1 ++ ops2) s = (do s1 <- run cfg ops1 s ; run cfg ops2 s1).
Proof.
  induction ops1 as [|op rest IH]; intros s; cbn [app run bind]; [reflexivity|].
  destruct (call cfg op s); cbn [bind]; [apply IH | reflexivity ..].
Qed.

Lemma run_session_ok (ops : list bitbuf_call) (s s' : session) :
  session_ok s -> run cfg ops s = Ret s' -> session_ok s'.
Proof.
  intros [Hw Hc] H. apply run_keeps in H. destruct H as [[_ Hk] Hc'].
  split; auto.
Qed.

Lemma run_truncated (ops : list bitbuf_call) (s s' : session) :
  truncated (buf s) = 1 -> run cfg ops s = Ret s' -> truncated (buf s') = 1.
Proof.
  intros Ht H. apply run_keeps in H. destruct H as [[[Hk|Hk] _] _];
    rewrite Hk, Ht; reflexivity.
Qed.

End Sessions.

(** * Writing after a read cursor was made *)

Section Freeze.

Variable cfg : assert_cfg.

Lemma or_into_seg_frozen (b : bitbuf_buffer_t) (v : Z) :
  or_into_seg (frozen b) v = outcome_map frozen (or_into_seg b v).
Proof.
  unfold or_into_seg, outcome_map, frozen.
  cbn [fst bitbuf_cursor_init data write set_write set_owner seg].
  destruct (load_seg (data b) (seg (write b))); cbn [bind]; try reflexivity.
  destruct (store_seg (data b) (seg (write b)) (Z.lor a v)); reflexivity.
Qed.

(** Without a trapping assertion nothing in [bitbuf__write_bits] looks at
    the mark [bitbuf_cursor_init] leaves. *)
Lemma write_rec_frozen (fuel : nat) :
  assert_traps cfg = false ->
  forall (b : bitbuf_buffer_t) (datum n : Z),
    bitbuf__write_bits_rec fuel cfg (frozen b) datum n =
    outcome_map frozen (bitbuf__write_bits_rec fuel cfg b datum n).
Proof.
  intros Hc. induction fuel as [|fuel IH]; intros b datum n; [reflexivity|].
  cbn [bitbuf__write_bits_rec].
  rewrite !(c_assert_no_trap cfg _ Hc). cbn [bind].
  destruct (n >? 64); [reflexivity|].
  change (bitbuf__remaining_capacity_in_bits cfg (frozen b))
    with (bitbuf__remaining_capacity_in_bits cfg b).
  destruct (bitbuf__remaining_capacity_in_bits cfg b) as [r| | |];
    cbn [bind]; try reflexivity.
  destruct (r <? n).
  { destruct (c_assert_fail cfg); reflexivity. }
  change (bits_into_seg (write (frozen b))) with (bits_into_seg (write b)).
  destruct (n <=? BITBUF__SEG_BITS - bits_into_seg (write b)).
  - destruct (spanmask n) as [m| | |]; cbn [bind]; try reflexivity.
    destruct (shl64 (Z.land datum m) (bits_into_seg (write b))) as [v| | |];
      cbn [bind]; try reflexivity.
    rewrite or_into_seg_frozen. unfold outcome_map at 1.
    destruct (or_into_seg b v) as [a| | |]; cbn [bind]; try reflexivity.
    change (write (frozen a)) with (set_owner (write a) true).
    cbn [set_owner set_bits write set_write bits_into_seg].
    destruct (bits_into_seg (write a) + n =? BITBUF__SEG_BITS); [|reflexivity].
    match goal with
    | |- bind (bitbuf__remaining_capacity_in_bits cfg ?x) _ =
         outcome_map _ (bind (bitbuf__remaining_capacity_in_bits cfg ?y) _) =>
        change (bitbuf__remaining_capacity_in_bits cfg x)
          with (bitbuf__remaining_capacity_in_bits cfg y);
        destruct (bitbuf__remaining_capacity_in_bits cfg y); cbn [bind];
        rewrite ?(c_assert_no_trap cfg _ Hc); reflexivity
    end.
  - destruct (spanmask (BITBUF__SEG_BITS - bits_into_seg (write b))) as [m| | |];
      cbn [bind]; try reflexivity.
    destruct (shl64 (Z.land datum m)
                (BITBUF__SEG_BITS - (BITBUF__SEG_BITS - bits_into_seg (write b))))
      as [v| | |]; cbn [bind]; try reflexivity.
    rewrite or_into_seg_frozen. unfold outcome_map at 1.
    destruct (or_into_seg b v) as [a| | |]; cbn [bind]; try reflexivity.
    rewrite ?(c_assert_no_trap cfg _ Hc). cbn [bind].
    destruct (spanmask (n - (BITBUF__SEG_BITS - bits_into_seg (write b))))
      as [m2| | |]; cbn [bind]; try reflexivity.
    destruct (shl64 m2 (BITBUF__SEG_BITS - bits_into_seg (write b)))
      as [om| | |]; cbn [bind]; try reflexivity.
    destruct (shr64 (Z.land datum om) (BITBUF__SEG_BITS - bits_into_seg (write b)))
      as [rest| | |]; cbn [bind]; try reflexivity.
    apply (IH (set_write a (bitbuf__advance_cursor (write a)))).
Qed.

(** C4 (amended). Once [bitbuf_cursor_init] has been called, a write runs
    into the assertion that no read has begun: where a failed assertion
    stops the program, that happens before the buffer is touched; where it
    does not (assertions compiled out, or a hook that returns, as in the
    library's own test of this case), nothing else guards the write and it
    is carried out exactly as on the buffer before the freeze. *)
Theorem write_after_freeze (b : bitbuf_buffer_t) (datum n : Z) :
  bitbuf__write_bits cfg (frozen b) datum n =
  if assert_traps cfg then Abort
  else outcome_map frozen (bitbuf__write_bits cfg b datum n).
Proof.
  destruct (assert_traps cfg) eqn:Hc.
  - unfold bitbuf__write_bits. cbn [bitbuf__write_bits_rec].
    unfold c_assert at 1. rewrite Hc. cbn [andb].
    destruct (Z.leb_spec n 64) as [Hn|Hn]; cbn [negb bind]; [|reflexivity].
    destruct (Z.gtb_spec n 64) as [?|_]; [lia|].
    unfold c_assert. rewrite Hc. reflexivity.
  - apply write_rec_frozen. exact Hc.
Qed.

End Freeze.

Lemma fresh_buffer_alloc : bitbuf_alloc_buffer libc_assert 8 = Ret fresh_buffer.
Proof. vm_compute. reflexivity. Qed.

(** C4 as stated fails where assertions do not stop the program: on the
    frozen 8-byte buffer, writing the bit 1 returns a buffer whose first
    segment and write cursor have changed. *)
Lemma write_after_freeze_counterexample :
  bitbuf__write_bits no_trap (frozen fresh_buffer) 1 1 =
    Ret {| data := [1]; capacity_bytes := 8; truncated := 0;
           write := {| seg := 0; bits_into_seg := 1; owner := true;
                       read_past_end := 0 |} |}
  /\ ~ (forall b', bitbuf__write_bits no_trap (frozen fresh_buffer) 1 1 = Ret b' ->
                   write_skipped (frozen fresh_buffer) b').
Proof.
  split; [vm_compute; reflexivity|].
  intros H. specialize (H _ eq_refl). destruct H as (Hd & _). discriminate Hd.
Qed.

(** * Truncation *)

Section Truncation.

(** C5. A write of N bits (N within the 0..64 the primitive takes) that
    finds fewer than N bits of capacity left returns with the truncated
    flag set and with the segments and the write cursor as they were; and
    whatever calls follow on that buffer, the flag is still set after them.
    The write is one the assertion hooks let through: the buffer is not
    frozen (or failed assertions do not stop the program), and reaching
    BITBUF__ASSERT_FAIL does not stop it (with the C library's assert it
    never does). *)
Theorem truncation_atomic_sticky (cfg : assert_cfg) (b : bitbuf_buffer_t)
    (datum n r : Z) :
  owner (write b) = false \/ assert_traps cfg = false ->
  assert_fail_traps cfg = false ->
  truncated b = 0 \/ truncated b = 1 ->
  0 <= n <= 64 ->
  bitbuf__remaining_capacity_in_bits cfg b = Ret r ->
  r < n ->
  exists b',
    bitbuf__write_bits cfg b datum n = Ret b'
    /\ bitbuf_has_truncated b' = true
    /\ data b' = data b
    /\ write b' = write b
    /\ forall (ops : list bitbuf_call) (cs : list bitbuf_cursor_t) (s' : session),
         run cfg ops {| buf := b'; cursors := cs |} = Ret s' ->
         bitbuf_has_truncated (buf s') = true.
Proof.
  intros Hfr Hfail Ht Hn Hr Hlt.
  exists (set_truncated b (Z.lor (truncated b) 1)).
  assert (Z.lor (truncated b) 1 = 1) as Hone by (destruct Ht as [-> | ->]; reflexivity).
  split; [|split; [|split; [|split]]].
  - unfold bitbuf__write_bits. cbn [bitbuf__write_bits_rec].
    pass_assert. destruct (Z.gtb_spec n 64) as [?|_]; [lia|].
    rewrite unfrozen_assert by exact Hfr. cbn [bind].
    rewrite Hr. cbn [bind].
    destruct (Z.ltb_spec r n) as [_|?]; [|lia].
    unfold c_assert_fail. rewrite Hfail. reflexivity.
  - unfold bitbuf_has_truncated. cbn [set_truncated truncated]. now rewrite Hone.
  - reflexivity.
  - reflexivity.
  - intros ops cs s' Hrun. unfold bitbuf_has_truncated.
    apply run_truncated in Hrun; [now rewrite Hrun|].
    cbn [buf set_truncated truncated]. exact Hone.
Qed.

Lemma truncation_atomic_sticky_witness :
  (owner (write one_bit_buffer) = false \/ assert_traps libc_assert = false)
  /\ assert_fail_traps libc_assert = false
  /\ (truncated one_bit_buffer = 0 \/ truncated one_bit_buffer = 1)
  /\ 0 <= 64 <= 64
  /\ bitbuf__remaining_capacity_in_bits libc_assert one_bit_buffer = Ret 63
  /\ 63 < 64
  /\ exists b',
    bitbuf__write_bits libc_assert one_bit_buffer 255 64 = Ret b'
    /\ bitbuf_has_truncated b' = true
    /\ data b' = data one_bit_buffer
    /\ write b' = write one_bit_buffer
    /\ forall (ops : list bitbuf_call) (cs : list bitbuf_cursor_t) (s' : session),
         run libc_assert ops {| buf := b'; cursors := cs |} = Ret s' ->
         bitbuf_has_truncated (buf s') = true.
Proof.
  split; [left; reflexivity|]. split; [reflexivity|]. split; [left; reflexivity|].
  split; [lia|]. split; [vm_compute; reflexivity|]. split; [lia|].
  apply (truncation_atomic_sticky libc_assert one_bit_buffer 255 64 63);
    [left; reflexivity | reflexivity | left; reflexivity | lia
    | vm_compute; reflexivity | lia].
Defined.

Lemma one_bit_buffer_written :
  (do b <- bitbuf_alloc_buffer libc_assert 1 ;
   bitbuf_write_type libc_assert 1 b 1 0) = Ret one_bit_buffer.
Proof. vm_compute. reflexivity. Qed.

End Truncation.

(** * The cursor invariant *)

Section CursorInvariant.

Variable cfg : assert_cfg.

Lemma write_exactly_full (b b' : bitbuf_buffer_t) (datum n r : Z) :
  cursor_ok (write b) ->
  bitbuf__remaining_capacity_in_bits cfg b = Ret r ->
  n <= r ->
  bits_into_seg (write b) + n = 64 ->
  bitbuf__write_bits cfg b datum n = Ret b' ->
  seg (write b') = seg (write b) + 1 /\ bits_into_seg (write b') = 0.
Proof.
  unfold cursor_ok, bitbuf__write_bits. intros Hok Hr Hle Hfull H.
  cbn [bitbuf__write_bits_rec] in H.
  inv_step H. destruct (Z.gtb_spec n 64) as [?|_]; [lia|].
  inv_step H. rewrite Hr in H. cbn [bind] in H.
  destruct (Z.ltb_spec r n) as [?|_]; [lia|].
  change BITBUF__SEG_BITS with 64 in H.
  destruct (Z.leb_spec n (64 - bits_into_seg (write b))) as [_|?]; [|lia].
  inv_step H. inv_step H. inv_step H.
  destruct (or_into_seg_inv _ _ _ E3) as (Hw & _).
  cbn [write set_write set_bits bits_into_seg] in H. rewrite Hw in H.
  destruct (Z.eqb_spec (bits_into_seg (write b) + n) 64) as [_|?]; [|lia].
  inv_step H. inv_step H. injection H as <-.
  cbn [write set_write bitbuf__advance_cursor set_bits seg bits_into_seg].
  now split.
Qed.

Lemma read_exactly_full (b : bitbuf_buffer_t) (rd rd' : bitbuf_cursor_t) (n v r : Z) :
  cursor_ok rd ->
  bitbuf__bits_remaining_for_cursor cfg b rd = Ret r ->
  n <= r ->
  bits_into_seg rd + n = 64 ->
  bitbuf__read_bits cfg b rd n = Ret (v, rd') ->
  seg rd' = seg rd + 1 /\ bits_into_seg rd' = 0.
Proof.
  unfold cursor_ok, bitbuf__read_bits. intros Hok Hr Hle Hfull H.
  inv_step H. inv_step H. inv_step H.
  destruct (Z.gtb_spec n 64) as [?|_]; [lia|].
  inv_step H; [discriminate H|]. rewrite Hr in H. cbn [bind] in H.
  destruct (Z.ltb_spec r n) as [?|_]; [lia|].
  change BITBUF__SEG_BITS with 64 in H.
  destruct (Z.leb_spec n (64 - bits_into_seg rd)) as [_|?]; [|lia].
  inv_step H. inv_step H. inv_step H. inv_step H.
  cbn [set_bits bits_into_seg] in H.
  destruct (Z.eqb_spec (bits_into_seg rd + n) 64) as [_|?]; [|lia].
  injection H as _ <-. cbn. now split.
Qed.

End CursorInvariant.

(** C9. Starting from a buffer and cursors with 0 <= bits_into_seg < 64,
    after each call of any sequence of calls (the write and read
    primitives, and the other writers and readers built on them) the write
    cursor and every read cursor again have 0 <= bits_into_seg < 64; and a
    primitive write or read of N bits that is carried out with
    bits_into_seg + N = 64 leaves the cursor on the next segment with
    bits_into_seg = 0. *)
Theorem cursor_invariant (cfg : assert_cfg) :
  (forall (ops1 ops2 : list bitbuf_call) (s s' : session),
     session_ok s ->
     run cfg (ops1 ++ ops2) s = Ret s' ->
     exists s1, run cfg ops1 s = Ret s1 /\ session_ok s1)
  /\ (forall (b b' : bitbuf_buffer_t) (datum n r : Z),
        cursor_ok (write b) ->
        bitbuf__remaining_capacity_in_bits cfg b = Ret r ->
        n <= r ->
        bits_into_seg (write b) + n = 64 ->
        bitbuf__write_bits cfg b datum n = Ret b' ->
        seg (write b') = seg (write b) + 1 /\ bits_into_seg (write b') = 0)
  /\ (forall (b : bitbuf_buffer_t) (rd rd' : bitbuf_cursor_t) (n v r : Z),
        cursor_ok rd ->
        bitbuf__bits_remaining_for_cursor cfg b rd = Ret r ->
        n <= r ->
        bits_into_seg rd + n = 64 ->
        bitbuf__read_bits cfg b rd n = Ret (v, rd') ->
        seg rd' = seg rd + 1 /\ bits_into_seg rd' = 0).
Proof.
  split; [|split].
  - intros ops1 ops2 s s' Hok H. rewrite run_app in H.
    destruct (run cfg ops1 s) as [s1| | |] eqn:E; try discriminate H.
    exists s1. split; [reflexivity|]. now apply (run_session_ok cfg ops1 s s1).
  - apply write_exactly_full.
  - apply read_exactly_full.
Qed.

Lemma cursor_invariant_witness :
  (session_ok example_session
   /\ exists s1,
        run libc_assert example_calls example_session = Ret s1 /\ session_ok s1)
  /\ (cursor_ok (write example_buffer)
      /\ bitbuf__remaining_capacity_in_bits libc_assert example_buffer = Ret 65
      /\ 1 <= 65
      /\ bits_into_seg (write example_buffer) + 1 = 64
      /\ exists b',
           bitbuf__write_bits libc_assert example_buffer 1 1 = Ret b'
           /\ seg (write b') = seg (write example_buffer) + 1
           /\ bits_into_seg (write b') = 0)
  /\ (let b := frozen example_buffer in
      let rd := snd (bitbuf_cursor_init example_buffer) in
      cursor_ok rd
      /\ bitbuf__bits_remaining_for_cursor libc_assert b rd = Ret 192
      /\ 64 <= 192
      /\ bits_into_seg rd + 64 = 64
      /\ exists v rd',
           bitbuf__read_bits libc_assert b rd 64 = Ret (v, rd')
           /\ seg rd' = seg rd + 1 /\ bits_into_seg rd' = 0).
Proof.
  destruct (cursor_invariant libc_assert) as (Hrun & Hwrite & Hread).
  assert (session_ok example_session) as Hok.
  { split; [unfold cursor_ok; cbn; lia | constructor]. }
  assert (cursor_ok (write example_buffer)) as Hokw by (unfold cursor_ok; cbn; lia).
  assert (cursor_ok (snd (bitbuf_cursor_init example_buffer))) as Hokr
    by (unfold cursor_ok; cbn; lia).
  split; [|split].
  - split; [exact Hok|].
    eassert (run libc_assert (example_calls ++ [CallReadBits 0 1]) example_session
             = Ret _) as E by (vm_compute; reflexivity).
    exact (Hrun example_calls [CallReadBits 0 1] example_session _ Hok E).
  - split; [exact Hokw|]. split; [vm_compute; reflexivity|]. split; [lia|].
    split; [reflexivity|].
    eassert (bitbuf__write_bits libc_assert example_buffer 1 1 = Ret _) as E
      by (vm_compute; reflexivity).
    eexists. split; [exact E|].
    exact (Hwrite example_buffer _ 1 1 65 Hokw eq_refl ltac:(lia) eq_refl E).
  - cbn zeta. split; [exact Hokr|]. split; [vm_compute; reflexivity|].
    split; [lia|]. split; [reflexivity|].
    eassert (bitbuf__read_bits libc_assert (frozen example_buffer)
               (snd (bitbuf_cursor_init example_buffer)) 64 = Ret (_, _)) as E
      by (vm_compute; reflexivity).
    eexists. eexists. split; [exact E|].
    exact (Hread (frozen example_buffer) _ _ 64 _ 192 Hokr eq_refl ltac:(lia)
             eq_refl E).
Defined.

(** * Quantized floats *)

Section Quantized.

Lemma widths_1_31 (n : Z) : 1 <= n <= 31 -> In n (seqZ 1 31).
Proof.
  intros Hn. apply list_elem_of_In, elem_of_seqZ. lia.
Qed.

Lemma SFcompare_refl (x : spec_float) :
  x <> S754_nan -> SFcompare x x = Some Eq.
Proof.
  destruct x as [s|s| |s m e]; cbn; intros H; try reflexivity.
  - now destruct s.
  - now elim H.
  - rewrite Z.compare_refl, Pos.compare_cont_refl. now destruct s.
Qed.

Lemma SFltb_not_nan (x y : spec_float) :
  SFltb x y = true -> x <> S754_nan /\ y <> S754_nan.
Proof.
  unfold SFltb. destruct x, y; cbn; intros H; split; congruence.
Qed.

Lemma SFltb_leb (x y : spec_float) : SFltb x y = true -> SFleb x y = true.
Proof.
  unfold SFltb, SFleb. destruct (SFcompare x y) as [[]|]; congruence.
Qed.

Lemma SFleb_refl (x : spec_float) : x <> S754_nan -> SFleb x x = true.
Proof. intros H. unfold SFleb. now rewrite SFcompare_refl. Qed.

(** The largest stored value is a positive finite float for every width. *)
Lemma bit_max_float (n : Z) :
  1 <= n <= 31 -> exists m e, f32_of_Z (2 ^ n - 1) = S754_finite false m e.
Proof.
  intros Hn. apply widths_1_31 in Hn.
  assert (forallb (fun n => match f32_of_Z (2 ^ n - 1) with
                            | S754_finite false _ _ => true
                            | _ => false
                            end) (seqZ 1 31) = true) as H
    by (vm_compute; reflexivity).
  rewrite forallb_forall in H. specialize (H n Hn).
  destruct (f32_of_Z (2 ^ n - 1)) as [| | |[|] m e]; try discriminate H.
  now exists m, e.
Qed.

Lemma f32_sub_diag (x : spec_float) :
  (exists s, f32_sub x x = S754_zero s) \/ f32_sub x x = S754_nan.
Proof.
  destruct x as [s|s| |s m e]; unfold f32_sub; cbn [SFsub].
  - left. destruct s; eexists; reflexivity.
  - right. now destruct s.
  - now right.
  - left. rewrite Z.sub_diag. eexists. reflexivity.
Qed.

(** Whatever the range, [min] is stored as 0. *)
Lemma quantize_min (n : Z) (min max : spec_float) :
  1 <= n <= 31 -> quantize (2 ^ n - 1) min max min = Ret 0.
Proof.
  intros Hn. destruct (bit_max_float n Hn) as (m & e & Hb).
  unfold quantize. rewrite Hb.
  assert (forall x, (exists s, x = S754_zero s) \/ x = S754_nan ->
            BITBUF__MAX x (f32_of_Z 0) = S754_zero false) as Hmax.
  { intros x [[s ->]| ->]; reflexivity. }
  rewrite Hmax; [reflexivity|].
  destruct (f32_sub_diag min) as [[s ->]| ->]; unfold f32_mul; cbn [SFmul].
  - destruct (f32_sub max min) as [s'|s'| |s' m' e']; unfold f32_div; cbn [SFdiv];
      eauto.
  - now right.
Qed.

Lemma dequantize_zero (n : Z) (min max : spec_float) :
  1 <= n <= 31 ->
  SFltb min max = true ->
  float_finite (f32_sub max min) = true ->
  let q := dequantize (2 ^ n - 1) min max 0 in
  SFeqb q min = true /\ SFleb min q = true /\ SFleb q max = true.
Proof.
  intros Hn Hlt Hfin. destruct (bit_max_float n Hn) as (m & e & Hb).
  cbn zeta. unfold dequantize. rewrite Hb.
  change (f32_of_Z 0) with (S754_zero false).
  unfold f32_div. cbn [SFdiv xorb].
  pose proof (SFltb_leb _ _ Hlt) as Hle.
  assert (float_finite min = true) as Hfmin.
  { destruct min as [s1|s1| |s1 m1 e1], max as [s2|s2| |s2 m2 e2];
      try reflexivity; try discriminate Hlt;
      try (destruct s1, s2; discriminate Hfin); destruct s1; discriminate Hfin. }
  assert (exists s, f32_mul (S754_zero false) (f32_sub max min) = S754_zero s) as [s Hp].
  { destruct (f32_sub max min) as [s|s| |s m' e']; try discriminate Hfin;
      unfold f32_mul; cbn [SFmul]; eexists; reflexivity. }
  rewrite Hp. unfold f32_add.
  destruct min as [s1|s1| |s1 m1 e1]; try discriminate Hfmin.
  - assert (exists s', SFadd 24 128 (S754_zero s1) (S754_zero s) = S754_zero s') as [s' ->].
    { destruct s1, s; eexists; reflexivity. }
    split; [reflexivity|]. split; [reflexivity|].
    unfold SFleb in *. destruct max; exact Hle.
  - cbn [SFadd]. split; [|split].
    + unfold SFeqb. now rewrite SFcompare_refl.
    + now apply SFleb_refl.
    + exact Hle.
Qed.

Lemma boundary_exact_min (n : Z) (min max : spec_float) :
  1 <= n <= 31 ->
  SFltb min max = true ->
  float_finite (f32_sub max min) = true ->
  boundary_exact n min max min = true.
Proof.
  intros Hn Hlt Hfin. unfold boundary_exact. rewrite quantize_min by exact Hn.
  destruct (dequantize_zero n min max Hn Hlt Hfin) as (H1 & H2 & H3).
  cbn zeta in *. rewrite H1, H2, H3.
  pose proof (pow2_pos n ltac:(lia)).
  destruct (Z.leb_spec 0 (2 ^ n - 1)); [reflexivity | lia].
Qed.

Lemma boundary_exact_max (n : Z) (min max : spec_float) :
  1 <= n <= 31 ->
  In (min, max) exact_ranges ->
  SFltb min max = true
  /\ boundary_exact n min max max = true
  /\ boundary_exact n min max min = true.
Proof.
  intros Hn Hr. apply widths_1_31 in Hn.
  assert (forallb (fun r : spec_float * spec_float =>
            forallb (fun n => SFltb (fst r) (snd r)
                              && boundary_exact n (fst r) (snd r) (snd r)
                              && boundary_exact n (fst r) (snd r) (fst r))
                    (seqZ 1 31)) exact_ranges = true) as H
    by (vm_compute; reflexivity).
  rewrite forallb_forall in H. specialize (H _ Hr).
  rewrite forallb_forall in H. specialize (H _ Hn). cbn [fst snd] in H.
  apply andb_prop in H. destruct H as [H H3].
  apply andb_prop in H. destruct H as [H1 H2]. auto.
Qed.

(** A boundary whose float part checks out survives the trip through the
    buffer. *)
Lemma quantized_roundtrip (cfg : assert_cfg) (b : bitbuf_buffer_t) (n : Z)
    (min max value : spec_float) :
  buffer_wf b ->
  clean_tail b ->
  owner (write b) = false ->
  1 <= n <= 31 ->
  bit_position (write b) + n <= 8 * capacity_bytes b ->
  SFltb min max = true ->
  SFleb min value && SFleb value max = true ->
  boundary_exact n min max value = true ->
  quantized_returns cfg b n min max value.
Proof.
  intros Hwf Hcl Ho Hn Hcap Hlt Hin Hex.
  unfold boundary_exact in Hex.
  destruct (quantize (2 ^ n - 1) min max value) as [qi| | |] eqn:Hq;
    try discriminate Hex.
  cbn zeta in Hex.
  apply andb_prop in Hex. destruct Hex as [Hex Hqmax].
  apply andb_prop in Hex. destruct Hex as [Hex Hqmin].
  apply andb_prop in Hex. destruct Hex as [Hex Heq].
  apply andb_prop in Hex. destruct Hex as [H0 H1].
  apply Z.leb_le in H0, H1.
  destruct (write_then_read cfg b n qi Hwf Hcl Ho ltac:(lia) ltac:(lia) Hcap)
    as (b' & rd' & Hw & Hr & _).
  pose proof (pow2_pos n ltac:(lia)) as Hp.
  pose proof (pow2_le n 31 ltac:(lia)) as Hp31.
  assert (u32 (2 ^ n - 1) = 2 ^ n - 1) as Hu by (apply u32_small; lia).
  exists b', (dequantize (2 ^ n - 1) min max qi), rd'. split; [|split].
  - unfold bitbuf_write_quantized_float.
    rewrite (u64_small n) by lia. pass_assert.
    rewrite !c_assert_ok by assumption. cbn [bind].
    rewrite spanmask_spec by lia. cbn [bind]. rewrite Hu, Hq. cbn [bind].
    exact Hw.
  - unfold bitbuf_read_quantized_float.
    rewrite (u64_small n) by lia. pass_assert.
    rewrite c_assert_ok by assumption. cbn [bind]. pass_assert.
    unfold bitbuf_read_n_bits. pass_assert.
    destruct (Z.gtb_spec n 64) as [?|_]; [lia|].
    rewrite Hr. cbn [bind fst snd].
    rewrite spanmask_spec by lia. cbn [bind]. rewrite Hu.
    rewrite c_assert_ok by (now rewrite Hqmin, Hqmax). reflexivity.
  - exact Heq.
Qed.

End Quantized.

(** C8 (amended). With floats as IEEE 754 binary32 and equality as C's
    [==]: for every N in [1, 31] and every float pair min < max, on a
    well-formed writable buffer with clean tail and N bits of room,
    - writing min and reading it back returns min whenever max - min is
      finite (does not overflow);
    - writing max and reading it back returns max for the ranges the
      header names, [0,1] and [-1,1], and for the two further ranges of its
      test, [-1,0] and [-32000,32000].
    Nothing is said of max on other ranges: as the header states, that
    boundary is not guaranteed there. *)
Theorem quantized_boundaries (cfg : assert_cfg) (b : bitbuf_buffer_t) (n : Z)
    (min max : spec_float) :
  buffer_wf b ->
  clean_tail b ->
  owner (write b) = false ->
  1 <= n <= 31 ->
  bit_position (write b) + n <= 8 * capacity_bytes b ->
  SFltb min max = true ->
  (float_finite (f32_sub max min) = true -> quantized_returns cfg b n min max min)
  /\ (In (min, max) exact_ranges ->
      quantized_returns cfg b n min max max /\ quantized_returns cfg b n min max min).
Proof.
  intros Hwf Hcl Ho Hn Hcap Hlt.
  destruct (SFltb_not_nan _ _ Hlt) as [Hmin Hmax].
  pose proof (SFltb_leb _ _ Hlt) as Hle.
  assert (SFleb min min && SFleb min max = true) as Hinmin
    by (rewrite SFleb_refl, Hle by exact Hmin; reflexivity).
  assert (SFleb min max && SFleb max max = true) as Hinmax
    by (rewrite SFleb_refl, Hle by exact Hmax; reflexivity).
  split.
  - intros Hfin. apply quantized_roundtrip; try assumption.
    now apply boundary_exact_min.
  - intros Hr. destruct (boundary_exact_max n min max Hn Hr) as (_ & Hx & Hm).
    split; apply quantized_roundtrip; assumption.
Qed.

Lemma quantized_boundaries_witness :
  buffer_wf example_buffer /\ clean_tail example_buffer
  /\ owner (write example_buffer) = false
  /\ 1 <= 24 <= 31
  /\ bit_position (write example_buffer) + 24 <= 8 * capacity_bytes example_buffer
  /\ SFltb (f32_of_Z (-32000)) (f32_of_Z 32000) = true
  /\ float_finite (f32_sub (f32_of_Z 32000) (f32_of_Z (-32000))) = true
  /\ In (f32_of_Z (-32000), f32_of_Z 32000) exact_ranges
  /\ quantized_returns libc_assert example_buffer 24
       (f32_of_Z (-32000)) (f32_of_Z 32000) (f32_of_Z (-32000))
  /\ quantized_returns libc_assert example_buffer 24
       (f32_of_Z (-32000)) (f32_of_Z 32000) (f32_of_Z 32000).
Proof.
  assert (In (f32_of_Z (-32000), f32_of_Z 32000) exact_ranges) as Hr
    by (cbn; tauto).
  assert (bit_position (write example_buffer) + 24
          <= 8 * capacity_bytes example_buffer) as Hcap
    by (vm_compute; discriminate).
  destruct (quantized_boundaries libc_assert example_buffer 24
              (f32_of_Z (-32000)) (f32_of_Z 32000)
              example_buffer_wf example_buffer_clean eq_refl ltac:(lia) Hcap eq_refl)
    as [Hmin Hmax].
  split; [exact example_buffer_wf|]. split; [exact example_buffer_clean|].
  split; [reflexivity|]. split; [lia|]. split; [exact Hcap|].
  split; [reflexivity|]. split; [reflexivity|]. split; [exact Hr|].
  split; [exact (Hmin eq_refl) | exact (proj1 (Hmax Hr))].
Defined.

(** C8 as stated fails on the max boundary. With min = -33554432 (-2^25)
    and max = 1, max - min rounds to 33554432, so at 4 bits max is stored
    as 15 and read back as min + 1 * 33554432 = 0. The range [0, 3] at 23
    bits loses max as well: 3 * 8388607 / 3 rounds to 8388606.5 and is
    stored as 8388606. The min boundary is lost when max - min overflows:
    over [-FLT_MAX, FLT_MAX] min is stored as 0 and read back as
    min + 0 * infinity, a NaN, which the closing assertion of the reader
    rejects. *)
Lemma quantized_boundaries_counterexample :
  SFltb (f32_of_Z (-33554432)) (f32_of_Z 1) = true
  /\ (exists b',
        bitbuf_write_quantized_float libc_assert example_buffer 4
          (f32_of_Z (-33554432)) (f32_of_Z 1) (f32_of_Z 1) = Ret b'
        /\ exists rd',
          bitbuf_read_quantized_float libc_assert (fst (bitbuf_cursor_init b'))
            (cursor_at (write example_buffer)) 4
            (f32_of_Z (-33554432)) (f32_of_Z 1) = Ret (S754_zero false, rd'))
  /\ ~ quantized_returns libc_assert example_buffer 4
        (f32_of_Z (-33554432)) (f32_of_Z 1) (f32_of_Z 1)
  /\ SFltb (f32_of_Z 0) (f32_of_Z 3) = true
  /\ ~ quantized_returns libc_assert example_buffer 23
        (f32_of_Z 0) (f32_of_Z 3) (f32_of_Z 3)
  /\ SFltb (SFopp f32_max) f32_max = true
  /\ ~ quantized_returns libc_assert example_buffer 8
        (SFopp f32_max) f32_max (SFopp f32_max)
  /\ ~ quantized_returns no_trap example_buffer 8
        (SFopp f32_max) f32_max (SFopp f32_max).
Proof.
  split; [reflexivity|].
  split; [|split; [|split; [reflexivity|split; [|split; [reflexivity|split]]]]].
  - eexists. split; [vm_compute; reflexivity|].
    eexists. vm_compute. reflexivity.
  - intros (b' & q & rd' & Hw & Hr & Heq).
    vm_compute in Hw. injection Hw as <-.
    vm_compute in Hr. injection Hr as <- _. discriminate Heq.
  - intros (b' & q & rd' & Hw & Hr & Heq).
    vm_compute in Hw. injection Hw as <-.
    vm_compute in Hr. injection Hr as <- _. discriminate Heq.
  - intros (b' & q & rd' & Hw & Hr & Heq).
    vm_compute in Hw. injection Hw as <-.
    vm_compute in Hr. discriminate Hr.
  - intros (b' & q & rd' & Hw & Hr & Heq).
    vm_compute in Hw. injection Hw as <-.
    vm_compute in Hr. injection Hr as <- _. discriminate Heq.
Qed.

(** * The recursion of the writer *)

Section Fuel.

Variable cfg : assert_cfg.

Lemma bind_fuel {A B : Type} (m : outcome A) (k : A -> outcome B) :
  m <> OutOfFuel -> (forall a, m = Ret a -> k a <> OutOfFuel) ->
  bind m k <> OutOfFuel.
Proof.
  intros Hm Hk. destruct m as [a| | |]; cbn [bind]; try discriminate.
  - now apply Hk.
  - now elim Hm.
Qed.

Lemma c_assert_fuel (c : bool) : c_assert cfg c <> OutOfFuel.
Proof. unfold c_assert. now destruct (_ && _). Qed.

Lemma c_assert_fail_fuel : c_assert_fail cfg <> OutOfFuel.
Proof. unfold c_assert_fail. now destruct (assert_fail_traps cfg). Qed.

Lemma spanmask_fuel (n : Z) : spanmask n <> OutOfFuel.
Proof. unfold spanmask. destruct (n <? 0); [discriminate|]. now destruct (_ !! _). Qed.

Lemma shl64_fuel (x n : Z) : shl64 x n <> OutOfFuel.
Proof. unfold shl64. now destruct (_ && _). Qed.

Lemma shr64_fuel (x n : Z) : shr64 x n <> OutOfFuel.
Proof. unfold shr64. now destruct (_ && _). Qed.

Lemma or_into_seg_fuel (b : bitbuf_buffer_t) (v : Z) : or_into_seg b v <> OutOfFuel.
Proof.
  unfold or_into_seg, load_seg, store_seg.
  destruct (_ <? 0); [discriminate|].
  destruct (_ !! _); [|discriminate]. cbn [bind].
  now destruct (_ && _).
Qed.

Lemma remaining_capacity_fuel (b : bitbuf_buffer_t) :
  bitbuf__remaining_capacity_in_bits cfg b <> OutOfFuel.
Proof.
  unfold bitbuf__remaining_capacity_in_bits.
  repeat (apply bind_fuel; [apply c_assert_fuel | intros _ _]). discriminate.
Qed.

(** Where the straddling branch is taken the datum is at most 64 bits and
    the cursor moves to bit 0 of the next segment, so the nested call
    finds room in that segment: two levels are all a call can use. *)
Lemma write_bits_fuel (b : bitbuf_buffer_t) (datum n : Z) :
  bitbuf__write_bits cfg b datum n <> OutOfFuel.
Proof.
  unfold bitbuf__write_bits.
  assert (forall b1 d1 n1, bits_into_seg (write b1) = 0 ->
            bitbuf__write_bits_rec 1 cfg b1 d1 n1 <> OutOfFuel) as Hinner.
  { intros b1 d1 n1 Hz. cbn [bitbuf__write_bits_rec].
    apply bind_fuel; [apply c_assert_fuel | intros _ _].
    destruct (Z.gtb_spec n1 64) as [?|Hn1]; [discriminate|].
    apply bind_fuel; [apply c_assert_fuel | intros _ _].
    apply bind_fuel; [apply remaining_capacity_fuel | intros r _].
    destruct (r <? n1).
    { apply bind_fuel; [apply c_assert_fail_fuel | intros _ _]. discriminate. }
    rewrite Hz. change BITBUF__SEG_BITS with 64.
    destruct (Z.leb_spec n1 (64 - 0)) as [_|?]; [|lia].
    apply bind_fuel; [apply spanmask_fuel | intros m _].
    apply bind_fuel; [apply shl64_fuel | intros v _].
    apply bind_fuel; [apply or_into_seg_fuel | intros b2 _].
    destruct (_ =? 64); [|discriminate].
    apply bind_fuel; [apply remaining_capacity_fuel | intros r2 _].
    apply bind_fuel; [apply c_assert_fuel | intros _ _]. discriminate. }
  remember 1%nat as one eqn:Hone. cbn [bitbuf__write_bits_rec]. subst one.
  apply bind_fuel; [apply c_assert_fuel | intros _ _].
  destruct (n >? 64); [discriminate|].
  apply bind_fuel; [apply c_assert_fuel | intros _ _].
  apply bind_fuel; [apply remaining_capacity_fuel | intros r _].
  destruct (r <? n).
  { apply bind_fuel; [apply c_assert_fail_fuel | intros _ _]. discriminate. }
  destruct (n <=? _).
  - apply bind_fuel; [apply spanmask_fuel | intros m _].
    apply bind_fuel; [apply shl64_fuel | intros v _].
    apply bind_fuel; [apply or_into_seg_fuel | intros b2 _].
    destruct (_ =? BITBUF__SEG_BITS); [|discriminate].
    apply bind_fuel; [apply remaining_capacity_fuel | intros r2 _].
    apply bind_fuel; [apply c_assert_fuel | intros _ _]. discriminate.
  - apply bind_fuel; [apply spanmask_fuel | intros m _].
    apply bind_fuel; [apply shl64_fuel | intros v _].
    apply bind_fuel; [apply or_into_seg_fuel | intros b2 _].
    apply bind_fuel; [apply c_assert_fuel | intros _ _].
    apply bind_fuel; [apply spanmask_fuel | intros m2 _].
    apply bind_fuel; [apply shl64_fuel | intros om _].
    apply bind_fuel; [apply shr64_fuel | intros rest _].
    apply Hinner. reflexivity.
Qed.

End Fuel.

(** * The bit buffer as one run of bits *)

Section BufferValue.

Lemma segments_value_range (d : list Z) :
  Forall (fun x => 0 <= x < 2 ^ 64) d ->
  0 <= segments_value d < 2 ^ (64 * Z.of_nat (length d)).
Proof.
  induction 1 as [|x t Hx _ IH]; cbn [segments_value length]; [cbn; lia|].
  replace (64 * Z.of_nat (S (length t))) with (64 + 64 * Z.of_nat (length t)) by lia.
  rewrite Z.pow_add_r by lia. nia.
Qed.

Lemma segments_value_split (i : nat) : forall d : list Z,
  segments_value d =
  segments_value (take i d) + 2 ^ (64 * Z.of_nat i) * segments_value (drop i d).
Proof.
  induction i as [|i IH]; intros d.
  - rewrite take_0, drop_0. cbn [segments_value].
    change (2 ^ (64 * Z.of_nat 0)) with 1. lia.
  - destruct d as [|x t]; [cbn [take drop firstn skipn segments_value]; lia|].
    cbn [take drop firstn skipn segments_value]. rewrite (IH t) at 1.
    replace (64 * Z.of_nat (S i)) with (64 + 64 * Z.of_nat i) by lia.
    rewrite Z.pow_add_r by lia. ring.
Qed.

(** The value around segment [i]: what lies below, the segment itself,
    and what lies above. *)
Lemma segments_value_at (d : list Z) (i : nat) (z : Z) :
  Forall (fun x => 0 <= x < 2 ^ 64) d ->
  d !! i = Some z ->
  exists lo,
    segments_value d
    = lo + 2 ^ (64 * Z.of_nat i) * (z + 2 ^ 64 * segments_value (drop (S i) d))
    /\ 0 <= lo < 2 ^ (64 * Z.of_nat i)
    /\ 0 <= segments_value (drop (S i) d).
Proof.
  intros Hd Hz. exists (segments_value (take i d)).
  pose proof (lookup_lt_Some _ _ _ Hz) as Hlt.
  split; [|split].
  - rewrite (segments_value_split i d) at 1.
    rewrite (drop_S d z i Hz). reflexivity.
  - pose proof (segments_value_range (take i d) ltac:(now apply Forall_take)) as H.
    rewrite length_take in H. now replace (i `min` length d)%nat with i in H by lia.
  - apply (segments_value_range (drop (S i) d)). now apply Forall_drop.
Qed.

Lemma segments_value_insert (d : list Z) : forall (i : nat) (x y : Z),
  d !! i = Some x ->
  segments_value (<[i := y]> d) = segments_value d + 2 ^ (64 * Z.of_nat i) * (y - x).
Proof.
  induction d as [|a t IH]; intros i x y Hx; [discriminate Hx|].
  destruct i as [|i].
  - injection Hx as ->. change (<[0%nat := y]> (x :: t)) with (y :: t).
    cbn [segments_value]. change (2 ^ (64 * Z.of_nat 0)) with 1. lia.
  - change ((a :: t) !! S i) with (t !! i) in Hx.
    change (<[S i := y]> (a :: t)) with (a :: <[i := y]> t).
    cbn [segments_value]. rewrite (IH i x y Hx).
    replace (64 * Z.of_nat (S i)) with (64 + 64 * Z.of_nat i) by lia.
    rewrite Z.pow_add_r by lia. ring.
Qed.

Lemma segments_value_zeros (d : list Z) :
  Forall (fun x => x = 0) d -> segments_value d = 0.
Proof.
  induction 1 as [|x t -> _ IH]; cbn [segments_value]; lia.
Qed.

(** A field that lies inside one segment. *)
Lemma bits_at_fit (d : list Z) (s k n z : Z) :
  Forall (fun x => 0 <= x < 2 ^ 64) d ->
  0 <= s -> d !! Z.to_nat s = Some z ->
  0 <= k -> 0 <= n -> k + n <= 64 ->
  bits_at d (64 * s + k) n = (z / 2 ^ k) mod 2 ^ n.
Proof.
  intros Hd Hs Hz Hk Hn Hkn. unfold bits_at.
  destruct (segments_value_at d _ z Hd Hz) as (lo & -> & Hlo & Hhi).
  rewrite Z2Nat.id in * by lia.
  set (H := segments_value _) in *.
  rewrite Z.pow_add_r, <- Z.div_div by (try apply pow2_pos; lia).
  rewrite split_high by lia.
  pose proof (pow2_pos k Hk) as Hpk. pose proof (pow2_pos n Hn) as Hpn.
  replace (z + 2 ^ 64 * H) with (z + (2 ^ (64 - k - n) * 2 ^ n * H) * 2 ^ k).
  2:{ replace (2 ^ 64) with (2 ^ (64 - k - n) * 2 ^ n * 2 ^ k); [ring|].
      rewrite <- !Z.pow_add_r by lia. f_equal. lia. }
  rewrite Z.div_add by lia.
  replace (z / 2 ^ k + 2 ^ (64 - k - n) * 2 ^ n * H)
    with (z / 2 ^ k + (2 ^ (64 - k - n) * H) * 2 ^ n) by ring.
  now rewrite Z.mod_add by lia.
Qed.

(** A field that begins in one segment and ends in the next. *)
Lemma bits_at_straddle (d : list Z) (s k n z z2 : Z) :
  Forall (fun x => 0 <= x < 2 ^ 64) d ->
  0 <= s -> d !! Z.to_nat s = Some z -> d !! Z.to_nat (s + 1) = Some z2 ->
  0 <= k < 64 -> 64 - k < n <= 64 ->
  bits_at d (64 * s + k) n
  = z / 2 ^ k + 2 ^ (64 - k) * (z2 mod 2 ^ (n - (64 - k))).
Proof.
  intros Hd Hs Hz Hz2 Hk Hn.
  pose proof (Forall_lookup_1 _ _ _ _ Hd Hz) as Hzr. cbn beta in Hzr.
  unfold bits_at.
  destruct (segments_value_at d _ z Hd Hz) as (lo & -> & Hlo & _).
  assert (drop (S (Z.to_nat s)) d = z2 :: drop (S (S (Z.to_nat s))) d) as ->.
  { apply drop_S. rewrite <- Hz2. f_equal. lia. }
  cbn [segments_value].
  set (H := segments_value _).
  rewrite Z2Nat.id in * by lia.
  rewrite Z.pow_add_r, <- Z.div_div by (try apply pow2_pos; lia).
  rewrite split_high by lia.
  set (R := 64 - k) in *. set (next := n - R) in *.
  pose proof (pow2_pos k ltac:(lia)) as Hpk.
  pose proof (pow2_pos R ltac:(lia)) as HpR.
  pose proof (pow2_pos next ltac:(lia)) as Hpx.
  assert (2 ^ 64 = 2 ^ R * 2 ^ k) as Hp64.
  { rewrite <- Z.pow_add_r by lia. f_equal. lia. }
  assert (2 ^ 64 = 2 ^ (64 - next) * 2 ^ next) as Hp64'.
  { rewrite <- Z.pow_add_r by lia. f_equal. lia. }
  assert (2 ^ n = 2 ^ R * 2 ^ next) as Hpn.
  { rewrite <- Z.pow_add_r by lia. f_equal. lia. }
  set (W := z2 + 2 ^ 64 * H).
  replace (z + 2 ^ 64 * W) with (z + (2 ^ R * W) * 2 ^ k) by (rewrite Hp64; ring).
  rewrite Z.div_add by lia.
  assert (0 <= z / 2 ^ k < 2 ^ R) as Hq.
  { split; [apply Z.div_pos; lia|]. apply Z.div_lt_upper_bound; lia. }
  rewrite Hpn, Z.rem_mul_r by lia.
  rewrite split_low, split_high by lia.
  do 2 f_equal. unfold W.
  replace (2 ^ 64 * H) with ((2 ^ (64 - next) * H) * 2 ^ next)
    by (rewrite Hp64'; ring).
  now rewrite Z.mod_add by lia.
Qed.

(** Bits below a position are not changed by adding a multiple of that
    position's weight. *)
Lemma bits_at_below (V w p n q : Z) :
  0 <= p -> 0 <= n -> p + n <= q ->
  ((V + 2 ^ q * w) / 2 ^ p) mod 2 ^ n = (V / 2 ^ p) mod 2 ^ n.
Proof.
  intros Hp Hn Hq.
  pose proof (pow2_pos p Hp). pose proof (pow2_pos n Hn).
  replace (2 ^ q) with (2 ^ (q - p - n) * 2 ^ n * 2 ^ p).
  2:{ rewrite <- !Z.pow_add_r by lia. f_equal. lia. }
  replace (V + 2 ^ (q - p - n) * 2 ^ n * 2 ^ p * w)
    with (V + (2 ^ (q - p - n) * 2 ^ n * w) * 2 ^ p) by ring.
  rewrite Z.div_add by lia.
  replace (V / 2 ^ p + 2 ^ (q - p - n) * 2 ^ n * w)
    with (V / 2 ^ p + (2 ^ (q - p - n) * w) * 2 ^ n) by ring.
  now rewrite Z.mod_add by lia.
Qed.

(** The field at the top of the written part. *)
Lemma bits_at_top (V v p n : Z) :
  0 <= p -> 0 <= n -> 0 <= V < 2 ^ p -> 0 <= v < 2 ^ n ->
  ((V + 2 ^ p * v) / 2 ^ p) mod 2 ^ n = v.
Proof.
  intros Hp Hn HV Hv. rewrite split_high by lia. apply Z.mod_small. lia.
Qed.

Lemma cursor_seek_same (c : bitbuf_cursor_t) (s k : Z) :
  0 <= k < 64 -> seg c = s -> bits_into_seg c = k ->
  cursor_seek c (64 * s + k) = c.
Proof.
  intros Hk <- <-. destruct c as [s k o r]. unfold cursor_seek.
  cbn [seg bits_into_seg owner read_past_end] in *.
  f_equal.
  - rewrite Z.add_comm, Z.mul_comm, Z.div_add by lia. rewrite Z.div_small; lia.
  - rewrite Z.add_comm, Z.mul_comm, Z.mod_add by lia. apply Z.mod_small. lia.
Qed.

Lemma cursor_seek_position (c : bitbuf_cursor_t) (p : Z) :
  bit_position (cursor_seek c p) = p.
Proof.
  unfold bit_position, cursor_seek. cbn [seg bits_into_seg].
  pose proof (Z.div_mod p 64 ltac:(lia)). lia.
Qed.

Lemma cursor_position_seek (c : bitbuf_cursor_t) :
  cursor_ok c -> cursor_seek c (bit_position c) = c.
Proof.
  intros Hc. unfold bit_position. now apply cursor_seek_same.
Qed.

End BufferValue.

Section ReadWriteValue.

Variable cfg : assert_cfg.

Lemma shape_of_wf (b : bitbuf_buffer_t) : buffer_wf b -> buffer_shape b.
Proof. intros [Hc Hs _ _ _ Hd _]. now constructor. Qed.

Lemma cursor_seek_eq (c c' : bitbuf_cursor_t) (p : Z) :
  0 <= bits_into_seg c' < 64 -> bit_position c' = p ->
  owner c' = owner c -> read_past_end c' = read_past_end c ->
  cursor_seek c p = c'.
Proof.
  destruct c' as [s k o r]. unfold bit_position, cursor_seek.
  cbn [seg bits_into_seg owner read_past_end]. intros Hk <- <- <-.
  f_equal.
  - rewrite Z.add_comm, Z.mul_comm, Z.div_add by lia. rewrite Z.div_small; lia.
  - rewrite Z.add_comm, Z.mul_comm, Z.mod_add by lia. apply Z.mod_small. lia.
Qed.

(** What a read inside the buffer returns, and where it leaves the
    cursor. *)
Lemma read_bits_value (b : bitbuf_buffer_t) (rd : bitbuf_cursor_t) (n : Z) :
  buffer_shape b ->
  owner rd = true ->
  0 <= seg rd < Z.of_nat (length (data b)) ->
  cursor_ok rd ->
  0 <= n <= 64 ->
  bit_position rd + n <= 8 * capacity_bytes b ->
  bitbuf__read_bits cfg b rd n =
  Ret (bits_at (data b) (bit_position rd) n, cursor_seek rd (bit_position rd + n)).
Proof.
  intros [Hc Hs Hd] Ho Hseg Hk Hn Hcap. unfold cursor_ok, bit_position in *.
  set (k := bits_into_seg rd) in *. set (s := seg rd) in *.
  destruct (lookup_lt_is_Some_2 (data b) (Z.to_nat s) ltac:(lia)) as [z Hz].
  pose proof (Forall_lookup_1 _ _ _ _ Hd Hz) as Hzr. cbn beta in Hzr.
  destruct (Z.le_gt_cases n (64 - k)) as [Hfit|Hst].
  - rewrite (read_fit cfg b rd z n) by (assumption || lia). fold k.
    rewrite (bits_at_fit _ s k n z) by (assumption || lia).
    do 2 f_equal. symmetry.
    destruct (Z.eqb_spec (k + n) 64) as [E|E];
      apply cursor_seek_eq;
      unfold bit_position;
      cbn [bitbuf__advance_cursor set_bits seg bits_into_seg owner read_past_end];
      fold s; lia || reflexivity.
  - destruct (lookup_lt_is_Some_2 (data b) (Z.to_nat (s + 1)) ltac:(lia)) as [z2 Hz2].
    pose proof (Forall_lookup_1 _ _ _ _ Hd Hz2) as Hz2r. cbn beta in Hz2r.
    rewrite (read_straddle cfg b rd z z2 n) by (assumption || lia). fold k.
    rewrite (bits_at_straddle _ s k n z z2) by (assumption || lia).
    do 2 f_equal. symmetry. apply cursor_seek_eq;
      unfold bit_position;
      cbn [bitbuf__advance_cursor set_bits seg bits_into_seg owner read_past_end];
      fold s; lia || reflexivity.
Qed.

(** A clean buffer holds nothing at or above its write position. *)
Lemma clean_tail_value (b : bitbuf_buffer_t) :
  buffer_wf b -> clean_tail b ->
  0 <= segments_value (data b) < 2 ^ bit_position (write b).
Proof.
  intros Hwf Hcl. pose proof Hwf as [Hc Hs Hseg Hbits Hend Hd Htr].
  unfold bit_position.
  set (k := bits_into_seg (write b)) in *. set (s := seg (write b)) in *.
  pose proof (segments_value_range _ Hd) as Hr.
  destruct (Z.eq_dec s (Z.of_nat (length (data b)))) as [E|E].
  - rewrite (Hend E), E, Z.add_0_r. exact Hr.
  - destruct (lookup_lt_is_Some_2 (data b) (Z.to_nat s) ltac:(lia)) as [x Hx].
    pose proof (Forall_lookup_1 _ _ _ _ Hd Hx) as Hxr. cbn beta in Hxr.
    destruct (Hcl _ _ Hx) as [_ Hxk]. specialize (Hxk ltac:(lia)). fold k in Hxk.
    destruct (segments_value_at _ _ x Hd Hx) as (lo & HV & Hlo & _).
    rewrite (segments_value_zeros (drop (S (Z.to_nat s)) (data b))) in HV.
    + rewrite Z2Nat.id in HV, Hlo by lia. rewrite HV, Z.pow_add_r by lia.
      pose proof (pow2_pos k ltac:(lia)).
      assert (2 ^ (64 * s) * x <= 2 ^ (64 * s) * (2 ^ k - 1))
        by (apply Z.mul_le_mono_nonneg_l; lia).
      lia.
    + apply Forall_lookup_2. intros i y Hy. rewrite lookup_drop in Hy.
      destruct (Hcl _ _ Hy) as [H0 _]. apply H0. fold s. lia.
Qed.

(** A write that has room: the low [n] bits of the datum are put at the
    write position and nothing else changes. *)
Lemma write_bits_append (b : bitbuf_buffer_t) (datum n : Z) :
  buffer_wf b -> clean_tail b ->
  owner (write b) = false \/ assert_traps cfg = false ->
  1 <= n <= 64 ->
  0 <= datum ->
  bit_position (write b) + n <= 8 * capacity_bytes b ->
  exists b',
    bitbuf__write_bits cfg b datum n = Ret b'
    /\ buffer_wf b' /\ clean_tail b'
    /\ write b' = cursor_seek (write b) (bit_position (write b) + n)
    /\ truncated b' = truncated b
    /\ capacity_bytes b' = capacity_bytes b
    /\ length (data b') = length (data b)
    /\ segments_value (data b')
       = segments_value (data b) + 2 ^ bit_position (write b) * (datum mod 2 ^ n).
Proof.
  intros Hwf Hcl Hfr Hn Hd Hcap.
  pose proof Hwf as [Hc Hs Hseg Hbits Hend Hdata Htr].
  unfold bit_position in *.
  set (k := bits_into_seg (write b)) in *.
  set (s := seg (write b)) in *.
  destruct (wf_lookup b s Hwf ltac:(lia)) as (x & Hx & Hxr).
  destruct (Hcl _ _ Hx) as [_ Hxk]. specialize (Hxk ltac:(lia)). fold k in Hxk.
  pose proof (pow2_pos k ltac:(lia)) as Hpk.
  destruct (Z.le_gt_cases n (64 - k)) as [Hfit|Hst].
  - exists (after_fit b x datum n). unfold bitbuf__write_bits.
    rewrite (write_rec_fit cfg 1 b x datum n) by (assumption || lia).
    split; [reflexivity|].
    split; [apply after_fit_wf; assumption || lia|].
    split; [apply after_fit_clean; assumption || lia|].
    assert (data (after_fit b x datum n)
            = <[Z.to_nat s := x + 2 ^ k * (datum mod 2 ^ n)]> (data b)) as Hd'.
    { unfold after_fit. fold k s. rewrite lor_above by lia.
      now destruct (k + n =? 64). }
    split.
    { symmetry. unfold after_fit. fold k s.
      destruct (Z.eqb_spec (k + n) 64) as [E|E];
        apply cursor_seek_eq; unfold bit_position;
        cbn [write set_write set_data set_bits bitbuf__advance_cursor seg
             bits_into_seg owner read_past_end]; fold s; lia || reflexivity. }
    split; [unfold after_fit; fold k; now destruct (k + n =? 64)|].
    split; [unfold after_fit; fold k; now destruct (k + n =? 64)|].
    rewrite Hd'. split; [apply length_insert|].
    rewrite (segments_value_insert _ _ x _ Hx), Z2Nat.id by lia.
    rewrite Z.pow_add_r by lia. ring.
  - destruct (wf_lookup b (s + 1) Hwf ltac:(lia)) as (y & Hy & Hyr).
    destruct (Hcl _ _ Hy) as [Hy0 _]. specialize (Hy0 ltac:(fold s; lia)). subst y.
    set (R := 64 - k) in *. set (next := n - R) in *.
    pose proof (pow2_pos R ltac:(lia)) as HpR.
    pose proof (pow2_pos next ltac:(lia)) as Hpx.
    set (b2 := after_fit (after_fill b x datum) 0 (datum / 2 ^ R) next).
    exists b2. unfold bitbuf__write_bits.
    rewrite (write_rec_straddle cfg 0 b x 0 datum n) by (assumption || lia).
    fold k R next b2.
    pose proof (after_fill_wf b x datum Hwf Hx) as Hwf1.
    pose proof (after_fill_clean b x datum Hwf Hcl Hx) as Hcl1.
    assert (data (after_fill b x datum)
              !! Z.to_nat (seg (write (after_fill b x datum))) = Some 0) as Hy1.
    { unfold after_fill. cbn [data write set_write set_data seg bitbuf__advance_cursor].
      fold s. rewrite list_lookup_insert_ne by lia. exact Hy. }
    assert (bits_into_seg (write (after_fill b x datum)) = 0) as Hk1 by reflexivity.
    split; [reflexivity|].
    split; [apply after_fit_wf; try assumption; rewrite Hk1; lia|].
    split; [apply after_fit_clean; try assumption; rewrite Hk1; lia|].
    assert (data b2 = <[Z.to_nat (s + 1) := (datum / 2 ^ R) mod 2 ^ next]>
                        (<[Z.to_nat s := x + 2 ^ k * (datum mod 2 ^ R)]> (data b))) as Hd2.
    { unfold b2, after_fit, after_fill. fold k s R.
      cbn [write set_write set_data bits_into_seg bitbuf__advance_cursor seg data].
      destruct (0 + next =? 64); cbn [data set_write set_data];
        rewrite Z.lor_0_l; rewrite lor_above by lia; change (2 ^ 0) with 1;
        now rewrite Z.mul_1_l. }
    split.
    { symmetry. unfold b2, after_fit, after_fill. fold k s R.
      cbn [write set_write set_data bits_into_seg bitbuf__advance_cursor seg data].
      destruct (Z.eqb_spec (0 + next) 64) as [E|E]; [lia|].
      apply cursor_seek_eq; unfold bit_position;
        cbn [write set_write set_data set_bits bitbuf__advance_cursor seg
             bits_into_seg owner read_past_end]; fold s; lia || reflexivity. }
    split; [unfold b2, after_fit; now destruct (_ =? 64)|].
    split; [unfold b2, after_fit; now destruct (_ =? 64)|].
    rewrite Hd2. split; [now rewrite !length_insert|].
    rewrite (segments_value_insert _ _ 0).
    2:{ rewrite list_lookup_insert_ne by lia. exact Hy. }
    rewrite (segments_value_insert _ _ x _ Hx), !Z2Nat.id by lia.
    assert (datum mod 2 ^ n
            = datum mod 2 ^ R + 2 ^ R * ((datum / 2 ^ R) mod 2 ^ next)) as ->.
    { replace (2 ^ n) with (2 ^ R * 2 ^ next).
      - apply Z.rem_mul_r; lia.
      - rewrite <- Z.pow_add_r by lia. f_equal. lia. }
    replace (64 * (s + 1)) with (64 * s + k + R) by lia.
    rewrite !Z.pow_add_r by lia. ring.
Qed.

End ReadWriteValue.

(** * Records written and read back *)

Section Records.

Variable cfg : assert_cfg.

(** The test [bitbuf_write_n_bits] makes of its value: the bits at and
    above [num_bits]. *)
Lemma land_lnot_mask (n v : Z) :
  0 <= n <= 64 -> 0 <= v < 2 ^ 64 ->
  Z.land v (u64 (Z.lnot (2 ^ n - 1))) = 2 ^ n * (v / 2 ^ n).
Proof.
  intros Hn Hv. pose proof (pow2_pos n ltac:(lia)) as Hpn.
  pose proof (pow2_pos (64 - n) ltac:(lia)) as Hpm.
  assert (2 ^ 64 = 2 ^ n * 2 ^ (64 - n)) as Hp.
  { rewrite <- Z.pow_add_r by lia. f_equal. lia. }
  assert (u64 (Z.lnot (2 ^ n - 1)) = 2 ^ n * (2 ^ (64 - n) - 1)) as ->.
  { unfold u64, Z.lnot. replace (Z.pred (- (2 ^ n - 1))) with (- 2 ^ n) by lia.
    symmetry. apply (Z.mod_unique _ _ (-1)); rewrite Hp; [left|]; nia. }
  rewrite (Z.div_mod v (2 ^ n)) at 1 by lia.
  rewrite Z.add_comm, land_above by (try apply Z.mod_pos_bound; lia).
  rewrite land_mask by lia. f_equal. apply Z.mod_small.
  split; [apply Z.div_pos; lia|]. apply Z.div_lt_upper_bound; lia.
Qed.

Lemma write_n_bits_fits (b : bitbuf_buffer_t) (n value : Z) :
  0 <= n <= 64 -> 0 <= value < 2 ^ n ->
  bitbuf_write_n_bits cfg b n value = bitbuf__write_bits cfg b value n.
Proof.
  intros Hn Hv. unfold bitbuf_write_n_bits. pass_assert.
  destruct (Z.gtb_spec n 64) as [?|_]; [lia|].
  rewrite spanmask_spec by lia. cbn [bind].
  pose proof (pow2_le n 64 ltac:(lia)).
  rewrite land_lnot_mask by lia. rewrite Z.div_small by lia.
  rewrite Z.mul_0_r. now rewrite c_assert_true.
Qed.

Lemma read_n_bits_value (b : bitbuf_buffer_t) (rd : bitbuf_cursor_t) (n : Z) :
  buffer_shape b ->
  owner rd = true ->
  0 <= seg rd < Z.of_nat (length (data b)) ->
  cursor_ok rd ->
  0 <= n <= 64 ->
  bit_position rd + n <= 8 * capacity_bytes b ->
  bitbuf_read_n_bits cfg b rd n true =
  Ret (bits_at (data b) (bit_position rd) n, Some (2 ^ n - 1),
       cursor_seek rd (bit_position rd + n)).
Proof.
  intros Hsh Ho Hseg Hk Hn Hcap. unfold bitbuf_read_n_bits. pass_assert.
  destruct (Z.gtb_spec n 64) as [?|_]; [lia|].
  rewrite read_bits_value by assumption. cbn [bind fst snd].
  now rewrite spanmask_spec by lia.
Qed.

Lemma fields_bits_nonneg (fs : list (Z * Z)) : fields_ok fs -> 0 <= fields_bits fs.
Proof.
  induction 1 as [|[n v] t [Hn _] _ IH]; cbn [fields_bits fst] in *; lia.
Qed.

Lemma fields_value_range (fs : list (Z * Z)) :
  fields_ok fs -> 0 <= fields_value fs < 2 ^ fields_bits fs.
Proof.
  induction 1 as [|[n v] t [Hn Hv] Ht IH]; cbn [fields_value fields_bits fst snd] in *.
  - change (2 ^ 0) with 1. lia.
  - pose proof (fields_bits_nonneg t Ht).
    rewrite Z.pow_add_r by lia.
    pose proof (pow2_pos n ltac:(lia)).
    assert (2 ^ n * fields_value t <= 2 ^ n * (2 ^ fields_bits t - 1))
      by (apply Z.mul_le_mono_nonneg_l; lia).
    nia.
Qed.

(** Writing a record appends its value to the buffer. *)
Lemma write_fields_append (fs : list (Z * Z)) : forall b : bitbuf_buffer_t,
  buffer_wf b -> clean_tail b ->
  owner (write b) = false \/ assert_traps cfg = false ->
  fields_ok fs ->
  bit_position (write b) + fields_bits fs <= 8 * capacity_bytes b ->
  exists b',
    write_fields cfg b fs = Ret b'
    /\ buffer_wf b' /\ clean_tail b'
    /\ write b' = cursor_seek (write b) (bit_position (write b) + fields_bits fs)
    /\ truncated b' = truncated b
    /\ capacity_bytes b' = capacity_bytes b
    /\ length (data b') = length (data b)
    /\ segments_value (data b')
       = segments_value (data b) + 2 ^ bit_position (write b) * fields_value fs.
Proof.
  induction fs as [|[n v] t IH]; intros b Hwf Hcl Hfr Hok Hcap.
  - exists b. cbn [write_fields fields_bits fields_value].
    rewrite Z.add_0_r, Z.mul_0_r, Z.add_0_r.
    rewrite cursor_position_seek by (apply (wf_bits b Hwf)). now splits.
  - apply Forall_cons in Hok. destruct Hok as [[Hn Hv] Hok]. cbn [fst snd] in *.
    cbn [fields_bits] in Hcap. pose proof (fields_bits_nonneg t Hok) as Ht0.
    destruct (write_bits_append cfg b v n Hwf Hcl Hfr Hn ltac:(lia) ltac:(lia))
      as (b1 & Hw1 & Hwf1 & Hcl1 & Hc1 & Ht1 & Hcap1 & Hl1 & Hv1).
    assert (bit_position (write b1) = bit_position (write b) + n) as Hp1
      by (rewrite Hc1; apply cursor_seek_position).
    assert (owner (write b1) = owner (write b)) as Ho1 by (now rewrite Hc1).
    destruct (IH b1 Hwf1 Hcl1 ltac:(now rewrite Ho1) Hok ltac:(lia))
      as (b' & Hw' & Hwf' & Hcl' & Hc' & Ht' & Hcap' & Hl' & Hv').
    exists b'. cbn [write_fields fields_bits fields_value].
    rewrite write_n_bits_fits, Hw1 by lia. cbn [bind].
    split; [exact Hw'|]. split; [exact Hwf'|]. split; [exact Hcl'|].
    split.
    { rewrite Hc', Hp1, Hc1.
      change (cursor_seek (cursor_seek ?c ?p) ?q) with (cursor_seek c q).
      f_equal. lia. }
    split; [congruence|]. split; [congruence|]. split; [congruence|].
    rewrite Hv', Hv1, Hp1, (Z.mod_small v) by lia.
    pose proof (wf_bits b Hwf). pose proof (wf_seg b Hwf).
    rewrite Z.pow_add_r by (unfold bit_position; lia). ring.
Qed.

(** Reading a record whose value stands in the buffer at the cursor. *)
Lemma read_fields_value (b : bitbuf_buffer_t) (fs : list (Z * Z)) :
  forall rd : bitbuf_cursor_t,
  buffer_shape b ->
  owner rd = true -> 0 <= seg rd -> cursor_ok rd ->
  fields_ok fs ->
  bit_position rd + fields_bits fs <= 8 * capacity_bytes b ->
  bits_at (data b) (bit_position rd) (fields_bits fs) = fields_value fs ->
  read_fields cfg b rd (map fst fs) =
  Ret (fields_read fs, cursor_seek rd (bit_position rd + fields_bits fs)).
Proof.
  induction fs as [|[n v] t IH]; intros rd Hsh Ho Hseg Hk Hok Hcap Hbits.
  - cbn [map read_fields fields_read fields_bits].
    now rewrite Z.add_0_r, cursor_position_seek.
  - apply Forall_cons in Hok. destruct Hok as [[Hn Hv] Hok]. cbn [fst snd] in *.
    cbn [fields_bits fields_value] in *.
    pose proof (fields_bits_nonneg t Hok) as Ht0.
    pose proof (fields_value_range t Hok) as Htv.
    pose proof (sh_capacity b Hsh) as Hc.
    assert (0 <= bit_position rd) as Hp0 by (unfold bit_position, cursor_ok in *; lia).
    pose proof (pow2_pos n ltac:(lia)) as Hpn.
    pose proof (pow2_pos (bit_position rd) Hp0) as Hpp.
    unfold bits_at in Hbits.
    rewrite Z.pow_add_r, Z.rem_mul_r in Hbits by lia.
    set (Q := segments_value (data b) / 2 ^ bit_position rd) in *.
    pose proof (Z.mod_pos_bound Q (2 ^ n) Hpn) as HQ.
    assert (Q mod 2 ^ n = v /\ (Q / 2 ^ n) mod 2 ^ fields_bits t = fields_value t)
      as [Hlow Hhigh].
    { pose proof (Z.mod_pos_bound (Q / 2 ^ n) (2 ^ fields_bits t)
                    (pow2_pos _ Ht0)) as HQ2.
      assert (Q mod 2 ^ n = v) as E.
      { apply (f_equal (fun z => z mod 2 ^ n)) in Hbits.
        rewrite !split_low in Hbits by lia. exact Hbits. }
      split; [exact E|]. rewrite E in Hbits. nia. }
    cbn [map read_fields fst].
    rewrite read_n_bits_value; try assumption; try lia.
    2:{ unfold bit_position, cursor_ok in *. lia. }
    cbn [bind fst snd]. unfold bits_at. fold Q. rewrite Hlow.
    rewrite (IH (cursor_seek rd (bit_position rd + n))); try assumption.
    + cbn [bind fst snd fields_read map]. rewrite cursor_seek_position.
      do 2 f_equal. change (cursor_seek (cursor_seek rd ?p) ?q) with (cursor_seek rd q).
      f_equal. lia.
    + cbn. pose proof (Z.div_pos (bit_position rd + n) 64). lia.
    + unfold cursor_ok. cbn. apply Z.mod_pos_bound. lia.
    + rewrite cursor_seek_position. lia.
    + rewrite cursor_seek_position. unfold bits_at.
      rewrite Z.pow_add_r, <- Z.div_div by lia. fold Q. exact Hhigh.
Qed.

Lemma frozen_shape (b : bitbuf_buffer_t) : buffer_wf b -> buffer_shape (frozen b).
Proof. intros H. apply shape_of_wf in H. destruct H. now constructor. Qed.

Lemma cursor_at_seek (c : bitbuf_cursor_t) (p : Z) :
  cursor_seek (cursor_at c) p = cursor_at (cursor_seek c p).
Proof. reflexivity. Qed.

End Records.

(** X1. A write that has room appends: on a well-formed buffer with a clean
    tail that is open for writing, writing N bits (1 to 64) with at least N
    bits of capacity left puts the low N bits of the datum at the write
    position and changes nothing else. The run of bits the buffer holds
    grows by exactly [datum mod 2^N] at that position, so bits of the datum
    above N never reach the buffer; the cursor moves on by N bits and the
    truncation flag, the capacity and the number of segments stay. *)
Theorem write_bits_appends (cfg : assert_cfg) (b : bitbuf_buffer_t) (datum n : Z) :
  buffer_wf b -> clean_tail b ->
  owner (write b) = false ->
  1 <= n <= 64 ->
  0 <= datum < 2 ^ 64 ->
  bit_position (write b) + n <= 8 * capacity_bytes b ->
  exists b',
    bitbuf__write_bits cfg b datum n = Ret b'
    /\ buffer_wf b' /\ clean_tail b'
    /\ write b' = cursor_seek (write b) (bit_position (write b) + n)
    /\ truncated b' = truncated b
    /\ capacity_bytes b' = capacity_bytes b
    /\ length (data b') = length (data b)
    /\ segments_value (data b')
       = segments_value (data b) + 2 ^ bit_position (write b) * (datum mod 2 ^ n).
Proof.
  intros Hwf Hcl Ho Hn Hd Hcap.
  apply write_bits_append; auto; lia.
Qed.

Lemma write_bits_appends_witness :
  exists b',
    bitbuf__write_bits libc_assert example_buffer 0xFFFFFFFFFFFFFFFF 9 = Ret b'
    /\ buffer_wf b' /\ clean_tail b'
    /\ write b' = cursor_seek (write example_buffer)
                    (bit_position (write example_buffer) + 9)
    /\ truncated b' = truncated example_buffer
    /\ capacity_bytes b' = capacity_bytes example_buffer
    /\ length (data b') = length (data example_buffer)
    /\ segments_value (data b')
       = segments_value (data example_buffer)
         + 2 ^ bit_position (write example_buffer) * (0xFFFFFFFFFFFFFFFF mod 2 ^ 9).
Proof.
  apply (write_bits_appends libc_assert example_buffer 0xFFFFFFFFFFFFFFFF 9).
  - apply example_buffer_wf.
  - apply example_buffer_clean.
  - reflexivity.
  - lia.
  - lia.
  - vm_compute. discriminate.
Defined.

(** X2. A read inside the buffer: for a cursor of the buffer that stands
    on one of its segments, reading N bits (0 to 64) that end at or before
    the capacity returns the N bits of the buffer from the cursor's
    position on, moves the cursor on by N bits and leaves its
    [read_past_end] as it was, whatever the assertion hooks do. *)
Theorem read_bits_returns_field (cfg : assert_cfg) (b : bitbuf_buffer_t)
    (rd : bitbuf_cursor_t) (n : Z) :
  buffer_shape b ->
  owner rd = true ->
  0 <= seg rd < Z.of_nat (length (data b)) ->
  cursor_ok rd ->
  0 <= n <= 64 ->
  bit_position rd + n <= 8 * capacity_bytes b ->
  exists rd',
    bitbuf__read_bits cfg b rd n = Ret (bits_at (data b) (bit_position rd) n, rd')
    /\ bit_position rd' = bit_position rd + n
    /\ cursor_ok rd'
    /\ owner rd' = true
    /\ read_past_end rd' = read_past_end rd.
Proof.
  intros Hsh Ho Hseg Hk Hn Hcap.
  exists (cursor_seek rd (bit_position rd + n)).
  split; [now apply read_bits_value|].
  split; [apply cursor_seek_position|].
  split; [unfold cursor_ok; cbn; apply Z.mod_pos_bound; lia|].
  split; [exact Ho | reflexivity].
Qed.

(** Closed arithmetic facts, by evaluation. *)
Ltac by_eval := vm_compute; repeat split; first [discriminate | reflexivity].

Lemma example_buffer_shape : buffer_shape example_buffer.
Proof. apply shape_of_wf, example_buffer_wf. Qed.

Lemma read_bits_returns_field_witness :
  exists rd',
    bitbuf__read_bits libc_assert example_buffer
      (cursor_at (cursor_seek (write example_buffer) 3)) 60
    = Ret (bits_at (data example_buffer) 3 60, rd')
    /\ bit_position rd' = 3 + 60
    /\ cursor_ok rd'
    /\ owner rd' = true
    /\ read_past_end rd' = 0.
Proof.
  apply (read_bits_returns_field libc_assert example_buffer
           (cursor_at (cursor_seek (write example_buffer) 3)) 60).
  - apply example_buffer_shape.
  - reflexivity.
  - by_eval.
  - by_eval.
  - lia.
  - by_eval.
Defined.

(** X3. Records come back in the order they were written: on a
    well-formed, clean buffer that is open for writing, writing a list of
    fields (widths 1 to 64, each value fitting its width) that fits the
    remaining capacity with [bitbuf_write_n_bits] never truncates; after
    [bitbuf_cursor_init], reading the same widths with
    [bitbuf_read_n_bits] from where the writing began returns the values in
    order, each with the mask of its width, and leaves the read cursor
    where the write cursor stands. Fields may straddle segments. *)
Theorem record_roundtrip (cfg : assert_cfg) (b : bitbuf_buffer_t)
    (fields : list (Z * Z)) :
  buffer_wf b -> clean_tail b ->
  owner (write b) = false ->
  fields_ok fields ->
  bit_position (write b) + fields_bits fields <= 8 * capacity_bytes b ->
  exists b',
    write_fields cfg b fields = Ret b'
    /\ truncated b' = truncated b
    /\ bit_position (write b') = bit_position (write b) + fields_bits fields
    /\ read_fields cfg (frozen b') (cursor_at (write b)) (map fst fields)
       = Ret (fields_read fields, cursor_at (write b')).
Proof.
  intros Hwf Hcl Ho Hok Hcap.
  destruct (write_fields_append cfg fields b Hwf Hcl ltac:(now left) Hok Hcap)
    as (b' & Hw & Hwf' & Hcl' & Hc' & Ht' & Hcap' & Hl' & Hv').
  exists b'. split; [exact Hw|]. split; [exact Ht'|].
  split; [rewrite Hc'; apply cursor_seek_position|].
  pose proof (clean_tail_value b Hwf Hcl) as HV.
  pose proof (fields_value_range fields Hok) as HF.
  pose proof (fields_bits_nonneg fields Hok) as HB.
  pose proof (wf_bits b Hwf) as Hbits. pose proof (wf_seg b Hwf) as Hseg.
  rewrite (read_fields_value cfg (frozen b') fields (cursor_at (write b))).
  - rewrite Hc'. reflexivity.
  - now apply frozen_shape.
  - reflexivity.
  - apply Hseg.
  - exact Hbits.
  - exact Hok.
  - change (capacity_bytes (frozen b')) with (capacity_bytes b'). rewrite Hcap'.
    exact Hcap.
  - change (data (frozen b')) with (data b').
    change (bit_position (cursor_at (write b))) with (bit_position (write b)).
    unfold bits_at. rewrite Hv'. apply bits_at_top; try assumption.
    unfold bit_position. lia.
Qed.

Lemma record_roundtrip_witness :
  exists b',
    write_fields libc_assert example_buffer [(9, 300); (1, 1); (33, 5)] = Ret b'
    /\ truncated b' = truncated example_buffer
    /\ bit_position (write b')
       = bit_position (write example_buffer) + fields_bits [(9, 300); (1, 1); (33, 5)]
    /\ read_fields libc_assert (frozen b') (cursor_at (write example_buffer))
         (map fst [(9, 300); (1, 1); (33, 5)])
       = Ret (fields_read [(9, 300); (1, 1); (33, 5)], cursor_at (write b')).
Proof.
  apply (record_roundtrip libc_assert example_buffer [(9, 300); (1, 1); (33, 5)]).
  - apply example_buffer_wf.
  - apply example_buffer_clean.
  - reflexivity.
  - repeat constructor; cbn; lia.
  - vm_compute. discriminate.
Defined.

(** * The typed writers and readers *)

Section Typed.

Variable cfg : assert_cfg.

(** One field written into clean space and read back: what comes back is
    the datum cut to the width. *)
Lemma append_read (b : bitbuf_buffer_t) (datum n : Z) :
  buffer_wf b -> clean_tail b ->
  owner (write b) = false \/ assert_traps cfg = false ->
  1 <= n <= 64 ->
  0 <= datum ->
  bit_position (write b) + n <= 8 * capacity_bytes b ->
  exists b',
    bitbuf__write_bits cfg b datum n = Ret b'
    /\ buffer_wf b' /\ clean_tail b'
    /\ truncated b' = truncated b
    /\ write b' = cursor_seek (write b) (bit_position (write b) + n)
    /\ bitbuf__read_bits cfg (frozen b') (cursor_at (write b)) n
       = Ret (datum mod 2 ^ n, cursor_at (write b')).
Proof.
  intros Hwf Hcl Hfr Hn Hd Hcap.
  destruct (write_bits_append cfg b datum n Hwf Hcl Hfr Hn Hd Hcap)
    as (b' & Hw & Hwf' & Hcl' & Hc' & Ht' & Hcap' & Hl' & Hv').
  exists b'. splits; try assumption.
  pose proof (clean_tail_value b Hwf Hcl) as HV.
  pose proof (wf_bits b Hwf) as Hbits. pose proof (wf_seg b Hwf) as Hseg.
  pose proof (wf_capacity b Hwf) as Hc.
  rewrite read_bits_value.
  - change (data (frozen b')) with (data b').
    change (bit_position (cursor_at (write b))) with (bit_position (write b)).
    unfold bits_at. rewrite Hv', Hc'.
    rewrite bits_at_top; try assumption; try (unfold bit_position; lia).
    + reflexivity.
    + apply Z.mod_pos_bound, pow2_pos. lia.
  - now apply frozen_shape.
  - reflexivity.
  - change (data (frozen b')) with (data b'). rewrite Hl'.
    cbn [cursor_at seg]. unfold bit_position in Hcap. lia.
  - exact Hbits.
  - lia.
  - change (capacity_bytes (frozen b')) with (capacity_bytes b'). rewrite Hcap'.
    exact Hcap.
Qed.

Lemma u64_mod (z n : Z) : 0 <= n <= 64 -> u64 z mod 2 ^ n = z mod 2 ^ n.
Proof.
  intros Hn. unfold u64.
  replace (2 ^ 64) with (2 ^ n * 2 ^ (64 - n)).
  - rewrite Z.rem_mul_r by (try apply Z.pow_nonzero; try apply Z.lt_gt, pow2_pos; lia).
    rewrite Z.mul_comm, Z.mod_add; [apply Zmod_mod|].
    apply Z.pow_nonzero; lia.
  - rewrite <- Z.pow_add_r by lia. f_equal. lia.
Qed.

Lemma u64_range (z : Z) : 0 <= u64 z < 2 ^ 64.
Proof. apply Z.mod_pos_bound. lia. Qed.

End Typed.

(** X4. The typed writers and readers ([bitbuf_write_int8] ...
    [bitbuf_write_uint64] and their readers) are inverse to each other
    whatever the unused bytes of the writer's union hold: for a width of
    8, 16, 32 or 64 bits and a value of the type (two's complement range
    for a signed type), writing it into a well-formed, clean, open buffer
    with room and reading with the reader of the same type from where the
    write began returns the value; nothing is truncated. *)
Theorem typed_roundtrip (cfg : assert_cfg) (b : bitbuf_buffer_t)
    (width : Z) (signed : bool) (value junk : Z) :
  buffer_wf b -> clean_tail b ->
  owner (write b) = false ->
  In width [8; 16; 32; 64] ->
  (if signed then - 2 ^ (width - 1) <= value < 2 ^ (width - 1)
   else 0 <= value < 2 ^ width) ->
  bit_position (write b) + width <= 8 * capacity_bytes b ->
  exists b',
    bitbuf_write_type cfg width b value junk = Ret b'
    /\ truncated b' = truncated b
    /\ bitbuf_read_type cfg width signed (frozen b') (cursor_at (write b))
       = Ret (value, cursor_at (write b')).
Proof.
  intros Hwf Hcl Ho Hw Hv Hcap.
  assert (1 <= width <= 64) as Hwr.
  { cbn [In] in Hw. lia. }
  unfold bitbuf_write_type, bitbuf_read_type.
  set (datum := u64 (value mod 2 ^ width + 2 ^ width * junk)).
  pose proof (u64_range (value mod 2 ^ width + 2 ^ width * junk)) as Hd.
  fold datum in Hd.
  destruct (append_read cfg b datum width Hwf Hcl ltac:(now left) Hwr ltac:(lia) Hcap)
    as (b' & Hwb & _ & _ & Ht & _ & Hrd).
  exists b'. split; [exact Hwb|]. split; [exact Ht|].
  rewrite Hrd. cbn [bind fst snd]. do 2 f_equal.
  pose proof (pow2_pos width ltac:(lia)) as Hpw.
  assert (datum mod 2 ^ width = value mod 2 ^ width) as ->.
  { unfold datum. rewrite u64_mod by lia.
    rewrite (Z.mul_comm (2 ^ width)), Z.mod_add by lia. apply Zmod_mod. }
  rewrite Zmod_mod.
  assert (2 ^ width = 2 * 2 ^ (width - 1)) as Hp2.
  { rewrite <- Z.pow_succ_r by lia. f_equal. lia. }
  destruct signed; cbn [andb].
  - destruct (Z.lt_ge_cases value 0) as [Hneg|Hpos].
    + assert (value mod 2 ^ width = value + 2 ^ width) as ->.
      { symmetry. apply (Z.mod_unique _ _ (-1)); lia. }
      destruct (Z.leb_spec (2 ^ (width - 1)) (value + 2 ^ width)); lia.
    + rewrite Z.mod_small by lia.
      destruct (Z.leb_spec (2 ^ (width - 1)) value); lia.
  - apply Z.mod_small. lia.
Qed.

Lemma typed_roundtrip_witness :
  exists b',
    bitbuf_write_type libc_assert 32 example_buffer (-500000) 0xDEADBEEF = Ret b'
    /\ truncated b' = truncated example_buffer
    /\ bitbuf_read_type libc_assert 32 true (frozen b')
         (cursor_at (write example_buffer))
       = Ret (-500000, cursor_at (write b')).
Proof.
  apply (typed_roundtrip libc_assert example_buffer 32 true (-500000) 0xDEADBEEF).
  - apply example_buffer_wf.
  - apply example_buffer_clean.
  - reflexivity.
  - cbn [In]. lia.
  - by_eval.
  - by_eval.
Defined.

(** X5. [bitbuf_write_bool] and [bitbuf_read_bool] are inverse to each
    other on a well-formed buffer that is open for writing, has no bit
    set at or after its write position and has one bit of room: one bit
    is written, whatever the other seven bytes of the writer's union hold,
    nothing is truncated, and the reader, from where the write began,
    returns the bool that was written. (The writer ORs into the buffer,
    so over set bits a false would read back true.) *)
Theorem bool_roundtrip (cfg : assert_cfg) (b : bitbuf_buffer_t)
    (value : bool) (junk : Z) :
  buffer_wf b -> clean_tail b ->
  owner (write b) = false ->
  bit_position (write b) + 1 <= 8 * capacity_bytes b ->
  exists b',
    bitbuf_write_bool cfg b value junk = Ret b'
    /\ truncated b' = truncated b
    /\ bit_position (write b') = bit_position (write b) + 1
    /\ bitbuf_read_bool cfg (frozen b') (cursor_at (write b))
       = Ret (value, cursor_at (write b')).
Proof.
  intros Hwf Hcl Ho Hcap.
  unfold bitbuf_write_bool, bitbuf_read_bool.
  set (datum := u64 ((if value then 1 else 0) + 2 ^ 8 * junk)).
  pose proof (u64_range ((if value then 1 else 0) + 2 ^ 8 * junk)) as Hd.
  fold datum in Hd.
  destruct (append_read cfg b datum 1 Hwf Hcl ltac:(now left) ltac:(lia) ltac:(lia) Hcap)
    as (b' & Hwb & _ & _ & Ht & Hc & Hrd).
  exists b'. split; [exact Hwb|]. split; [exact Ht|].
  split; [rewrite Hc; apply cursor_seek_position|].
  rewrite Hrd. cbn [bind fst snd].
  assert (datum mod 2 ^ 1 = if value then 1 else 0) as ->.
  { unfold datum. rewrite u64_mod by lia.
    replace (2 ^ 8 * junk) with ((2 ^ 7 * junk) * 2 ^ 1) by (change (2 ^ 8) with (2 ^ 7 * 2 ^ 1); ring).
    rewrite Z.mod_add by lia. now destruct value. }
  now destruct value.
Qed.

Lemma bool_roundtrip_witness :
  exists b',
    bitbuf_write_bool libc_assert example_buffer true 0xABCDEF = Ret b'
    /\ truncated b' = truncated example_buffer
    /\ bit_position (write b') = bit_position (write example_buffer) + 1
    /\ bitbuf_read_bool libc_assert (frozen b') (cursor_at (write example_buffer))
       = Ret (true, cursor_at (write b')).
Proof.
  apply (bool_roundtrip libc_assert example_buffer true 0xABCDEF).
  - apply example_buffer_wf.
  - apply example_buffer_clean.
  - reflexivity.
  - by_eval.
Defined.

(** * Strings *)

Section Strings.

Variable cfg : assert_cfg.

Lemma bits_at_split (d : list Z) (p n m : Z) :
  0 <= p -> 0 <= n -> 0 <= m ->
  bits_at d p (n + m) = bits_at d p n + 2 ^ n * bits_at d (p + n) m.
Proof.
  intros Hp Hn Hm. unfold bits_at.
  pose proof (pow2_pos p Hp). pose proof (pow2_pos n Hn). pose proof (pow2_pos m Hm).
  rewrite (Z.pow_add_r 2 n m), Z.rem_mul_r by lia.
  now rewrite (Z.pow_add_r 2 p n), <- Z.div_div by lia.
Qed.

Lemma bits_at_range (d : list Z) (p n : Z) : 0 <= n -> 0 <= bits_at d p n < 2 ^ n.
Proof. intros Hn. apply Z.mod_pos_bound, pow2_pos, Hn. Qed.

Lemma split_unique (n a x c y : Z) :
  0 <= n -> 0 <= a < 2 ^ n -> 0 <= c < 2 ^ n ->
  a + 2 ^ n * x = c + 2 ^ n * y -> a = c /\ x = y.
Proof.
  intros Hn Ha Hc H.
  assert (a = c) as E.
  { apply (f_equal (fun z => z mod 2 ^ n)) in H.
    now rewrite !split_low in H by lia. }
  split; [exact E|]. subst c. pose proof (pow2_pos n Hn). nia.
Qed.

Lemma cstr_bytes_range (str : list byte) :
  Forall (fun c => 0 < c < 256) (cstr_bytes str).
Proof.
  induction str as [|c p IH]; cbn [cstr_bytes]; [constructor|].
  destruct (Z.eqb_spec (byte.unsigned c) 0) as [E|E]; [constructor|].
  constructor; [|exact IH]. pose proof (byte_range c). lia.
Qed.

Lemma le_digits_range (cs : list Z) :
  Forall (fun c => 0 < c < 256) cs ->
  0 <= le_digits cs < 2 ^ (8 * Z.of_nat (length cs)).
Proof.
  induction 1 as [|c t Hc _ IH]; cbn [le_digits length]; [cbn; lia|].
  replace (8 * Z.of_nat (S (length t))) with (8 + 8 * Z.of_nat (length t)) by lia.
  rewrite Z.pow_add_r by lia. change (2 ^ 8) with 256 in *. lia.
Qed.

Lemma char_to_u64_low (c : byte) : char_to_u64 c mod 2 ^ 8 = byte.unsigned c.
Proof.
  unfold char_to_u64. rewrite u64_mod by lia. pose proof (byte_range c) as H.
  destruct (Z.leb_spec 128 (byte.unsigned c)).
  - symmetry. apply (Z.mod_unique _ _ (-1)); lia.
  - apply Z.mod_small. lia.
Qed.

(** [bitbuf_write_cstr] with room for the string and its terminator. *)
Lemma write_cstr_append (str : list byte) : forall b : bitbuf_buffer_t,
  buffer_wf b -> clean_tail b ->
  owner (write b) = false \/ assert_traps cfg = false ->
  bit_position (write b) + 8 * (Z.of_nat (length (cstr_bytes str)) + 1)
    <= 8 * capacity_bytes b ->
  exists b',
    bitbuf_write_cstr cfg b str = Ret b'
    /\ buffer_wf b' /\ clean_tail b'
    /\ write b' = cursor_seek (write b)
                    (bit_position (write b)
                     + 8 * (Z.of_nat (length (cstr_bytes str)) + 1))
    /\ truncated b' = truncated b
    /\ capacity_bytes b' = capacity_bytes b
    /\ length (data b') = length (data b)
    /\ segments_value (data b')
       = segments_value (data b)
         + 2 ^ bit_position (write b) * le_digits (cstr_bytes str).
Proof.
  assert (forall b : bitbuf_buffer_t,
    buffer_wf b -> clean_tail b ->
    owner (write b) = false \/ assert_traps cfg = false ->
    bit_position (write b) + 8 * (0 + 1) <= 8 * capacity_bytes b ->
    exists b',
      bitbuf__write_bits cfg b 0 8 = Ret b'
      /\ buffer_wf b' /\ clean_tail b'
      /\ write b' = cursor_seek (write b) (bit_position (write b) + 8 * (0 + 1))
      /\ truncated b' = truncated b
      /\ capacity_bytes b' = capacity_bytes b
      /\ length (data b') = length (data b)
      /\ segments_value (data b')
         = segments_value (data b) + 2 ^ bit_position (write b) * 0) as Hterm.
  { intros b Hwf Hcl Hfr Hcap.
    destruct (write_bits_append cfg b 0 8 Hwf Hcl Hfr ltac:(lia) ltac:(lia) ltac:(lia))
      as (b' & Hw & Hwf' & Hcl' & Hc' & Ht' & Hcap' & Hl' & Hv').
    exists b'. splits; first [assumption | rewrite Hv'; reflexivity]. }
  induction str as [|c p IH]; intros b Hwf Hcl Hfr Hcap;
    cbn [bitbuf_write_cstr cstr_bytes] in *.
  - now apply Hterm.
  - destruct (Z.eqb_spec (byte.unsigned c) 0) as [E|E].
    + now apply Hterm.
    + cbn [length le_digits] in *.
      pose proof (byte_range c) as Hcr.
      assert (0 <= char_to_u64 c) as Hd by (apply u64_range).
      destruct (write_bits_append cfg b (char_to_u64 c) 8 Hwf Hcl Hfr
                  ltac:(lia) Hd ltac:(lia))
        as (b1 & Hw1 & Hwf1 & Hcl1 & Hc1 & Ht1 & Hcap1 & Hl1 & Hv1).
      assert (bit_position (write b1) = bit_position (write b) + 8) as Hp1
        by (rewrite Hc1; apply cursor_seek_position).
      assert (owner (write b1) = owner (write b)) as Ho1 by (now rewrite Hc1).
      destruct (IH b1 Hwf1 Hcl1 ltac:(now rewrite Ho1) ltac:(lia))
        as (b' & Hw' & Hwf' & Hcl' & Hc' & Ht' & Hcap' & Hl' & Hv').
      exists b'. rewrite Hw1. cbn [bind].
      split; [exact Hw'|]. split; [exact Hwf'|]. split; [exact Hcl'|].
      split.
      { rewrite Hc', Hp1, Hc1.
        change (cursor_seek (cursor_seek ?x ?y) ?q) with (cursor_seek x q).
        f_equal. lia. }
      split; [congruence|]. split; [congruence|]. split; [congruence|].
      rewrite Hv', Hv1, Hp1, char_to_u64_low.
      pose proof (wf_bits b Hwf). pose proof (wf_seg b Hwf).
      rewrite Z.pow_add_r by (unfold bit_position; lia). ring.
Qed.

Lemma read_byte_value (b : bitbuf_buffer_t) (rd : bitbuf_cursor_t) :
  buffer_shape b ->
  owner rd = true -> 0 <= seg rd -> cursor_ok rd ->
  bit_position rd + 8 <= 8 * capacity_bytes b ->
  bitbuf__read_bits cfg b rd 8 =
  Ret (bits_at (data b) (bit_position rd) 8, cursor_seek rd (bit_position rd + 8)).
Proof.
  intros Hsh Ho Hseg Hk Hcap. pose proof (sh_capacity b Hsh).
  apply read_bits_value; try assumption; try lia.
  unfold bit_position, cursor_ok in *. lia.
Qed.

(** [bitbuf_read_cstr] on a string that stands in the buffer with its
    terminator, when [max_bytes] has room for both. *)
Lemma read_cstr_loop_value (b : bitbuf_buffer_t) (cs : list Z) :
  forall (fuel : nat) (rd : bitbuf_cursor_t) (out : list Z),
  buffer_shape b ->
  owner rd = true -> 0 <= seg rd -> cursor_ok rd ->
  Forall (fun c => 0 < c < 256) cs ->
  bit_position rd + 8 * (Z.of_nat (length cs) + 1) <= 8 * capacity_bytes b ->
  bits_at (data b) (bit_position rd) (8 * (Z.of_nat (length cs) + 1)) = le_digits cs ->
  (length cs < fuel)%nat ->
  bitbuf_read_cstr_loop cfg b rd fuel out =
  Ret (out ++ cs ++ [0],
       cursor_seek rd (bit_position rd + 8 * (Z.of_nat (length cs) + 1))).
Proof.
  induction cs as [|c t IH]; intros fuel rd out Hsh Ho Hseg Hk Hcs Hcap Hbits Hfuel;
    (destruct fuel as [|fuel]; [cbn [length] in Hfuel; lia|]);
    cbn [bitbuf_read_cstr_loop length le_digits] in *;
    assert (0 <= bit_position rd) as Hp0
      by (unfold bit_position, cursor_ok in *; lia).
  - rewrite read_byte_value by (assumption || lia). cbn [bind fst snd].
    change (8 * (Z.of_nat 0 + 1)) with 8 in *. rewrite Hbits. reflexivity.
  - apply Forall_cons in Hcs. destruct Hcs as [Hc Ht].
    rewrite read_byte_value by (assumption || lia). cbn [bind fst snd].
    replace (8 * (Z.of_nat (S (length t)) + 1))
      with (8 + 8 * (Z.of_nat (length t) + 1)) in * by lia.
    rewrite bits_at_split in Hbits by lia.
    apply split_unique in Hbits; [|lia|apply bits_at_range; lia|change (2 ^ 8) with 256; lia].
    destruct Hbits as [Hlow Hhigh]. rewrite Hlow.
    change 0xFF with (2 ^ 8 - 1). rewrite land_mask, Z.mod_small
      by (change (2 ^ 8) with 256; lia).
    destruct (Z.eqb_spec c 0) as [?|_]; [lia|].
    rewrite (IH fuel (cursor_seek rd (bit_position rd + 8))); try assumption.
    + rewrite cursor_seek_position, <- app_assoc. cbn [app].
      do 2 f_equal.
      change (cursor_seek (cursor_seek ?x ?y) ?q) with (cursor_seek x q).
      f_equal. lia.
    + cbn. pose proof (Z.div_pos (bit_position rd + 8) 64). lia.
    + unfold cursor_ok. cbn. apply Z.mod_pos_bound. lia.
    + rewrite cursor_seek_position. lia.
    + rewrite cursor_seek_position. exact Hhigh.
    + lia.
Qed.

(** ... and when [max_bytes] is used up before the terminator is
    reached: [out_str[0]] is set to zero and the cursor stays behind the
    last byte read. *)
Lemma read_cstr_loop_short (b : bitbuf_buffer_t) (cs : list Z) :
  forall (fuel : nat) (rd : bitbuf_cursor_t) (out : list Z),
  buffer_shape b ->
  owner rd = true -> 0 <= seg rd -> cursor_ok rd ->
  Forall (fun c => 0 < c < 256) cs ->
  bit_position rd + 8 * (Z.of_nat (length cs) + 1) <= 8 * capacity_bytes b ->
  bits_at (data b) (bit_position rd) (8 * (Z.of_nat (length cs) + 1)) = le_digits cs ->
  (fuel <= length cs)%nat ->
  bitbuf_read_cstr_loop cfg b rd fuel out =
  Ret (match out ++ take fuel cs with [] => [0] | _ :: t => 0 :: t end,
       cursor_seek rd (bit_position rd + 8 * Z.of_nat fuel)).
Proof.
  induction cs as [|c t IH]; intros fuel rd out Hsh Ho Hseg Hk Hcs Hcap Hbits Hfuel;
    (destruct fuel as [|fuel];
     [rewrite take_0, app_nil_r, Z.mul_0_r, Z.add_0_r, cursor_position_seek by assumption;
      reflexivity|]);
    [cbn [length] in Hfuel; lia|].
  cbn [bitbuf_read_cstr_loop length le_digits] in *.
  assert (0 <= bit_position rd) as Hp0
    by (unfold bit_position, cursor_ok in *; lia).
  apply Forall_cons in Hcs. destruct Hcs as [Hc Ht].
  rewrite read_byte_value by (assumption || lia). cbn [bind fst snd].
  replace (8 * (Z.of_nat (S (length t)) + 1))
    with (8 + 8 * (Z.of_nat (length t) + 1)) in * by lia.
  rewrite bits_at_split in Hbits by lia.
  apply split_unique in Hbits; [|lia|apply bits_at_range; lia|change (2 ^ 8) with 256; lia].
  destruct Hbits as [Hlow Hhigh]. rewrite Hlow.
  change 0xFF with (2 ^ 8 - 1). rewrite land_mask, Z.mod_small
    by (change (2 ^ 8) with 256; lia).
  destruct (Z.eqb_spec c 0) as [?|_]; [lia|].
  rewrite (IH fuel (cursor_seek rd (bit_position rd + 8))); try assumption.
  - rewrite cursor_seek_position, <- app_assoc. cbn [app take firstn].
    do 2 f_equal.
    change (cursor_seek (cursor_seek ?x ?y) ?q) with (cursor_seek x q).
    f_equal. lia.
  - cbn. pose proof (Z.div_pos (bit_position rd + 8) 64). lia.
  - unfold cursor_ok. cbn. apply Z.mod_pos_bound. lia.
  - rewrite cursor_seek_position. lia.
  - rewrite cursor_seek_position. exact Hhigh.
  - lia.
Qed.

End Strings.

(** X6. A string written with [bitbuf_write_cstr] comes back from
    [bitbuf_read_cstr]: on a well-formed buffer that is open for writing
    and has no bit set at or after its write position, with room for the
    bytes of the string and the terminator, the write does not truncate
    and moves the cursor on by 8 bits for each of them; a read from where
    the write began with [max_bytes] above the length of the string stores
    the bytes and the terminator in [out_str] and ends where the write
    ended. With
    [max_bytes] at most the length of the string the read stops after
    [max_bytes] bytes, stores 0 in [out_str[0]] (also for [max_bytes] 0)
    and leaves the cursor behind the last byte read. *)
Theorem cstr_roundtrip (cfg : assert_cfg) (b : bitbuf_buffer_t) (str : list byte)
    (max_bytes : nat) :
  buffer_wf b -> clean_tail b ->
  owner (write b) = false ->
  bit_position (write b) + 8 * (Z.of_nat (length (cstr_bytes str)) + 1)
    <= 8 * capacity_bytes b ->
  exists b',
    bitbuf_write_cstr cfg b str = Ret b'
    /\ truncated b' = truncated b
    /\ bit_position (write b')
       = bit_position (write b) + 8 * (Z.of_nat (length (cstr_bytes str)) + 1)
    /\ bitbuf_read_cstr cfg (frozen b') (cursor_at (write b)) max_bytes
       = if (length (cstr_bytes str) <? max_bytes)%nat
         then Ret (cstr_bytes str ++ [0], cursor_at (write b'))
         else Ret (match take max_bytes (cstr_bytes str) with
                   | [] => [0]
                   | _ :: t => 0 :: t
                   end,
                   cursor_seek (cursor_at (write b))
                     (bit_position (write b) + 8 * Z.of_nat max_bytes)).
Proof.
  intros Hwf Hcl Ho Hcap.
  destruct (write_cstr_append cfg str b Hwf Hcl ltac:(now left) Hcap)
    as (b' & Hw & Hwf' & Hcl' & Hc' & Ht' & Hcap' & Hl' & Hv').
  exists b'. split; [exact Hw|]. split; [exact Ht'|].
  split; [rewrite Hc'; apply cursor_seek_position|].
  pose proof (clean_tail_value b Hwf Hcl) as HV.
  pose proof (cstr_bytes_range str) as Hcs.
  pose proof (le_digits_range _ Hcs) as HL.
  pose proof (wf_bits b Hwf) as Hbits. pose proof (wf_seg b Hwf) as Hseg.
  assert (bits_at (data (frozen b')) (bit_position (cursor_at (write b)))
            (8 * (Z.of_nat (length (cstr_bytes str)) + 1))
          = le_digits (cstr_bytes str)) as Hat.
  { change (data (frozen b')) with (data b').
    change (bit_position (cursor_at (write b))) with (bit_position (write b)).
    unfold bits_at. rewrite Hv'. apply bits_at_top; try assumption.
    - unfold bit_position. lia.
    - lia.
    - split; [lia|]. eapply Z.lt_le_trans; [apply HL|]. apply pow2_le. lia. }
  assert (bit_position (cursor_at (write b))
          + 8 * (Z.of_nat (length (cstr_bytes str)) + 1)
          <= 8 * capacity_bytes (frozen b')) as Hcapf.
  { change (capacity_bytes (frozen b')) with (capacity_bytes b'). rewrite Hcap'.
    exact Hcap. }
  unfold bitbuf_read_cstr.
  destruct (Nat.ltb_spec (length (cstr_bytes str)) max_bytes) as [Hmax|Hmax].
  - rewrite (read_cstr_loop_value cfg (frozen b') (cstr_bytes str)); try assumption.
    + rewrite Hc'. reflexivity.
    + now apply frozen_shape.
    + reflexivity.
    + apply Hseg.
  - rewrite (read_cstr_loop_short cfg (frozen b') (cstr_bytes str)); try assumption.
    + reflexivity.
    + now apply frozen_shape.
    + reflexivity.
    + apply Hseg.
Qed.

Lemma cstr_roundtrip_witness :
  let str := [byte.of_Z 97; byte.of_Z 98; byte.of_Z 0; byte.of_Z 99] in
  exists b',
    bitbuf_write_cstr libc_assert example_buffer str = Ret b'
    /\ truncated b' = truncated example_buffer
    /\ bit_position (write b')
       = bit_position (write example_buffer)
         + 8 * (Z.of_nat (length (cstr_bytes str)) + 1)
    /\ bitbuf_read_cstr libc_assert (frozen b') (cursor_at (write example_buffer)) 3
       = if (length (cstr_bytes str) <? 3)%nat
         then Ret (cstr_bytes str ++ [0], cursor_at (write b'))
         else Ret (match take 3 (cstr_bytes str) with
                   | [] => [0]
                   | _ :: t => 0 :: t
                   end,
                   cursor_seek (cursor_at (write example_buffer))
                     (bit_position (write example_buffer) + 8 * Z.of_nat 3)).
Proof.
  cbn zeta.
  apply (cstr_roundtrip libc_assert example_buffer
           [byte.of_Z 97; byte.of_Z 98; byte.of_Z 0; byte.of_Z 99] 3).
  - apply example_buffer_wf.
  - apply example_buffer_clean.
  - reflexivity.
  - by_eval.
Defined.

(** * Padding to a byte *)

Section Padding.

Variable cfg : assert_cfg.

Lemma segments_value_inj (d : list Z) : forall d' : list Z,
  Forall (fun x => 0 <= x < 2 ^ 64) d ->
  Forall (fun x => 0 <= x < 2 ^ 64) d' ->
  length d = length d' ->
  segments_value d = segments_value d' -> d = d'.
Proof.
  induction d as [|x t IH]; intros [|y u] Hd Hd' Hl Hv; try discriminate Hl;
    [reflexivity|].
  apply Forall_cons in Hd. apply Forall_cons in Hd'.
  destruct Hd as [Hx Ht], Hd' as [Hy Hu]. cbn [segments_value] in Hv.
  apply split_unique in Hv; [|lia|assumption|assumption].
  destruct Hv as [-> Hv]. f_equal. apply IH; try assumption.
  now injection Hl.
Qed.

Lemma align_up_delta_8 (k : Z) : BITBUF__ALIGN_UP_DELTA k 8 = (8 - k) mod 8.
Proof.
  unfold BITBUF__ALIGN_UP_DELTA. change (8 - 1) with (2 ^ 3 - 1).
  now rewrite land_mask by lia.
Qed.

Lemma pad_amount (k : Z) : k + (8 - k) mod 8 = 8 * ((k + 7) / 8).
Proof. Z.div_mod_to_equations. lia. Qed.

(** [bitbuf_pad_to_byte] on a buffer with a clean tail. *)
Lemma pad_to_byte_value (b : bitbuf_buffer_t) :
  buffer_wf b -> clean_tail b ->
  owner (write b) = false \/ assert_traps cfg = false ->
  exists b',
    bitbuf_pad_to_byte cfg b = Ret b'
    /\ buffer_wf b' /\ clean_tail b'
    /\ data b' = data b
    /\ truncated b' = truncated b
    /\ capacity_bytes b' = capacity_bytes b
    /\ write b' = cursor_seek (write b) (8 * ((bit_position (write b) + 7) / 8)).
Proof.
  intros Hwf Hcl Hfr. pose proof Hwf as [Hc Hs Hseg Hbits Hend Hdata Htr].
  unfold bitbuf_pad_to_byte. rewrite align_up_delta_8.
  set (k := bits_into_seg (write b)) in *. set (s := seg (write b)) in *.
  pose proof (Z.mod_pos_bound (8 - k) 8 ltac:(lia)) as Hdl.
  pose proof (pad_amount k) as Hpad.
  assert (8 * ((bit_position (write b) + 7) / 8) = bit_position (write b) + (8 - k) mod 8)
    as Hpos.
  { unfold bit_position. fold s k.
    replace (64 * s + k + 7) with (k + 7 + (8 * s) * 8) by lia.
    rewrite Z.div_add by lia. lia. }
  rewrite Hpos.
  destruct (Z.eqb_spec ((8 - k) mod 8) 0) as [E|E]; cbn [negb].
  - exists b. rewrite E, Z.add_0_r, cursor_position_seek by exact Hbits.
    now splits.
  - assert (bit_position (write b) + (8 - k) mod 8 <= 8 * capacity_bytes b) as Hcap.
    { unfold bit_position. fold s k.
      destruct (Z.eq_dec s (Z.of_nat (length (data b)))) as [Es|Es].
      - specialize (Hend Es). Z.div_mod_to_equations. lia.
      - assert (k + (8 - k) mod 8 <= 64) by (rewrite Hpad; Z.div_mod_to_equations; lia).
        lia. }
    destruct (write_bits_append cfg b 0 ((8 - k) mod 8) Hwf Hcl Hfr
                ltac:(lia) ltac:(lia) Hcap)
      as (b' & Hw & Hwf' & Hcl' & Hc' & Ht' & Hcap' & Hl' & Hv').
    exists b'. splits; try assumption.
    apply segments_value_inj; try assumption.
    + apply (wf_data b' Hwf').
    + rewrite Hv', Z.mod_0_l by (apply Z.pow_nonzero; lia). lia.
Qed.

(** [bitbuf_skip_byte_padding] on a cursor inside the buffer. *)
Lemma skip_byte_padding_value (b : bitbuf_buffer_t) (rd : bitbuf_cursor_t) :
  buffer_shape b -> cursor_wf b rd ->
  bitbuf_skip_byte_padding cfg b rd
  = Ret (cursor_seek rd (8 * ((bit_position rd + 7) / 8))).
Proof.
  intros [Hc Hs Hd] [Ho Hseg Hbits Hend].
  unfold bitbuf_skip_byte_padding.
  rewrite valid_read_cursor by assumption. cbn [bind].
  rewrite c_assert_true. cbn [bind].
  cbn [set_bits bits_into_seg]. rewrite align_up_8.
  change BITBUF__SEG_BITS with 64.
  set (k := bits_into_seg rd) in *. set (s := seg rd) in *.
  assert (0 <= 8 * ((k + 7) / 8) <= 64) as Hr by (Z.div_mod_to_equations; lia).
  assert (k <= 8 * ((k + 7) / 8)) as Hge by (Z.div_mod_to_equations; lia).
  assert (8 * ((bit_position rd + 7) / 8) = 64 * s + 8 * ((k + 7) / 8)) as ->.
  { unfold bit_position. fold s k.
    replace (64 * s + k + 7) with (k + 7 + (8 * s) * 8) by lia.
    rewrite Z.div_add by lia. lia. }
  pass_assert.
  destruct (Z.eqb_spec (8 * ((k + 7) / 8)) 64) as [E|E].
  - cbn [bitbuf__advance_cursor owner seg set_bits]. rewrite Ho. cbn [negb].
    assert (s <> Z.of_nat (length (data b))) as Hne.
    { intros Es. specialize (Hend Es). Z.div_mod_to_equations. lia. }
    rewrite bits_remaining_ok
      by (cbn [seg bitbuf__advance_cursor set_bits]; fold s; assumption || lia).
    cbn [bind seg bits_into_seg bitbuf__advance_cursor set_bits]. fold s.
    pass_assert. f_equal. symmetry. apply cursor_seek_eq; unfold bit_position;
      cbn [seg bits_into_seg owner read_past_end bitbuf__advance_cursor set_bits];
      fold s; lia || reflexivity.
  - cbn [owner set_bits]. rewrite Ho. cbn [negb].
    rewrite bits_remaining_ok
      by (cbn [seg set_bits]; fold s; assumption || lia).
    cbn [bind seg bits_into_seg set_bits]. fold s.
    pass_assert. f_equal. symmetry.
    apply cursor_seek_eq; unfold bit_position;
      cbn [seg bits_into_seg owner read_past_end set_bits]; fold s;
      lia || reflexivity.
Qed.

End Padding.

(** X7. [bitbuf_pad_to_byte] and [bitbuf_skip_byte_padding] are
    reciprocal: on a well-formed, clean, open buffer the padding always
    has room (it never truncates), writes only zero bits (the data do not
    change) and leaves the write position at the next multiple of 8, or
    where it was if that was a multiple of 8 already; skipping the padding
    with a read cursor that stands where the write cursor stood brings it
    to where the write cursor stands now. *)
Theorem pad_skip_reciprocal (cfg : assert_cfg) (b : bitbuf_buffer_t) :
  buffer_wf b -> clean_tail b ->
  owner (write b) = false ->
  exists b',
    bitbuf_pad_to_byte cfg b = Ret b'
    /\ data b' = data b
    /\ truncated b' = truncated b
    /\ bit_position (write b') = 8 * ((bit_position (write b) + 7) / 8)
    /\ bitbuf_skip_byte_padding cfg (frozen b') (cursor_at (write b))
       = Ret (cursor_at (write b')).
Proof.
  intros Hwf Hcl Ho.
  destruct (pad_to_byte_value cfg b Hwf Hcl ltac:(now left))
    as (b' & Hp & Hwf' & Hcl' & Hd' & Ht' & Hcap' & Hc').
  exists b'. split; [exact Hp|]. split; [exact Hd'|]. split; [exact Ht'|].
  split; [rewrite Hc'; apply cursor_seek_position|].
  rewrite skip_byte_padding_value.
  - rewrite Hc'. reflexivity.
  - now apply frozen_shape.
  - pose proof Hwf as [Hc Hs Hseg Hbits Hend Hdata Htr].
    constructor; change (data (frozen b')) with (data b'); rewrite ?Hd';
      cbn [cursor_at owner seg bits_into_seg]; auto.
Qed.

Lemma pad_skip_reciprocal_witness :
  exists b',
    bitbuf_pad_to_byte libc_assert example_buffer = Ret b'
    /\ data b' = data example_buffer
    /\ truncated b' = truncated example_buffer
    /\ bit_position (write b') = 8 * ((bit_position (write example_buffer) + 7) / 8)
    /\ bitbuf_skip_byte_padding libc_assert (frozen b')
         (cursor_at (write example_buffer))
       = Ret (cursor_at (write b')).
Proof.
  apply (pad_skip_reciprocal libc_assert example_buffer).
  - apply example_buffer_wf.
  - apply example_buffer_clean.
  - reflexivity.
Defined.

(** * Reading at the end of the buffer *)

Section ReadAtEnd.

Variable cfg : assert_cfg.

Lemma load_seg_outside (d : list Z) (i : Z) :
  Z.of_nat (length d) <= i -> load_seg d i = Undefined.
Proof.
  intros Hi. unfold load_seg. destruct (Z.ltb_spec i 0); [reflexivity|].
  rewrite lookup_ge_None_2; [reflexivity | lia].
Qed.

(** A read that reaches beyond the last segment from a cursor of the
    buffer is not caught by the check against
    [bitbuf__bits_remaining_for_cursor], which counts one segment too
    many, and loads [data[capacity_bytes / 8]]. *)
Lemma read_beyond (b : bitbuf_buffer_t) (rd : bitbuf_cursor_t) (n : Z) :
  buffer_shape b -> cursor_wf b rd ->
  n <= 64 ->
  8 * capacity_bytes b < bit_position rd + n ->
  bitbuf__read_bits cfg b rd n = Undefined.
Proof.
  intros [Hc Hs Hd] [Ho Hseg Hbits Hend] Hn Hcap.
  unfold bit_position in Hcap.
  unfold bitbuf__read_bits.
  rewrite valid_read_cursor by assumption. cbn [bind].
  rewrite c_assert_true. cbn [bind]. pass_assert.
  destruct (Z.gtb_spec n 64) as [?|_]; [lia|].
  rewrite Ho. cbn [negb].
  rewrite bits_remaining_ok by assumption. cbn [bind].
  change BITBUF__SEG_BITS with 64.
  set (k := bits_into_seg rd) in *. set (s := seg rd) in *.
  set (len := Z.of_nat (length (data b))) in *.
  destruct (Z.eq_dec s len) as [Es|Es].
  - specialize (Hend Es).
    destruct (Z.ltb_spec ((len - s) * 64 + (64 - k)) n) as [?|_]; [lia|].
    destruct (Z.leb_spec n (64 - k)) as [_|?]; [|lia].
    rewrite spanmask_spec by lia. cbn [bind].
    rewrite Hend. rewrite shl64_small; try lia.
    2:{ pose proof (pow2_le n 64 ltac:(lia)). change (2 ^ 0) with 1. lia. }
    cbn [bind]. rewrite load_seg_outside by (fold len; lia). reflexivity.
  - assert (s = len - 1) as Es1 by lia.
    destruct (lookup_lt_is_Some_2 (data b) (Z.to_nat s) ltac:(lia)) as [z Hz].
    pose proof (Forall_lookup_1 _ _ _ _ Hd Hz) as Hzr. cbn beta in Hzr.
    set (R := 64 - k) in *.
    destruct (Z.ltb_spec ((len - s) * 64 + R) n) as [?|_]; [lia|].
    destruct (Z.leb_spec n R) as [?|_]; [lia|].
    rewrite (spanmask_spec R) by lia. cbn [bind].
    replace (64 - R) with k by lia.
    pose proof (pow2_pos k ltac:(lia)) as Hpk.
    pose proof (pow2_pos R ltac:(lia)) as HpR.
    assert (2 ^ 64 = 2 ^ k * 2 ^ R) as Hp.
    { rewrite <- Z.pow_add_r by lia. f_equal. lia. }
    rewrite shl64_small by (lia || nia). cbn [bind].
    rewrite (load_seg_lookup _ _ z) by (assumption || lia). cbn [bind].
    rewrite shr64_spec by lia. cbn [bind].
    pass_assert.
    rewrite bits_remaining_ok
      by (cbn [seg bitbuf__advance_cursor]; fold s len; assumption || lia).
    cbn [bind seg bits_into_seg bitbuf__advance_cursor]. fold s len.
    pass_assert.
    rewrite (spanmask_spec (n - R)) by lia. cbn [bind].
    rewrite load_seg_outside by (fold len; lia). reflexivity.
Qed.

End ReadAtEnd.

(** X8. A read that reaches beyond the capacity is not reported: for a
    read cursor of the buffer (on a segment, or just behind the last one
    as a read of the last bits leaves it) and a width of at most 64 bits
    that ends beyond the capacity, [bitbuf__read_bits] does not take its
    "read past end of buffer" branch, because
    [bitbuf__bits_remaining_for_cursor] counts 64 bits more than are left;
    it loads the segment behind the last one, which is outside the
    buffer. This holds whatever the assertion hooks do. *)
Theorem read_beyond_capacity_unchecked (cfg : assert_cfg) (b : bitbuf_buffer_t)
    (rd : bitbuf_cursor_t) (n : Z) :
  buffer_shape b -> cursor_wf b rd ->
  n <= 64 ->
  8 * capacity_bytes b < bit_position rd + n ->
  bitbuf__read_bits cfg b rd n = Undefined.
Proof. apply read_beyond. Qed.

Lemma read_beyond_capacity_unchecked_witness :
  let b := {| data := [0xFF]; capacity_bytes := 8; truncated := 0;
              write := {| seg := 1; bits_into_seg := 0; owner := true;
                          read_past_end := 0 |} |} in
  let rd := {| seg := 1; bits_into_seg := 0; owner := true; read_past_end := 0 |} in
  bitbuf__read_bits libc_assert b rd 64 = Undefined.
Proof.
  cbn zeta.
  apply (read_beyond_capacity_unchecked libc_assert
           {| data := [0xFF]; capacity_bytes := 8; truncated := 0;
              write := {| seg := 1; bits_into_seg := 0; owner := true;
                          read_past_end := 0 |} |}
           {| seg := 1; bits_into_seg := 0; owner := true; read_past_end := 0 |} 64).
  - constructor; [reflexivity | by_eval | repeat constructor; by_eval].
  - constructor; [reflexivity | by_eval | by_eval | reflexivity].
  - lia.
  - by_eval.
Defined.

(** * The read-past-end flag *)

Section ReadPastEnd.

Variable cfg : assert_cfg.

Lemma load_seg_inv (d : list Z) (i x : Z) :
  load_seg d i = Ret x -> 0 <= i < Z.of_nat (length d).
Proof.
  unfold load_seg. destruct (Z.ltb_spec i 0); [discriminate|].
  destruct (d !! Z.to_nat i) eqn:E; [|discriminate].
  intros _. apply lookup_lt_Some in E. lia.
Qed.

Lemma cursor_wf_length (b b' : bitbuf_buffer_t) (c : bitbuf_cursor_t) :
  length (data b') = length (data b) -> cursor_wf b c -> cursor_wf b' c.
Proof. intros Hl [Ho Hs Hk He]. constructor; rewrite ?Hl; assumption. Qed.

(** A read that returns leaves a cursor of the buffer a cursor of the
    buffer, and does not touch [read_past_end]. *)
Lemma read_bits_wf (b : bitbuf_buffer_t) (rd rd' : bitbuf_cursor_t) (n v : Z) :
  capacity_bytes b = 8 * Z.of_nat (length (data b)) ->
  capacity_bytes b < 2 ^ 60 ->
  cursor_wf b rd ->
  bitbuf__read_bits cfg b rd n = Ret (v, rd') ->
  cursor_wf b rd' /\ read_past_end rd' = read_past_end rd.
Proof.
  intros Hc Hs Hwf H. pose proof Hwf as [Ho Hseg Hbits Hend].
  unfold bitbuf__read_bits in H.
  rewrite valid_read_cursor in H by assumption. cbn [bind] in H.
  rewrite c_assert_true in H. cbn [bind] in H.
  inv_step H. inv_step H.
  { injection H as _ <-. now split. }
  rewrite Ho in H. cbn [negb] in H.
  rewrite bits_remaining_ok in H by assumption. cbn [bind] in H.
  change BITBUF__SEG_BITS with 64 in *.
  set (k := bits_into_seg rd) in *. set (s := seg rd) in *.
  set (len := Z.of_nat (length (data b))) in *.
  rewrite Z.gtb_ltb in E0. apply Z.ltb_ge in E0.
  destruct (Z.ltb_spec ((len - s) * 64 + (64 - k)) n) as [Hlt|_].
  { destruct (Z.eq_dec s len) as [Es|Es]; [specialize (Hend Es)|]; lia. }
  destruct (Z.leb_spec n (64 - k)) as [Hfit|Hst].
  - inv_step H. apply spanmask_inv in E1. destruct E1 as [Hn0 _].
    inv_step H. inv_step H. apply load_seg_inv in E2. fold s len in E2.
    inv_step H. cbn [set_bits bits_into_seg] in H. fold k in H.
    destruct (Z.eqb_spec (k + n) 64) as [E4|E4]; injection H as _ <-;
      (split; [|reflexivity]); constructor;
      cbn [bitbuf__advance_cursor set_bits seg bits_into_seg owner];
      fold s len; try assumption; lia.
  - inv_step H. inv_step H. inv_step H. inv_step H. inv_step H.
    rewrite bits_remaining_ok in H
      by (cbn [seg bitbuf__advance_cursor]; fold s len; assumption || lia).
    cbn [bind seg bits_into_seg bitbuf__advance_cursor] in H. fold s len in H.
    inv_step H. inv_step H. inv_step H.
    apply load_seg_inv in E8. fold len in E8.
    inv_step H. injection H as _ <-.
    (split; [|reflexivity]); constructor;
      cbn [bitbuf__advance_cursor set_bits seg bits_into_seg owner];
      fold s len k; try assumption; lia.
Qed.

Lemma read_n_bits_wf (b : bitbuf_buffer_t) (rd : bitbuf_cursor_t) (n : Z)
    (out_mask : bool) (r : Z * option Z * bitbuf_cursor_t) :
  capacity_bytes b = 8 * Z.of_nat (length (data b)) ->
  capacity_bytes b < 2 ^ 60 ->
  cursor_wf b rd ->
  bitbuf_read_n_bits cfg b rd n out_mask = Ret r ->
  cursor_wf b (snd r) /\ read_past_end (snd r) = read_past_end rd.
Proof.
  intros Hc Hs Hwf H. unfold bitbuf_read_n_bits in H. inv_step H. inv_step H.
  - injection H as <-. now split.
  - inv_step H. destruct a0 as [v rd']. apply read_bits_wf in E1; try assumption.
    inv_step H.
    + inv_step H. now injection H as <-.
    + now injection H as <-.
Qed.

Lemma read_cstr_loop_wf (n : nat) : forall (b : bitbuf_buffer_t)
    (rd : bitbuf_cursor_t) (out : list Z) (r : list Z * bitbuf_cursor_t),
  capacity_bytes b = 8 * Z.of_nat (length (data b)) ->
  capacity_bytes b < 2 ^ 60 ->
  cursor_wf b rd ->
  bitbuf_read_cstr_loop cfg b rd n out = Ret r ->
  cursor_wf b (snd r) /\ read_past_end (snd r) = read_past_end rd.
Proof.
  induction n as [|n IH]; intros b rd out r Hc Hs Hwf H;
    cbn [bitbuf_read_cstr_loop] in H.
  - injection H as <-. now split.
  - inv_step H. destruct a as [v rd']. apply read_bits_wf in E; try assumption.
    destruct E as [Hwf' Hr']. cbn [fst snd] in H. inv_step H.
    + injection H as <-. now split.
    + apply IH in H; try assumption. destruct H as [H1 H2]. split; congruence.
Qed.

Lemma read_quantized_float_wf (b : bitbuf_buffer_t) (rd : bitbuf_cursor_t) (n : Z)
    (min max : spec_float) (r : spec_float * bitbuf_cursor_t) :
  capacity_bytes b = 8 * Z.of_nat (length (data b)) ->
  capacity_bytes b < 2 ^ 60 ->
  cursor_wf b rd ->
  bitbuf_read_quantized_float cfg b rd n min max = Ret r ->
  cursor_wf b (snd r) /\ read_past_end (snd r) = read_past_end rd.
Proof.
  intros Hc Hs Hwf H. unfold bitbuf_read_quantized_float in H.
  inv_step H. inv_step H. inv_step H. inv_step H.
  apply read_n_bits_wf in E2; try assumption.
  inv_step H. inv_step H. now injection H as <-.
Qed.

Lemma skip_byte_padding_wf (b : bitbuf_buffer_t) (rd rd' : bitbuf_cursor_t) :
  capacity_bytes b = 8 * Z.of_nat (length (data b)) ->
  capacity_bytes b < 2 ^ 60 ->
  cursor_wf b rd ->
  bitbuf_skip_byte_padding cfg b rd = Ret rd' ->
  cursor_wf b rd' /\ read_past_end rd' = read_past_end rd.
Proof.
  intros Hc Hs Hwf H. pose proof Hwf as [Ho Hseg Hbits Hend].
  unfold bitbuf_skip_byte_padding in H.
  inv_step H. inv_step H. inv_step H.
  cbn [set_bits bits_into_seg] in H. rewrite align_up_8 in H.
  change BITBUF__SEG_BITS with 64 in *.
  set (k := bits_into_seg rd) in *. set (s := seg rd) in *.
  assert (0 <= 8 * ((k + 7) / 8) <= 64) as Hr by (Z.div_mod_to_equations; lia).
  destruct (Z.eqb_spec (8 * ((k + 7) / 8)) 64) as [E2|E2].
  - inv_step H; [discriminate H|]. inv_step H. inv_step H. injection H as <-.
    (split; [|reflexivity]); constructor;
      cbn [bitbuf__advance_cursor set_bits seg bits_into_seg owner];
      fold s; try assumption; try lia.
    destruct (Z.eq_dec s (Z.of_nat (length (data b)))) as [Es|Es]; [|lia].
    specialize (Hend Es). Z.div_mod_to_equations. lia.
  - inv_step H; [discriminate H|]. inv_step H. inv_step H. injection H as <-.
    (split; [|reflexivity]); constructor;
      cbn [set_bits seg bits_into_seg owner]; fold s; try assumption; try lia.
    intros Es. specialize (Hend Es). Z.div_mod_to_equations. lia.
Qed.

(** The writers leave the capacity and the number of segments alone. *)
Lemma write_bits_size (b b' : bitbuf_buffer_t) (datum n : Z) :
  bitbuf__write_bits cfg b datum n = Ret b' ->
  capacity_bytes b' = capacity_bytes b /\ length (data b') = length (data b).
Proof. intros H. apply write_rec_inv in H. tauto. Qed.

Lemma write_n_bits_size (b b' : bitbuf_buffer_t) (n value : Z) :
  bitbuf_write_n_bits cfg b n value = Ret b' ->
  capacity_bytes b' = capacity_bytes b /\ length (data b') = length (data b).
Proof.
  unfold bitbuf_write_n_bits. intros H. inv_step H. inv_step H.
  - injection H as <-. now split.
  - inv_step H. inv_step H. now apply write_bits_size in H.
Qed.

Lemma write_cstr_size (str : list byte) : forall b b' : bitbuf_buffer_t,
  bitbuf_write_cstr cfg b str = Ret b' ->
  capacity_bytes b' = capacity_bytes b /\ length (data b') = length (data b).
Proof.
  induction str as [|c p IH]; intros b b' H; cbn [bitbuf_write_cstr] in H.
  - now apply write_bits_size in H.
  - inv_step H.
    + now apply write_bits_size in H.
    + inv_step H. apply write_bits_size in E0. apply IH in H.
      destruct E0, H. split; congruence.
Qed.

Lemma write_quantized_float_size (b b' : bitbuf_buffer_t) (n : Z)
    (min max value : spec_float) :
  bitbuf_write_quantized_float cfg b n min max value = Ret b' ->
  capacity_bytes b' = capacity_bytes b /\ length (data b') = length (data b).
Proof.
  unfold bitbuf_write_quantized_float. intros H.
  inv_step H. inv_step H. inv_step H. inv_step H. inv_step H.
  now apply write_bits_size in H.
Qed.

Lemma pad_to_byte_size (b b' : bitbuf_buffer_t) :
  bitbuf_pad_to_byte cfg b = Ret b' ->
  capacity_bytes b' = capacity_bytes b /\ length (data b') = length (data b).
Proof.
  unfold bitbuf_pad_to_byte. intros H. inv_step H.
  - now apply write_bits_size in H.
  - injection H as <-. now split.
Qed.

Lemma on_buffer_flags (s s' : session) (m : outcome bitbuf_buffer_t) :
  (forall b', m = Ret b' ->
     capacity_bytes b' = capacity_bytes (buf s)
     /\ length (data b') = length (data (buf s))) ->
  flags_clear s -> on_buffer s m = Ret s' -> flags_clear s'.
Proof.
  intros Hm (Hc & Hs & Hall) H. unfold on_buffer in H. inv_step H.
  injection H as <-. destruct (Hm a eq_refl) as [Hc' Hl'].
  unfold flags_clear. cbn [buf cursors]. rewrite Hc', Hl'.
  split; [exact Hc|]. split; [exact Hs|].
  eapply Forall_impl; [exact Hall|]. cbn beta. intros c [Hw Hr].
  split; [|exact Hr]. now apply (cursor_wf_length (buf s)).
Qed.

Lemma on_cursor_flags (s s' : session) (c : nat)
    (f : bitbuf_cursor_t -> outcome bitbuf_cursor_t) :
  (forall rd rd', cursor_wf (buf s) rd -> f rd = Ret rd' ->
     cursor_wf (buf s) rd' /\ read_past_end rd' = read_past_end rd) ->
  flags_clear s -> on_cursor s c f = Ret s' -> flags_clear s'.
Proof.
  intros Hf (Hc & Hs & Hall) H. unfold on_cursor in H.
  destruct (cursors s !! c) as [rd|] eqn:Hrd; [|discriminate H].
  inv_step H. injection H as <-. unfold flags_clear. cbn [buf cursors].
  split; [exact Hc|]. split; [exact Hs|].
  apply Forall_insert; [exact Hall|].
  pose proof (Forall_lookup_1 _ _ _ _ Hall Hrd) as [Hw Hr].
  destruct (Hf rd a Hw E) as [Hw' Hr']. split; [exact Hw'|congruence].
Qed.

Lemma call_flags (op : bitbuf_call) (s s' : session) :
  flags_clear s -> call cfg op s = Ret s' -> flags_clear s'.
Proof.
  intros Hfl. pose proof Hfl as (Hc & Hs & Hall).
  destruct op as [datum n|n value|str|n mn mx v| | |c n|c n m|c n|c n mn mx|c];
    cbn [call]; intros H.
  - eapply on_buffer_flags; [|exact Hfl|exact H]. intros b'. apply write_bits_size.
  - eapply on_buffer_flags; [|exact Hfl|exact H]. intros b'. apply write_n_bits_size.
  - eapply on_buffer_flags; [|exact Hfl|exact H]. intros b'. apply write_cstr_size.
  - eapply on_buffer_flags; [|exact Hfl|exact H]. intros b'.
    apply write_quantized_float_size.
  - eapply on_buffer_flags; [|exact Hfl|exact H]. intros b'. apply pad_to_byte_size.
  - injection H as <-. unfold flags_clear. cbn [buf cursors].
    change (capacity_bytes (fst (bitbuf_cursor_init (buf s))))
      with (capacity_bytes (buf s)).
    change (data (fst (bitbuf_cursor_init (buf s)))) with (data (buf s)).
    split; [exact Hc|]. split; [exact Hs|].
    apply Forall_app. split.
    + eapply Forall_impl; [exact Hall|]. cbn beta. intros c [Hw Hr].
      split; [|exact Hr]. now apply (cursor_wf_length (buf s)).
    + constructor; [|constructor]. split; [|reflexivity].
      constructor; cbn [bitbuf_cursor_init snd fst owner seg bits_into_seg set_write data];
        try reflexivity; lia.
  - eapply on_cursor_flags; [|exact Hfl|exact H].
    intros rd rd' Hw Hr. cbn beta in Hr. inv_step Hr. injection Hr as <-. destruct a as [v r].
    now apply read_bits_wf in E.
  - eapply on_cursor_flags; [|exact Hfl|exact H].
    intros rd rd' Hw Hr. cbn beta in Hr. inv_step Hr. injection Hr as <-.
    now apply read_n_bits_wf in E.
  - eapply on_cursor_flags; [|exact Hfl|exact H].
    intros rd rd' Hw Hr. cbn beta in Hr. inv_step Hr. injection Hr as <-.
    now apply read_cstr_loop_wf in E.
  - eapply on_cursor_flags; [|exact Hfl|exact H].
    intros rd rd' Hw Hr. cbn beta in Hr. inv_step Hr. injection Hr as <-.
    now apply read_quantized_float_wf in E.
  - eapply on_cursor_flags; [|exact Hfl|exact H].
    intros rd rd' Hw Hr. now apply skip_byte_padding_wf in Hr.
Qed.

Lemma run_flags (ops : list bitbuf_call) : forall s s' : session,
  flags_clear s -> run cfg ops s = Ret s' -> flags_clear s'.
Proof.
  induction ops as [|op rest IH]; intros s s' Hfl H; cbn [run] in H.
  - now injection H as <-.
  - inv_step H. apply (IH a); [|exact H]. now apply (call_flags op s).
Qed.

End ReadPastEnd.

(** X9. [read_past_end] is never set on a cursor that stays inside the
    buffer: start from a well-formed buffer and no read cursor, and let any
    sequence of calls follow (writes, [bitbuf_cursor_init], reads,
    [bitbuf_skip_byte_padding] on any of the cursors made). If every call
    returns, that is, no assertion stops the program and no call reads or
    writes outside the buffer, every read cursor has [read_past_end] = 0
    at the end. The flag can only come up after a read has gone beyond the
    last segment. *)
Theorem read_past_end_stays_clear (cfg : assert_cfg) (b : bitbuf_buffer_t)
    (ops : list bitbuf_call) (s' : session) :
  buffer_wf b ->
  run cfg ops {| buf := b; cursors := [] |} = Ret s' ->
  Forall (fun c => read_past_end c = 0) (cursors s').
Proof.
  intros Hwf H.
  assert (flags_clear {| buf := b; cursors := [] |}) as Hfl.
  { split; [apply (wf_capacity b Hwf)|]. split; [apply (wf_small b Hwf)|].
    constructor. }
  apply (run_flags cfg ops _ _ Hfl) in H. destruct H as (_ & _ & Hall).
  eapply Forall_impl; [exact Hall|]. cbn beta. tauto.
Qed.

Lemma read_past_end_stays_clear_witness :
  exists s',
    run libc_assert (example_calls ++ [CallReadBits 0 64])
      {| buf := example_buffer; cursors := [] |} = Ret s'
    /\ Forall (fun c => read_past_end c = 0) (cursors s').
Proof.
  eassert (run libc_assert (example_calls ++ [CallReadBits 0 64])
             {| buf := example_buffer; cursors := [] |} = Ret _) as E
    by (vm_compute; reflexivity).
  eexists. split; [exact E|].
  exact (read_past_end_stays_clear libc_assert example_buffer
           (example_calls ++ [CallReadBits 0 64]) _ example_buffer_wf E).
Defined.

(** * Allocation and release *)

Section AllocFree.

Variable cfg : assert_cfg.

Lemma write_bits_overflow (b : bitbuf_buffer_t) (datum n : Z) :
  buffer_wf b ->
  owner (write b) = false \/ assert_traps cfg = false ->
  assert_fail_traps cfg = false ->
  n <= 64 ->
  8 * capacity_bytes b - bit_position (write b) < n ->
  bitbuf__write_bits cfg b datum n = Ret (set_truncated b 1).
Proof.
  intros Hwf Hfr Hfail Hn Hlt.
  unfold bitbuf__write_bits. cbn [bitbuf__write_bits_rec].
  pass_assert. destruct (Z.gtb_spec n 64) as [?|_]; [lia|].
  rewrite unfrozen_assert by exact Hfr. cbn [bind].
  rewrite remaining_capacity_wf by exact Hwf. cbn [bind].
  destruct (Z.ltb_spec (8 * capacity_bytes b - bit_position (write b)) n) as [_|?];
    [|lia].
  unfold c_assert_fail. rewrite Hfail. cbn [bind]. do 2 f_equal.
  destruct (wf_truncated b Hwf) as [-> | ->]; reflexivity.
Qed.

Lemma free_buffer_clean (b : bitbuf_buffer_t) :
  truncated b = 0 -> bitbuf_free_buffer cfg b = Ret tt.
Proof.
  intros Ht. unfold bitbuf_free_buffer, bitbuf_has_truncated. rewrite Ht.
  now rewrite c_assert_true.
Qed.

End AllocFree.

(** X10. [bitbuf_free_buffer] reports an overflow that happened at any
    earlier time. With hooks as the C library's [assert] gives them (a
    failed assertion stops the program, the ASSERT_FAIL of the overflow
    branch does not): a write of at most 64 bits that finds too little
    room on a well-formed open buffer returns, and whatever calls follow,
    releasing the buffer afterwards trips the assertion of
    [bitbuf_free_buffer]. *)
Theorem free_after_overflow (cfg : assert_cfg) (b : bitbuf_buffer_t) (datum n : Z) :
  assert_traps cfg = true ->
  assert_fail_traps cfg = false ->
  buffer_wf b ->
  owner (write b) = false ->
  n <= 64 ->
  8 * capacity_bytes b - bit_position (write b) < n ->
  exists b',
    bitbuf__write_bits cfg b datum n = Ret b'
    /\ forall (ops : list bitbuf_call) (cs : list bitbuf_cursor_t) (s' : session),
         run cfg ops {| buf := b'; cursors := cs |} = Ret s' ->
         bitbuf_free_buffer cfg (buf s') = Abort.
Proof.
  intros Htrap Hfail Hwf Ho Hn Hlt.
  exists (set_truncated b 1). split.
  - apply write_bits_overflow; auto.
  - intros ops cs s' Hrun. apply run_truncated in Hrun; [|reflexivity].
    unfold bitbuf_free_buffer, bitbuf_has_truncated, c_assert.
    rewrite Hrun, Htrap. reflexivity.
Qed.

Lemma one_bit_buffer_wf : buffer_wf one_bit_buffer.
Proof.
  constructor; cbn [one_bit_buffer data capacity_bytes truncated write seg
                    bits_into_seg length];
    first [lia | repeat constructor; lia | now left].
Qed.

Lemma free_after_overflow_witness :
  exists b',
    bitbuf__write_bits libc_assert one_bit_buffer 0xFF 64 = Ret b'
    /\ forall (ops : list bitbuf_call) (cs : list bitbuf_cursor_t) (s' : session),
         run libc_assert ops {| buf := b'; cursors := cs |} = Ret s' ->
         bitbuf_free_buffer libc_assert (buf s') = Abort.
Proof.
  apply (free_after_overflow libc_assert one_bit_buffer 0xFF 64).
  - reflexivity.
  - reflexivity.
  - apply one_bit_buffer_wf.
  - reflexivity.
  - lia.
  - by_eval.
Defined.

(** X11. A fresh buffer takes what it was asked for and gives it back:
    for 0 < max_bytes < 2^59, [bitbuf_alloc_buffer] returns a zeroed
    buffer whose capacity is max_bytes rounded up to a multiple of 8;
    every record of fields (widths 1 to 64, values fitting) of at most
    8 * max_bytes bits is written with [bitbuf_write_n_bits] without
    truncation; the cursor from [bitbuf_cursor_init] reads the values back
    in order with [bitbuf_read_n_bits]; and [bitbuf_free_buffer] then
    passes its assertion. This holds for every behaviour of the assertion
    hooks, since no assertion fails. *)
Theorem fresh_buffer_roundtrip (cfg : assert_cfg) (max_bytes : Z)
    (fields : list (Z * Z)) :
  0 < max_bytes < 2 ^ 59 ->
  fields_ok fields ->
  fields_bits fields <= 8 * max_bytes ->
  exists b b' rd',
    bitbuf_alloc_buffer cfg max_bytes = Ret b
    /\ capacity_bytes b = 8 * ((max_bytes + 7) / 8)
    /\ segments_value (data b) = 0
    /\ write_fields cfg b fields = Ret b'
    /\ bitbuf_has_truncated b' = false
    /\ read_fields cfg (fst (bitbuf_cursor_init b')) (snd (bitbuf_cursor_init b'))
         (map fst fields)
       = Ret (fields_read fields, rd')
    /\ bit_position rd' = fields_bits fields
    /\ bitbuf_free_buffer cfg (fst (bitbuf_cursor_init b')) = Ret tt.
Proof.
  intros Hm Hok Hfit.
  destruct (alloc_buffer_wf cfg max_bytes Hm)
    as (b & Ha & Hwf & Hcl & Ho & Hp & Hcap).
  assert (max_bytes <= capacity_bytes b) as Hge
    by (rewrite Hcap; Z.div_mod_to_equations; lia).
  assert (truncated b = 0) as Ht0.
  { unfold bitbuf_alloc_buffer in Ha. destruct (c_assert cfg (max_bytes >? 0));
      try discriminate Ha. cbn [bind] in Ha. now injection Ha as <-. }
  pose proof (clean_tail_value b Hwf Hcl) as HV. rewrite Hp in HV.
  change (2 ^ 0) with 1 in HV.
  destruct (write_fields_append cfg fields b Hwf Hcl ltac:(now left) Hok ltac:(lia))
    as (b' & Hw & Hwf' & Hcl' & Hc' & Ht' & Hcap' & Hl' & Hv').
  pose proof (fields_value_range fields Hok) as HF.
  pose proof (fields_bits_nonneg fields Hok) as HB.
  assert (write b = {| seg := 0; bits_into_seg := 0; owner := false;
                       read_past_end := 0 |}) as Hwb.
  { unfold bitbuf_alloc_buffer in Ha. destruct (c_assert cfg (max_bytes >? 0));
      try discriminate Ha. cbn [bind] in Ha. now injection Ha as <-. }
  exists b, b', (cursor_at (write b')).
  split; [exact Ha|]. split; [exact Hcap|]. split; [lia|]. split; [exact Hw|].
  split; [unfold bitbuf_has_truncated; now rewrite Ht', Ht0|].
  split; [|split].
  - assert (snd (bitbuf_cursor_init b') = cursor_at (write b)) as ->
      by (rewrite Hwb; reflexivity).
    change (fst (bitbuf_cursor_init b')) with (frozen b').
    rewrite (read_fields_value cfg (frozen b') fields (cursor_at (write b)));
      rewrite ?Hwb.
    + rewrite Hc', Hwb. reflexivity.
    + now apply frozen_shape.
    + reflexivity.
    + cbn. lia.
    + unfold cursor_ok. cbn. lia.
    + exact Hok.
    + change (capacity_bytes (frozen b')) with (capacity_bytes b').
      rewrite Hcap'. unfold bit_position. cbn [cursor_at seg bits_into_seg]. lia.
    + change (data (frozen b')) with (data b'). unfold bits_at. rewrite Hv', Hp.
      cbn [cursor_at bit_position seg bits_into_seg].
      change (2 ^ (64 * 0 + 0)) with 1. rewrite Z.div_1_r.
      change (2 ^ 0) with 1.
      replace (segments_value (data b) + 1 * fields_value fields)
        with (fields_value fields) by lia.
      apply Z.mod_small. lia.
  - change (bit_position (cursor_at (write b'))) with (bit_position (write b')).
    rewrite Hc', cursor_seek_position. lia.
  - apply free_buffer_clean. change (truncated (frozen b') = 0). 
    change (truncated (frozen b')) with (truncated b'). congruence.
Qed.

Lemma fresh_buffer_roundtrip_witness :
  exists b b' rd',
    bitbuf_alloc_buffer libc_assert 5 = Ret b
    /\ capacity_bytes b = 8 * ((5 + 7) / 8)
    /\ segments_value (data b) = 0
    /\ write_fields libc_assert b [(1, 1); (39, 1234567)] = Ret b'
    /\ bitbuf_has_truncated b' = false
    /\ read_fields libc_assert (fst (bitbuf_cursor_init b'))
         (snd (bitbuf_cursor_init b')) (map fst [(1, 1); (39, 1234567)])
       = Ret (fields_read [(1, 1); (39, 1234567)], rd')
    /\ bit_position rd' = fields_bits [(1, 1); (39, 1234567)]
    /\ bitbuf_free_buffer libc_assert (fst (bitbuf_cursor_init b')) = Ret tt.
Proof.
  apply (fresh_buffer_roundtrip libc_assert 5 [(1, 1); (39, 1234567)]).
  - lia.
  - repeat constructor; cbn; lia.
  - by_eval.
Defined.

(** * Buffers and bytes *)

Section BufferBytes.

Variable cfg : assert_cfg.

Lemma le_word_app (a b : list byte) :
  le_word (a ++ b) = le_word a + 2 ^ (8 * Z.of_nat (length a)) * le_word b.
Proof.
  induction a as [|x t IH]; cbn [app le_word length].
  - change (2 ^ (8 * Z.of_nat 0)) with 1. lia.
  - rewrite IH.
    replace (8 * Z.of_nat (S (length t))) with (8 + 8 * Z.of_nat (length t)) by lia.
    rewrite Z.pow_add_r by lia. ring.
Qed.

Lemma le_word_le_bytes (n : nat) : forall z : Z,
  le_word (le_bytes n z) = z mod 2 ^ (8 * Z.of_nat n).
Proof.
  induction n as [|n IH]; intros z; cbn [le_bytes le_word].
  - change (2 ^ (8 * Z.of_nat 0)) with 1. now rewrite Z.mod_1_r.
  - rewrite IH, byte.unsigned_of_Z. unfold byte.wrap.
    replace (8 * Z.of_nat (S n)) with (8 + 8 * Z.of_nat n) by lia.
    rewrite Z.pow_add_r by lia.
    rewrite Z.rem_mul_r by (try apply Z.pow_nonzero; try apply pow2_pos; lia).
    reflexivity.
Qed.

Lemma length_le_bytes (n : nat) : forall z : Z, length (le_bytes n z) = n.
Proof. induction n as [|n IH]; intros z; cbn [le_bytes length]; auto. Qed.

Lemma length_segment_bytes (d : list Z) :
  length (segment_bytes d) = (8 * length d)%nat.
Proof.
  induction d as [|x t IH]; [reflexivity|].
  unfold segment_bytes in *. cbn [flat_map]. rewrite length_app, IH, length_le_bytes.
  cbn [length]. lia.
Qed.

Lemma le_word_segment_bytes (d : list Z) :
  Forall (fun x => 0 <= x < 2 ^ 64) d ->
  le_word (segment_bytes d) = segments_value d.
Proof.
  induction 1 as [|x t Hx _ IH]; [reflexivity|].
  unfold segment_bytes in *. cbn [flat_map segments_value].
  rewrite le_word_app, IH, le_word_le_bytes, length_le_bytes.
  change (8 * Z.of_nat 8) with 64. now rewrite Z.mod_small.
Qed.

Lemma le_word_take (n : nat) : forall bs : list byte,
  le_word (take n bs) = le_word bs mod 2 ^ (8 * Z.of_nat n).
Proof.
  induction n as [|n IH]; intros bs.
  - rewrite take_0. change (2 ^ (8 * Z.of_nat 0)) with 1. now rewrite Z.mod_1_r.
  - destruct bs as [|b t]; [now rewrite take_nil, Zmod_0_l|].
    cbn [take firstn le_word]. rewrite IH.
    replace (8 * Z.of_nat (S n)) with (8 + 8 * Z.of_nat n) by lia.
    rewrite Z.pow_add_r by lia. symmetry. apply mod_split.
    + apply byte_range.
    + apply pow2_pos. lia.
Qed.

Lemma le_word_zeros (k : nat) : le_word (replicate k Byte.x00) = 0.
Proof.
  induction k as [|k IH]; [reflexivity|]. cbn [replicate le_word]. rewrite IH.
  reflexivity.
Qed.

Lemma length_le_segments (m : nat) : forall bs : list byte,
  length (le_segments m bs) = m.
Proof. induction m as [|m IH]; intros bs; cbn [le_segments length]; auto. Qed.

Lemma le_segments_range (m : nat) : forall bs : list byte,
  Forall (fun x => 0 <= x < 2 ^ 64) (le_segments m bs).
Proof.
  induction m as [|m IH]; intros bs; cbn [le_segments]; constructor; [|apply IH].
  pose proof (le_word_range (take 8 bs)) as H. rewrite length_take in H.
  split; [lia|]. eapply Z.lt_le_trans; [apply H|]. apply pow2_le. lia.
Qed.

(** The segments made of a run of bytes hold the bytes, lowest first. *)
Lemma segments_value_le_segments (m : nat) : forall bs : list byte,
  segments_value (le_segments m bs) = le_word bs mod 2 ^ (64 * Z.of_nat m).
Proof.
  induction m as [|m IH]; intros bs; cbn [le_segments segments_value].
  - change (2 ^ (64 * Z.of_nat 0)) with 1. now rewrite Z.mod_1_r.
  - rewrite IH.
    replace (64 * Z.of_nat (S m)) with (64 + 64 * Z.of_nat m) by lia.
    rewrite Z.pow_add_r by lia.
    pose proof (pow2_pos (64 * Z.of_nat m) ltac:(lia)) as Hpm.
    rewrite <- (take_drop 8 bs) at 3. rewrite le_word_app.
    pose proof (le_word_range (take 8 bs)) as Hr.
    destruct (Nat.le_gt_cases 8 (length bs)) as [Hlen|Hlen].
    + rewrite length_take in *. replace (8 `min` length bs)%nat with 8%nat in * by lia.
      change (8 * Z.of_nat 8) with 64 in *.
      rewrite Z.rem_mul_r by lia. now rewrite split_low, split_high by lia.
    + rewrite (drop_ge bs 8) by lia. cbn [le_word].
      rewrite Z.mod_0_l, !Z.mul_0_r, Z.add_0_r by lia.
      symmetry. apply Z.mod_small. split; [lia|].
      eapply Z.lt_le_trans; [apply Hr|].
      rewrite <- Z.pow_add_r by lia. apply pow2_le. rewrite length_take. lia.
Qed.

Lemma le_word_byte (bs : list byte) : forall (i : nat) (c : byte),
  bs !! i = Some c -> (le_word bs / 2 ^ (8 * Z.of_nat i)) mod 2 ^ 8 = byte.unsigned c.
Proof.
  induction bs as [|b t IH]; intros i c Hc; [discriminate Hc|].
  pose proof (byte_range b) as Hb. cbn [le_word].
  destruct i as [|i].
  - injection Hc as ->. change (2 ^ (8 * Z.of_nat 0)) with 1.
    rewrite Z.div_1_r. apply split_low; lia.
  - change ((b :: t) !! S i) with (t !! i) in Hc.
    replace (8 * Z.of_nat (S i)) with (8 + 8 * Z.of_nat i) by lia.
    rewrite Z.pow_add_r, <- Z.div_div by (try apply pow2_pos; lia).
    rewrite split_high by lia. now apply IH.
Qed.

(** Cutting a number above a field does not change the field. *)
Lemma mod_keeps_field (W p n q : Z) :
  0 <= p -> 0 <= n -> p + n <= q ->
  ((W mod 2 ^ q) / 2 ^ p) mod 2 ^ n = (W / 2 ^ p) mod 2 ^ n.
Proof.
  intros Hp Hn Hq.
  replace (W mod 2 ^ q) with (W + 2 ^ q * (- (W / 2 ^ q))).
  - now apply bits_at_below.
  - pose proof (Z.div_mod W (2 ^ q) ltac:(apply Z.pow_nonzero; lia)). lia.
Qed.

(** A well-formed buffer that holds nothing at or above its write
    position has a clean tail. *)
Lemma clean_of_value (b : bitbuf_buffer_t) :
  buffer_wf b ->
  segments_value (data b) < 2 ^ bit_position (write b) ->
  clean_tail b.
Proof.
  intros Hwf HV i x Hx. pose proof Hwf as [Hc Hs Hseg Hbits Hend Hd Htr].
  pose proof (Forall_lookup_1 _ _ _ _ Hd Hx) as Hxr. cbn beta in Hxr.
  pose proof (segments_value_range _ Hd) as [HV0 _].
  unfold bit_position in HV.
  set (k := bits_into_seg (write b)) in *. set (s := seg (write b)) in *.
  assert (x = (segments_value (data b) / 2 ^ (64 * Z.of_nat i)) mod 2 ^ 64) as Hval.
  { pose proof (bits_at_fit (data b) (Z.of_nat i) 0 64 x Hd ltac:(lia)
                  ltac:(now rewrite Nat2Z.id) ltac:(lia) ltac:(lia) ltac:(lia)) as H.
    unfold bits_at in H. rewrite Z.add_0_r in H. rewrite H.
    change (2 ^ 0) with 1. rewrite Z.div_1_r. symmetry. apply Z.mod_small. lia. }
  pose proof (pow2_pos (64 * Z.of_nat i) ltac:(lia)) as Hpi.
  split.
  - intros Hi. rewrite Hval, Z.div_small; [reflexivity|].
    split; [lia|]. eapply Z.lt_le_trans; [apply HV|]. apply pow2_le. lia.
  - intros Hi. rewrite <- Hi in HV. rewrite Z.pow_add_r in HV by lia.
    assert (segments_value (data b) / 2 ^ (64 * Z.of_nat i) < 2 ^ k) as Hq
      by (apply Z.div_lt_upper_bound; lia).
    pose proof (Z.div_pos (segments_value (data b)) (2 ^ (64 * Z.of_nat i))
                  HV0 Hpi) as Hq0.
    rewrite Hval, Z.mod_small; [exact Hq|].
    split; [lia|]. eapply Z.lt_le_trans; [apply Hq|]. apply pow2_le. lia.
Qed.

Lemma get_bytes_value (b : bitbuf_buffer_t) :
  buffer_wf b ->
  bitbuf_get_bytes_from_buffer cfg b true
  = Ret (segment_bytes (data b), (bit_position (write b) + 7) / 8).
Proof.
  intros [Hc Hs Hseg Hbits Hend Hd Htr].
  unfold bitbuf_get_bytes_from_buffer. rewrite c_assert_true. cbn [bind negb].
  rewrite align_up_8. unfold bit_position.
  set (k := bits_into_seg (write b)) in *. set (s := seg (write b)) in *.
  rewrite (Z.mul_comm 8 ((k + 7) / 8)), Z.div_mul by lia.
  assert (0 <= (k + 7) / 8 <= 8) by (Z.div_mod_to_equations; lia).
  rewrite (u64_small (s * 8)) by lia. rewrite u64_small by lia.
  do 2 f_equal. replace (64 * s + k + 7) with (k + 7 + (s * 8) * 8) by lia.
  rewrite Z.div_add by lia. lia.
Qed.

(** [bitbuf_alloc_buffer_with_bytes] on [num_bytes] readable bytes. *)
Lemma alloc_with_bytes_value (bytes : list byte) (num_bytes : Z) :
  0 < num_bytes < 2 ^ 59 ->
  num_bytes <= Z.of_nat (length bytes) ->
  exists b,
    bitbuf_alloc_buffer_with_bytes cfg bytes num_bytes = Ret b
    /\ buffer_wf b /\ clean_tail b
    /\ owner (write b) = false
    /\ truncated b = 0
    /\ bit_position (write b) = 8 * num_bytes
    /\ capacity_bytes b = 8 * ((num_bytes + 7) / 8)
    /\ segments_value (data b) = le_word bytes mod 2 ^ (8 * num_bytes).
Proof.
  intros Hn Hlen.
  destruct (alloc_buffer_wf cfg num_bytes Hn)
    as (b0 & Ha & Hwf0 & Hcl0 & Ho0 & Hp0 & Hcap0).
  pose proof Hwf0 as [Hc Hs Hseg Hbits Hend Hd Htr].
  assert (truncated b0 = 0 /\ read_past_end (write b0) = 0) as [Ht0 Hr0].
  { unfold bitbuf_alloc_buffer in Ha. destruct (c_assert cfg (num_bytes >? 0));
      try discriminate Ha. cbn [bind] in Ha. now injection Ha as <-. }
  assert (num_bytes <= capacity_bytes b0 < num_bytes + 8) as Hge
    by (rewrite Hcap0; Z.div_mod_to_equations; lia).
  set (m := length (data b0)) in *.
  set (mem := take (Z.to_nat num_bytes) bytes
              ++ replicate (Z.to_nat (capacity_bytes b0 - num_bytes)) Byte.x00).
  assert (le_word mem = le_word bytes mod 2 ^ (8 * num_bytes)) as Hmem.
  { unfold mem. rewrite le_word_app, le_word_zeros, Z.mul_0_r, Z.add_0_r.
    rewrite le_word_take. do 2 f_equal. lia. }
  assert (segments_value (le_segments m mem) = le_word bytes mod 2 ^ (8 * num_bytes))
    as Hval.
  { rewrite segments_value_le_segments, Hmem. apply Z.mod_small.
    pose proof (Z.mod_pos_bound (le_word bytes) (2 ^ (8 * num_bytes))
                  (pow2_pos (8 * num_bytes) ltac:(lia))) as Hb.
    split; [lia|]. eapply Z.lt_le_trans; [apply Hb|]. apply pow2_le. lia. }
  set (b := {| data := le_segments m mem;
               capacity_bytes := capacity_bytes b0;
               truncated := truncated b0;
               write := {| seg := num_bytes / 8;
                           bits_into_seg := (num_bytes mod 8) * 8;
                           owner := owner (write b0);
                           read_past_end := read_past_end (write b0) |} |}).
  assert (buffer_wf b) as Hwf.
  { constructor; cbn [b data capacity_bytes truncated write seg bits_into_seg];
      rewrite ?length_le_segments; fold m; try assumption.
    - Z.div_mod_to_equations. lia.
    - Z.div_mod_to_equations. lia.
    - intros E. Z.div_mod_to_equations. lia.
    - apply le_segments_range. }
  assert (bit_position (write b) = 8 * num_bytes) as Hpos.
  { unfold bit_position. cbn [b write seg bits_into_seg].
    Z.div_mod_to_equations. lia. }
  exists b. split.
  { unfold bitbuf_alloc_buffer_with_bytes. rewrite Ha. cbn [bind].
    destruct (Z.ltb_spec num_bytes 0); [lia|].
    destruct (Z.ltb_spec (Z.of_nat (length bytes)) num_bytes); [lia|].
    destruct (Z.ltb_spec (capacity_bytes b0) num_bytes); [lia|].
    reflexivity. }
  split; [exact Hwf|]. split.
  { apply clean_of_value; [exact Hwf|]. rewrite Hpos.
    cbn [b data]. rewrite Hval. apply Z.mod_pos_bound, pow2_pos. lia. }
  split; [exact Ho0|]. split; [exact Ht0|]. split; [exact Hpos|].
  split; [exact Hcap0 | exact Hval].
Qed.

(** Reading one of the bytes a buffer was made of. *)
Lemma read_byte_of (b : bitbuf_buffer_t) (bytes : list byte) (num_bytes : Z)
    (rd : bitbuf_cursor_t) (i : nat) (c : byte) :
  buffer_shape b ->
  segments_value (data b) = le_word bytes mod 2 ^ (8 * num_bytes) ->
  num_bytes <= capacity_bytes b ->
  owner rd = true ->
  Z.of_nat i < num_bytes ->
  bytes !! i = Some c ->
  bitbuf_read_type cfg 8 false b (cursor_seek rd (8 * Z.of_nat i))
  = Ret (byte.unsigned c, cursor_seek rd (8 * (Z.of_nat i + 1))).
Proof.
  intros Hsh Hval Hcap Ho Hi Hc. pose proof (sh_capacity b Hsh) as Hcb.
  unfold bitbuf_read_type.
  rewrite read_bits_value; try assumption; try lia.
  - cbn [bind fst snd andb]. rewrite cursor_seek_position.
    unfold bits_at. rewrite Hval, Zmod_mod.
    rewrite mod_keeps_field by lia. rewrite (le_word_byte bytes i c Hc).
    do 2 f_equal. change (cursor_seek (cursor_seek ?x ?y) ?q) with (cursor_seek x q).
    f_equal. lia.
  - cbn [cursor_seek seg]. split; [apply Z.div_pos; lia|].
    apply Z.div_lt_upper_bound; lia.
  - unfold cursor_ok. cbn. apply Z.mod_pos_bound. lia.
  - rewrite cursor_seek_position. lia.
Qed.

End BufferBytes.

(** X12. A written buffer can be handed on as bytes: for a well-formed,
    clean buffer of less than 2^59 bytes with something written,
    [bitbuf_get_bytes_from_buffer]
    reports the number of bytes that hold written bits, the write
    position rounded up to whole bytes, which is at most the capacity;
    [bitbuf_alloc_buffer_with_bytes] on that pointer and number gives a
    well-formed, clean, open buffer holding the same bits with its write
    cursor behind those bytes, and every read of up to 64 bits inside
    them returns from the new buffer what it returns from the old one. *)
Theorem bytes_handover (cfg : assert_cfg) (b : bitbuf_buffer_t) :
  buffer_wf b -> clean_tail b ->
  capacity_bytes b < 2 ^ 59 ->
  0 < bit_position (write b) ->
  exists mem num_bytes b2,
    bitbuf_get_bytes_from_buffer cfg b true = Ret (mem, num_bytes)
    /\ num_bytes = (bit_position (write b) + 7) / 8
    /\ num_bytes <= capacity_bytes b
    /\ bitbuf_alloc_buffer_with_bytes cfg mem num_bytes = Ret b2
    /\ buffer_wf b2 /\ clean_tail b2
    /\ owner (write b2) = false
    /\ bit_position (write b2) = 8 * num_bytes
    /\ segments_value (data b2) = segments_value (data b)
    /\ forall (rd : bitbuf_cursor_t) (n : Z),
         owner rd = true -> 0 <= seg rd -> cursor_ok rd ->
         0 <= n <= 64 ->
         bit_position rd < 8 * num_bytes ->
         bit_position rd + n <= 8 * num_bytes ->
         bitbuf__read_bits cfg (frozen b2) rd n
         = bitbuf__read_bits cfg (frozen b) rd n.
Proof.
  intros Hwf Hcl Hsmall Hpos.
  pose proof Hwf as [Hc Hs Hseg Hbits Hend Hd Htr].
  pose proof (clean_tail_value b Hwf Hcl) as HV.
  set (nb := (bit_position (write b) + 7) / 8).
  assert (bit_position (write b) <= 8 * capacity_bytes b) as Hle.
  { unfold bit_position.
    destruct (Z.eq_dec (seg (write b)) (Z.of_nat (length (data b)))) as [E|E];
      [rewrite (Hend E)|]; lia. }
  assert (0 < nb <= capacity_bytes b /\ bit_position (write b) <= 8 * nb) as [Hnb Hcover]
    by (unfold nb; Z.div_mod_to_equations; lia).
  destruct (alloc_with_bytes_value cfg (segment_bytes (data b)) nb ltac:(lia))
    as (b2 & Ha & Hwf2 & Hcl2 & Ho2 & Ht2 & Hp2 & Hcap2 & Hv2).
  { rewrite length_segment_bytes. lia. }
  rewrite le_word_segment_bytes in Hv2 by exact Hd.
  rewrite Z.mod_small in Hv2.
  2:{ split; [lia|]. eapply Z.lt_le_trans; [apply HV|]. apply pow2_le.
      unfold bit_position in *. lia. }
  exists (segment_bytes (data b)), nb, b2.
  split; [now apply get_bytes_value|]. split; [reflexivity|]. split; [lia|].
  split; [exact Ha|]. split; [exact Hwf2|]. split; [exact Hcl2|].
  split; [exact Ho2|]. split; [exact Hp2|]. split; [exact Hv2|].
  intros rd n Ho Hs0 Hk Hn Hlt Hfit.
  pose proof (wf_capacity b2 Hwf2) as Hc2.
  assert (nb <= capacity_bytes b2) as Hnb2
    by (rewrite Hcap2; Z.div_mod_to_equations; lia).
  unfold bit_position, cursor_ok in *.
  rewrite !read_bits_value; try assumption; try (now apply frozen_shape);
    change (data (frozen b2)) with (data b2);
    change (data (frozen b)) with (data b);
    change (capacity_bytes (frozen b2)) with (capacity_bytes b2);
    change (capacity_bytes (frozen b)) with (capacity_bytes b);
    try (unfold bit_position; lia).
  unfold bits_at. now rewrite Hv2.
Qed.

Lemma bytes_handover_witness :
  exists mem num_bytes b2,
    bitbuf_get_bytes_from_buffer libc_assert example_buffer true = Ret (mem, num_bytes)
    /\ num_bytes = (bit_position (write example_buffer) + 7) / 8
    /\ num_bytes <= capacity_bytes example_buffer
    /\ bitbuf_alloc_buffer_with_bytes libc_assert mem num_bytes = Ret b2
    /\ buffer_wf b2 /\ clean_tail b2
    /\ owner (write b2) = false
    /\ bit_position (write b2) = 8 * num_bytes
    /\ segments_value (data b2) = segments_value (data example_buffer)
    /\ forall (rd : bitbuf_cursor_t) (n : Z),
         owner rd = true -> 0 <= seg rd -> cursor_ok rd ->
         0 <= n <= 64 ->
         bit_position rd < 8 * num_bytes ->
         bit_position rd + n <= 8 * num_bytes ->
         bitbuf__read_bits libc_assert (frozen b2) rd n
         = bitbuf__read_bits libc_assert (frozen example_buffer) rd n.
Proof.
  apply (bytes_handover libc_assert example_buffer).
  - apply example_buffer_wf.
  - apply example_buffer_clean.
  - by_eval.
  - by_eval.
Defined.

(** X13. [bitbuf_alloc_buffer_with_bytes] holds the bytes it was given:
    for 0 < num_bytes < 2^59 readable bytes it returns an open buffer
    whose write cursor stands behind the bytes, and reading 8 bits with
    the cursor of [bitbuf_cursor_init] moved to byte i returns byte i of
    the input, for every i below num_bytes, leaving the cursor at byte
    i + 1. *)
Theorem alloc_with_bytes_reads (cfg : assert_cfg) (bytes : list byte) (num_bytes : Z) :
  0 < num_bytes < 2 ^ 59 ->
  num_bytes <= Z.of_nat (length bytes) ->
  exists b,
    bitbuf_alloc_buffer_with_bytes cfg bytes num_bytes = Ret b
    /\ owner (write b) = false
    /\ bit_position (write b) = 8 * num_bytes
    /\ forall (i : nat) (c : byte),
         Z.of_nat i < num_bytes -> bytes !! i = Some c ->
         bitbuf_read_type cfg 8 false (fst (bitbuf_cursor_init b))
           (cursor_seek (snd (bitbuf_cursor_init b)) (8 * Z.of_nat i))
         = Ret (byte.unsigned c,
                cursor_seek (snd (bitbuf_cursor_init b)) (8 * (Z.of_nat i + 1))).
Proof.
  intros Hn Hlen.
  destruct (alloc_with_bytes_value cfg bytes num_bytes Hn Hlen)
    as (b & Ha & Hwf & Hcl & Ho & Ht & Hp & Hcap & Hv).
  exists b. split; [exact Ha|]. split; [exact Ho|]. split; [exact Hp|].
  intros i c Hi Hc.
  apply (read_byte_of cfg (frozen b) bytes num_bytes); try assumption.
  - now apply frozen_shape.
  - change (capacity_bytes (frozen b)) with (capacity_bytes b).
    rewrite Hcap. Z.div_mod_to_equations. lia.
  - reflexivity.
Qed.

Lemma alloc_with_bytes_reads_witness :
  exists b,
    bitbuf_alloc_buffer_with_bytes libc_assert example_str 11 = Ret b
    /\ owner (write b) = false
    /\ bit_position (write b) = 8 * 11
    /\ forall (i : nat) (c : byte),
         Z.of_nat i < 11 -> example_str !! i = Some c ->
         bitbuf_read_type libc_assert 8 false (fst (bitbuf_cursor_init b))
           (cursor_seek (snd (bitbuf_cursor_init b)) (8 * Z.of_nat i))
         = Ret (byte.unsigned c,
                cursor_seek (snd (bitbuf_cursor_init b)) (8 * (Z.of_nat i + 1))).
Proof.
  apply (alloc_with_bytes_reads libc_assert example_str 11).
  - lia.
  - by_eval.
Defined.

(** X14. [bitbuf_init_buffer_with_bytes] wraps the caller's bytes
    without a copy: for a readable run of num_bytes bytes, num_bytes a
    multiple of 8 below 2^60, it returns a buffer of that capacity with
    the write cursor at the start, and reading 8 bits with the cursor of
    [bitbuf_cursor_init] moved to byte i returns byte i of the run, for
    every i below num_bytes. *)
Theorem init_with_bytes_reads (cfg : assert_cfg) (bytes : list byte) (num_bytes : Z) :
  0 <= num_bytes < 2 ^ 60 ->
  num_bytes mod 8 = 0 ->
  num_bytes <= Z.of_nat (length bytes) ->
  exists b,
    bitbuf_init_buffer_with_bytes cfg bytes num_bytes = Ret b
    /\ capacity_bytes b = num_bytes
    /\ bit_position (write b) = 0
    /\ forall (i : nat) (c : byte),
         Z.of_nat i < num_bytes -> bytes !! i = Some c ->
         bitbuf_read_type cfg 8 false (fst (bitbuf_cursor_init b))
           (cursor_seek (snd (bitbuf_cursor_init b)) (8 * Z.of_nat i))
         = Ret (byte.unsigned c,
                cursor_seek (snd (bitbuf_cursor_init b)) (8 * (Z.of_nat i + 1))).
Proof.
  intros Hn Hmod Hlen.
  unfold bitbuf_init_buffer_with_bytes.
  rewrite c_assert_ok by (now apply Z.eqb_eq). cbn [bind].
  destruct (Z.ltb_spec (Z.of_nat (length bytes)) num_bytes); [lia|].
  eexists. split; [reflexivity|]. split; [reflexivity|]. split; [reflexivity|].
  intros i c Hi Hc.
  assert (Z.of_nat (Z.to_nat (num_bytes / 8)) = num_bytes / 8) as Hm
    by (apply Z2Nat.id; Z.div_mod_to_equations; lia).
  apply (read_byte_of cfg _ bytes num_bytes); try assumption.
  - constructor; cbn [frozen bitbuf_cursor_init fst set_write data capacity_bytes].
    + rewrite length_le_segments, Hm. Z.div_mod_to_equations. lia.
    + lia.
    + apply le_segments_range.
  - cbn [bitbuf_cursor_init fst set_write data].
    rewrite segments_value_le_segments, Hm. do 2 f_equal.
    Z.div_mod_to_equations. lia.
  - cbn [bitbuf_cursor_init fst set_write capacity_bytes]. lia.
  - reflexivity.
Qed.

Lemma init_with_bytes_reads_witness :
  exists b,
    bitbuf_init_buffer_with_bytes libc_assert example_str 16 = Ret b
    /\ capacity_bytes b = 16
    /\ bit_position (write b) = 0
    /\ forall (i : nat) (c : byte),
         Z.of_nat i < 16 -> example_str !! i = Some c ->
         bitbuf_read_type libc_assert 8 false (fst (bitbuf_cursor_init b))
           (cursor_seek (snd (bitbuf_cursor_init b)) (8 * Z.of_nat i))
         = Ret (byte.unsigned c,
                cursor_seek (snd (bitbuf_cursor_init b)) (8 * (Z.of_nat i + 1))).
Proof.
  apply (init_with_bytes_reads libc_assert example_str 16).
  - lia.
  - reflexivity.
  - by_eval.
Defined.

(** * Writes that are cut or refused *)

Section Refused.

Variable cfg : assert_cfg.

Lemma set_truncated_wf (b : bitbuf_buffer_t) :
  buffer_wf b -> buffer_wf (set_truncated b 1).
Proof.
  intros [Hc Hs Hseg Hbits Hend Hd Htr].
  constructor; cbn [set_truncated data capacity_bytes truncated write]; auto.
Qed.

Lemma set_truncated_clean (b : bitbuf_buffer_t) :
  clean_tail b -> clean_tail (set_truncated b 1).
Proof. intros H. exact H. Qed.

(** [bitbuf_write_cstr] without room for the whole string and its
    terminator. *)
Lemma write_cstr_short (str : list byte) : forall b : bitbuf_buffer_t,
  buffer_wf b -> clean_tail b ->
  owner (write b) = false \/ assert_traps cfg = false ->
  assert_fail_traps cfg = false ->
  8 * capacity_bytes b - bit_position (write b)
    < 8 * (Z.of_nat (length (cstr_bytes str)) + 1) ->
  exists b',
    bitbuf_write_cstr cfg b str = Ret b'
    /\ truncated b' = 1
    /\ bit_position (write b')
       = bit_position (write b)
         + 8 * Z.min (Z.of_nat (length (cstr_bytes str)))
                 ((8 * capacity_bytes b - bit_position (write b)) / 8)
    /\ segments_value (data b')
       = segments_value (data b)
         + 2 ^ bit_position (write b)
           * le_digits (take (Z.to_nat ((8 * capacity_bytes b
                                         - bit_position (write b)) / 8))
                          (cstr_bytes str)).
Proof.
  assert (forall b : bitbuf_buffer_t,
    buffer_wf b ->
    owner (write b) = false \/ assert_traps cfg = false ->
    assert_fail_traps cfg = false ->
    8 * capacity_bytes b - bit_position (write b) < 8 * (Z.of_nat 0 + 1) ->
    exists b',
      bitbuf__write_bits cfg b 0 8 = Ret b'
      /\ truncated b' = 1
      /\ bit_position (write b')
         = bit_position (write b)
           + 8 * Z.min (Z.of_nat 0)
                   ((8 * capacity_bytes b - bit_position (write b)) / 8)
      /\ segments_value (data b')
         = segments_value (data b)
           + 2 ^ bit_position (write b)
             * le_digits (take (Z.to_nat ((8 * capacity_bytes b
                                           - bit_position (write b)) / 8)) []))
    as Hterm.
  { intros b Hwf Hfr Hfail Hlt.
    exists (set_truncated b 1).
    split; [apply write_bits_overflow; auto; lia|]. split; [reflexivity|].
    assert (0 <= 8 * capacity_bytes b - bit_position (write b)) as Hrem.
    { pose proof Hwf as [Hc Hs Hseg Hbits Hend Hd Htr]. unfold bit_position.
      destruct (Z.eq_dec (seg (write b)) (Z.of_nat (length (data b)))) as [E|E];
        [rewrite (Hend E)|]; lia. }
    split.
    - cbn [set_truncated write]. rewrite Z.min_l; [lia|].
      apply Z.div_pos; lia.
    - rewrite take_nil. cbn [set_truncated data le_digits]. lia. }
  induction str as [|c p IH]; intros b Hwf Hcl Hfr Hfail Hlt;
    cbn [bitbuf_write_cstr cstr_bytes] in *.
  - now apply Hterm.
  - destruct (Z.eqb_spec (byte.unsigned c) 0) as [E|E]; [now apply Hterm|].
    cbn [length] in *.
    pose proof (byte_range c) as Hcr.
    assert (0 <= 8 * capacity_bytes b - bit_position (write b)) as Hrem.
    { pose proof Hwf as [Hc Hs Hseg Hbits Hend Hd Htr]. unfold bit_position.
      destruct (Z.eq_dec (seg (write b)) (Z.of_nat (length (data b)))) as [E'|E'];
        [rewrite (Hend E')|]; lia. }
    set (rem := 8 * capacity_bytes b - bit_position (write b)) in *.
    destruct (Z.le_gt_cases 8 rem) as [Hroom|Hnone].
    + assert (0 <= char_to_u64 c) as Hd by (apply u64_range).
      destruct (write_bits_append cfg b (char_to_u64 c) 8 Hwf Hcl Hfr
                  ltac:(lia) Hd ltac:(unfold rem in Hroom; lia))
        as (b1 & Hw1 & Hwf1 & Hcl1 & Hc1 & Ht1 & Hcap1 & Hl1 & Hv1).
      assert (bit_position (write b1) = bit_position (write b) + 8) as Hp1
        by (rewrite Hc1; apply cursor_seek_position).
      assert (owner (write b1) = owner (write b)) as Ho1 by (now rewrite Hc1).
      assert (8 * capacity_bytes b1 - bit_position (write b1) = rem - 8) as Hrem1
        by (unfold rem; lia).
      destruct (IH b1 Hwf1 Hcl1 ltac:(now rewrite Ho1) Hfail ltac:(lia))
        as (b' & Hw' & Ht' & Hp' & Hv').
      rewrite Hrem1 in Hp', Hv'.
      exists b'. rewrite Hw1. cbn [bind].
      split; [exact Hw'|]. split; [exact Ht'|].
      assert (rem / 8 = (rem - 8) / 8 + 1) as Hq by (Z.div_mod_to_equations; lia).
      assert (0 <= (rem - 8) / 8) as Hq0 by (apply Z.div_pos; lia).
      split.
      * rewrite Hp', Hp1, Hq. lia.
      * rewrite Hv', Hv1, Hp1, char_to_u64_low, Hq.
        replace (Z.to_nat ((rem - 8) / 8 + 1)) with (S (Z.to_nat ((rem - 8) / 8)))
          by lia.
        cbn [take firstn le_digits].
        pose proof (wf_bits b Hwf). pose proof (wf_seg b Hwf).
        rewrite Z.pow_add_r by (unfold bit_position; lia). ring.
    + assert (rem / 8 = 0) as Hq by (apply Z.div_small; lia).
      rewrite (write_bits_overflow cfg b (char_to_u64 c) 8) by (auto; fold rem; lia).
      cbn [bind].
      destruct (IH (set_truncated b 1) (set_truncated_wf b Hwf)
                  (set_truncated_clean b Hcl) Hfr Hfail
                  ltac:(cbn [set_truncated capacity_bytes write]; fold rem; lia))
        as (b' & Hw' & Ht' & Hp' & Hv').
      cbn [set_truncated capacity_bytes write data] in Hp', Hv'. fold rem in Hp', Hv'.
      rewrite Hq in *. exists b'.
      split; [exact Hw'|]. split; [exact Ht'|].
      split.
      * rewrite Hp'. lia.
      * rewrite Hv'. now rewrite !take_0.
Qed.

End Refused.

(** X15. [bitbuf_write_n_bits] checks its arguments by assertion only:
    for a 64-bit value and a width from 0 to 64, a value that fits the
    width is handed to [bitbuf__write_bits] without an assertion failing; a
    value with a bit set at or above the width trips the assertion and, if
    that does not stop the program, is handed on all the same (and its low
    bits are stored); a width above 64 trips the first assertion and, if
    that does not stop the program, nothing is written. *)
Theorem write_n_bits_checks (cfg : assert_cfg) (b : bitbuf_buffer_t) (n value : Z) :
  0 <= n ->
  0 <= value < 2 ^ 64 ->
  bitbuf_write_n_bits cfg b n value =
  if n <=? 64 then
    if value <? 2 ^ n then bitbuf__write_bits cfg b value n
    else if assert_traps cfg then Abort
    else bitbuf__write_bits cfg b value n
  else if assert_traps cfg then Abort else Ret b.
Proof.
  intros Hn Hv. destruct (Z.leb_spec n 64) as [Hle|Hgt].
  - destruct (Z.ltb_spec value (2 ^ n)) as [Hfit|Hbig].
    + apply write_n_bits_fits; lia.
    + unfold bitbuf_write_n_bits. pass_assert.
      destruct (Z.gtb_spec n 64) as [?|_]; [lia|].
      rewrite spanmask_spec by lia. cbn [bind].
      rewrite land_lnot_mask by lia.
      pose proof (pow2_pos n ltac:(lia)) as Hpn.
      assert (0 < value / 2 ^ n) as Hq by (apply Z.div_str_pos; lia).
      unfold c_assert.
      destruct (Z.eqb_spec (2 ^ n * (value / 2 ^ n)) 0) as [E|_]; [nia|].
      now destruct (assert_traps cfg).
  - unfold bitbuf_write_n_bits, c_assert.
    destruct (Z.leb_spec n 64) as [?|_]; [lia|].
    destruct (Z.gtb_spec n 64) as [_|?]; [|lia].
    now destruct (assert_traps cfg).
Qed.

Lemma write_n_bits_checks_witness :
  bitbuf_write_n_bits libc_assert fresh_buffer 1 3 =
  if 1 <=? 64 then
    if 3 <? 2 ^ 1 then bitbuf__write_bits libc_assert fresh_buffer 3 1
    else if assert_traps libc_assert then Abort
    else bitbuf__write_bits libc_assert fresh_buffer 3 1
  else if assert_traps libc_assert then Abort else Ret fresh_buffer.
Proof.
  apply (write_n_bits_checks libc_assert fresh_buffer 1 3).
  - lia.
  - by_eval.
Defined.

Lemma fresh_buffer_wf : buffer_wf fresh_buffer /\ clean_tail fresh_buffer.
Proof.
  destruct (alloc_buffer_wf libc_assert 8 ltac:(lia)) as (b & Ha & Hwf & Hcl & _).
  rewrite fresh_buffer_alloc in Ha. injection Ha as <-. now split.
Qed.

(** X16. A string that does not fit is cut, not refused: on a
    well-formed buffer that is open for writing and has no bit set at or
    after its write position, when the room left is less than the bytes
    of the string plus the terminator,
    [bitbuf_write_cstr] (with hooks that let the overflow branch return)
    writes the bytes for which there is room, whole bytes only, sets the
    truncation flag and returns; the terminator is never among the bytes
    written. *)
Theorem cstr_overflow (cfg : assert_cfg) (b : bitbuf_buffer_t) (str : list byte) :
  buffer_wf b -> clean_tail b ->
  owner (write b) = false ->
  assert_fail_traps cfg = false ->
  8 * capacity_bytes b - bit_position (write b)
    < 8 * (Z.of_nat (length (cstr_bytes str)) + 1) ->
  exists b',
    bitbuf_write_cstr cfg b str = Ret b'
    /\ bitbuf_has_truncated b' = true
    /\ bit_position (write b')
       = bit_position (write b)
         + 8 * Z.min (Z.of_nat (length (cstr_bytes str)))
                 ((8 * capacity_bytes b - bit_position (write b)) / 8)
    /\ segments_value (data b')
       = segments_value (data b)
         + 2 ^ bit_position (write b)
           * le_digits (take (Z.to_nat ((8 * capacity_bytes b
                                         - bit_position (write b)) / 8))
                          (cstr_bytes str)).
Proof.
  intros Hwf Hcl Ho Hfail Hlt.
  destruct (write_cstr_short cfg str b Hwf Hcl ltac:(now left) Hfail Hlt)
    as (b' & Hw & Ht & Hp & Hv).
  exists b'. split; [exact Hw|]. split; [|now split].
  unfold bitbuf_has_truncated. now rewrite Ht.
Qed.

Lemma cstr_overflow_witness :
  let str := map byte.of_Z [97; 98; 99; 100; 101; 102; 103; 104] in
  exists b',
    bitbuf_write_cstr libc_assert fresh_buffer str = Ret b'
    /\ bitbuf_has_truncated b' = true
    /\ bit_position (write b')
       = bit_position (write fresh_buffer)
         + 8 * Z.min (Z.of_nat (length (cstr_bytes str)))
                 ((8 * capacity_bytes fresh_buffer
                   - bit_position (write fresh_buffer)) / 8)
    /\ segments_value (data b')
       = segments_value (data fresh_buffer)
         + 2 ^ bit_position (write fresh_buffer)
           * le_digits (take (Z.to_nat ((8 * capacity_bytes fresh_buffer
                                         - bit_position (write fresh_buffer)) / 8))
                          (cstr_bytes str)).
Proof.
  cbn zeta.
  apply (cstr_overflow libc_assert fresh_buffer
           (map byte.of_Z [97; 98; 99; 100; 101; 102; 103; 104])).
  - apply fresh_buffer_wf.
  - apply fresh_buffer_wf.
  - reflexivity.
  - reflexivity.
  - by_eval.
Defined.

(** * Base-89: what the decoder accepts *)

Section Accepted.

Lemma decode_bytes_cases (u0 u1 u2 u3 max_index : Z) :
  decode_bytes u0 u1 u2 u3 max_index = 0
  \/ (u0 = 3 /\ 38 <= u1 <= 126 /\ 38 <= u2 <= 126 /\ 38 <= u3 <= 126
      /\ decode_bytes u0 u1 u2 u3 max_index = horner_index u1 u2 u3
      /\ horner_index u1 u2 u3 <= max_index).
Proof.
  unfold decode_bytes, in_alphabet.
  destruct (Z.eqb_spec u0 3) as [E0|E0]; cbn [negb orb]; [|now left].
  destruct (Z.leb_spec 38 u1), (Z.leb_spec u1 126); cbn [andb negb orb];
    try (now left).
  destruct (Z.leb_spec 38 u2), (Z.leb_spec u2 126); cbn [andb negb orb];
    try (now left).
  destruct (Z.leb_spec 38 u3), (Z.leb_spec u3 126); cbn [andb negb orb];
    try (now left).
  destruct (Z.gtb_spec (horner_index u1 u2 u3) max_index); [now left|].
  right. repeat split; lia.
Qed.

Lemma decode_base89_range (b0 b1 b2 b3 : byte) (max_index : Z) :
  0 <= max_index ->
  0 <= decode_base89 (le_word [b0; b1; b2; b3]) max_index <= max_index.
Proof.
  intros Hm. rewrite decode_base89_le_word.
  destruct (decode_bytes_cases (byte.unsigned b0) (byte.unsigned b1)
              (byte.unsigned b2) (byte.unsigned b3) max_index)
    as [-> | (_ & H1 & H2 & H3 & -> & Hle)]; [lia|].
  unfold horner_index in *. lia.
Qed.

Lemma four_bytes (bs : list byte) :
  length bs = 4%nat -> exists b0 b1 b2 b3, bs = [b0; b1; b2; b3].
Proof.
  destruct bs as [|b0 [|b1 [|b2 [|b3 [|]]]]]; try discriminate. intros _.
  now exists b0, b1, b2, b3.
Qed.

End Accepted.

(** X17. [b89_unpack] accepts nothing but what [b89_pack] writes: when
    unpacking four bytes gives an index other than 0, the index lies
    between 1 and the smaller of max_index and B89_CODE_MAX, and packing
    that index gives the same four bytes again, with the assertion of
    [b89_pack] holding. *)
Theorem b89_unpack_inverts_pack (cfg : assert_cfg) (b0 b1 b2 b3 : byte)
    (max_index index : Z) :
  b89_unpack [b0; b1; b2; b3] max_index = Ret index ->
  index <> 0 ->
  1 <= index <= max_index
  /\ index <= B89_CODE_MAX
  /\ b89_pack cfg index = Ret [b0; b1; b2; b3].
Proof.
  intros Hu Hnz. rewrite b89_unpack_bytes, decode_base89_le_word in Hu.
  injection Hu as Hu.
  pose proof (byte_range b1) as R1. pose proof (byte_range b2) as R2.
  pose proof (byte_range b3) as R3.
  destruct (decode_bytes_cases (byte.unsigned b0) (byte.unsigned b1)
              (byte.unsigned b2) (byte.unsigned b3) max_index)
    as [E | (E0 & H1 & H2 & H3 & E & Hle)]; [congruence|].
  rewrite E in Hu. unfold horner_index in *.
  set (u1 := byte.unsigned b1) in *. set (u2 := byte.unsigned b2) in *.
  set (u3 := byte.unsigned b3) in *.
  assert (index <= 704968) as Hmax by lia.
  split; [lia|]. split; [unfold B89_CODE_MAX; lia|].
  rewrite b89_pack_bytes by (right; unfold B89_CODE_MAX; lia).
  unfold packed_bytes.
  assert (index mod 89 + 38 = u1) as -> by (Z.div_mod_to_equations; lia).
  assert (index / 89 mod 89 + 38 = u2) as -> by (Z.div_mod_to_equations; lia).
  assert (index / 89 / 89 mod 89 + 38 = u3) as -> by (Z.div_mod_to_equations; lia).
  rewrite <- E0. unfold u1, u2, u3. now rewrite !byte.of_Z_unsigned.
Qed.

Lemma b89_unpack_inverts_pack_witness :
  1 <= 2 <= 3
  /\ 2 <= B89_CODE_MAX
  /\ b89_pack libc_assert 2
     = Ret [byte.of_Z 3; byte.of_Z 40; byte.of_Z 38; byte.of_Z 38].
Proof.
  apply (b89_unpack_inverts_pack libc_assert (byte.of_Z 3) (byte.of_Z 40)
           (byte.of_Z 38) (byte.of_Z 38) 3 2).
  - reflexivity.
  - discriminate.
Defined.

(** * Base-89: the iterator *)

Section IteratorSteps.

Variable cfg : assert_cfg.

Lemma scan_naive (mem : list byte) (in_ end_ : nat) :
  (in_ <= end_)%nat -> (end_ <= length mem)%nat ->
  scan_string_seg mem in_ end_ = Ret (naive_scan (end_ - in_) mem in_).
Proof. intros H1 H2. unfold scan_string_seg. apply scan_words_naive; lia. Qed.

(** The call at the end of the string. *)
Lemma iter_next_end (it : b89_iter_t) :
  (end_ it <= pos it)%nat -> b89_iter_next cfg it = Ret (0, it).
Proof.
  intros H. unfold b89_iter_next.
  now destruct (Nat.leb_spec (end_ it) (pos it)) as [_|?]; [|lia].
Qed.

(** The call that finds text before the next 0x03. *)
Lemma iter_next_text (it : b89_iter_t) (p : nat) :
  (pos it < end_ it)%nat -> (end_ it <= length (str it))%nat ->
  naive_scan (end_ it - pos it) (str it) (pos it) = p ->
  p <> pos it ->
  exists it',
    b89_iter_next cfg it = Ret (1, it')
    /\ str it' = str it /\ end_ it' = end_ it /\ max_index it' = max_index it
    /\ pos it' = p
    /\ event it' = Some (B89_EVENT_TEXT (pos it) (p - pos it)).
Proof.
  intros Hlt Hlen Hp Hne.
  pose proof (naive_scan_spec (end_ it - pos it) (str it) (pos it) ltac:(lia)) as Hs.
  cbn zeta in Hs. rewrite Hp in Hs. destruct Hs as (Hr & _ & _).
  unfold b89_iter_next.
  destruct (Nat.leb_spec (end_ it) (pos it)) as [?|_]; [lia|].
  rewrite scan_naive by lia. rewrite Hp. cbn [bind].
  cbn [set_pos set_event pos str end_ max_index event].
  destruct (Nat.eqb_spec (pos it) p) as [?|_]; [congruence|]. cbn [negb].
  rewrite c_assert_ok by (apply Nat.ltb_lt; lia). cbn [bind].
  eexists. split; [reflexivity|]. cbn [set_pos set_event pos str end_ max_index event].
  repeat split; reflexivity.
Qed.

(** The call on a 0x03 with four bytes left. *)
Lemma iter_next_code (it : b89_iter_t) (b : byte) :
  (pos it + 4 <= end_ it)%nat -> (end_ it <= length (str it))%nat ->
  str it !! pos it = Some b -> byte.unsigned b = 3 ->
  exists it',
    b89_iter_next cfg it = Ret (1, it')
    /\ str it' = str it /\ end_ it' = end_ it /\ max_index it' = max_index it
    /\ pos it' = (pos it + 4)%nat
    /\ event it'
       = Some (B89_EVENT_CODE
                 (decode_base89 (le_word (take 4 (drop (pos it) (str it))))
                    (max_index it))).
Proof.
  intros Hfour Hlen Hb Hst.
  unfold b89_iter_next.
  destruct (Nat.leb_spec (end_ it) (pos it)) as [?|_]; [lia|].
  rewrite scan_naive by lia.
  replace (end_ it - pos it)%nat with (S (end_ it - S (pos it))) by lia.
  rewrite (naive_scan_hit _ _ _ b Hb Hst). cbn [bind].
  cbn [set_pos set_event pos str end_ max_index event].
  rewrite Nat.eqb_refl. cbn [negb].
  unfold load_byte. rewrite Hb, Hst. cbn [bind]. change (3 =? B89_ST) with true.
  cbn match.
  destruct (Z.ltb_spec (Z.of_nat (end_ it) - Z.of_nat (pos it)) 4) as [?|_]; [lia|].
  destruct (load_le_chunk (str it) (pos it) 4 ltac:(lia)) as [-> _]. cbn [bind].
  eexists. split; [reflexivity|]. cbn [set_pos set_event pos str end_ max_index event].
  repeat split; reflexivity.
Qed.

(** The call on a 0x03 with fewer than four bytes left. *)
Lemma iter_next_cut (it : b89_iter_t) (b : byte) :
  (pos it < end_ it)%nat -> (end_ it < pos it + 4)%nat ->
  (end_ it <= length (str it))%nat ->
  str it !! pos it = Some b -> byte.unsigned b = 3 ->
  exists it', b89_iter_next cfg it = Ret (0, it').
Proof.
  intros Hlt Hfew Hlen Hb Hst.
  unfold b89_iter_next.
  destruct (Nat.leb_spec (end_ it) (pos it)) as [?|_]; [lia|].
  rewrite scan_naive by lia.
  replace (end_ it - pos it)%nat with (S (end_ it - S (pos it))) by lia.
  rewrite (naive_scan_hit _ _ _ b Hb Hst). cbn [bind].
  cbn [set_pos set_event pos str end_ max_index event].
  rewrite Nat.eqb_refl. cbn [negb].
  unfold load_byte. rewrite Hb, Hst. cbn [bind]. change (3 =? B89_ST) with true.
  cbn match.
  destruct (Z.ltb_spec (Z.of_nat (end_ it) - Z.of_nat (pos it)) 4) as [_|?]; [|lia].
  eexists. reflexivity.
Qed.

(** Every call returns; one that returns 1 has moved on and stored an
    event the caller can rely on. *)
Lemma iter_next_step (it : b89_iter_t) :
  (pos it <= end_ it)%nat -> (end_ it <= length (str it))%nat ->
  0 <= max_index it ->
  exists r it',
    b89_iter_next cfg it = Ret (r, it')
    /\ (r = 0
        \/ (r = 1
            /\ str it' = str it /\ end_ it' = end_ it
            /\ max_index it' = max_index it
            /\ (pos it < pos it' <= end_ it)%nat
            /\ exists e, event it' = Some e /\ event_in_range it e)).
Proof.
  intros Hle Hlen Hm.
  destruct (Nat.eq_dec (pos it) (end_ it)) as [E|E].
  { exists 0, it. split; [apply iter_next_end; lia | now left]. }
  pose proof (naive_scan_spec (end_ it - pos it) (str it) (pos it) ltac:(lia)) as Hs.
  cbn zeta in Hs. destruct Hs as (Hr & Hbefore & Hat).
  replace (pos it + (end_ it - pos it))%nat with (end_ it) in * by lia.
  set (p := naive_scan (end_ it - pos it) (str it) (pos it)) in *.
  destruct (Nat.eq_dec p (pos it)) as [Ep|Ep].
  - destruct (Hat ltac:(lia)) as (b & Hb & Hst). rewrite Ep in Hb.
    destruct (Nat.le_gt_cases (pos it + 4) (end_ it)) as [Hfour|Hfew].
    + destruct (iter_next_code it b Hfour Hlen Hb Hst)
        as (it' & Hn & Hs' & He' & Hm' & Hp' & Hev).
      exists 1, it'. split; [exact Hn|]. right.
      split; [reflexivity|]. split; [exact Hs'|]. split; [exact He'|].
      split; [exact Hm'|]. split; [lia|].
      eexists. split; [exact Hev|]. cbn [event_in_range].
      destruct (four_bytes (take 4 (drop (pos it) (str it))))
        as (c0 & c1 & c2 & c3 & ->).
      { rewrite length_take, length_drop. lia. }
      now apply decode_base89_range.
    + destruct (iter_next_cut it b ltac:(lia) Hfew Hlen Hb Hst) as (it' & Hn).
      exists 0, it'. split; [exact Hn | now left].
  - destruct (iter_next_text it p ltac:(lia) Hlen eq_refl Ep)
      as (it' & Hn & Hs' & He' & Hm' & Hp' & Hev).
    exists 1, it'. split; [exact Hn|]. right.
    split; [reflexivity|]. split; [exact Hs'|]. split; [exact He'|].
    split; [exact Hm'|]. split; [lia|].
    eexists. split; [exact Hev|]. cbn [event_in_range].
    split; [lia|]. split; [lia|]. split; [lia|].
    intros i c Hi Hc. apply (Hbefore i c); [lia | exact Hc].
Qed.

Lemma event_in_range_later (it it' : b89_iter_t) (e : b89_event_t) :
  str it' = str it -> end_ it' = end_ it -> max_index it' = max_index it ->
  (pos it <= pos it')%nat ->
  event_in_range it' e -> event_in_range it e.
Proof.
  intros Hs He Hm Hp. destruct e as [ptr len|index]; cbn [event_in_range].
  - rewrite Hs, He. intros (H1 & H2 & H3 & H4). repeat split; try lia. exact H4.
  - now rewrite Hm.
Qed.

(** The loop over a string ends, within as many calls as the string has
    bytes left (and one that returns 0). *)
Lemma events_total (n : nat) : forall it : b89_iter_t,
  (pos it <= end_ it)%nat -> (end_ it <= length (str it))%nat ->
  0 <= max_index it ->
  (end_ it - pos it < n)%nat ->
  exists evs,
    b89_events n cfg it = Ret evs /\ Forall (event_in_range it) evs.
Proof.
  induction n as [|n IH]; intros it Hle Hlen Hm Hn; [lia|].
  cbn [b89_events].
  destruct (iter_next_step it Hle Hlen Hm)
    as (r & it' & -> & [-> | (-> & Hs' & He' & Hm' & Hp' & e & Hev & Hin)]);
    cbn [bind fst snd].
  - exists []. split; [reflexivity | constructor].
  - change (1 =? 0) with false. cbn match. rewrite Hev.
    destruct (IH it' ltac:(rewrite He'; lia) ltac:(rewrite He', Hs'; exact Hlen)
                ltac:(rewrite Hm'; exact Hm) ltac:(rewrite He'; lia))
      as (evs & -> & Hall).
    exists (e :: evs). cbn [bind]. split; [reflexivity|].
    constructor; [exact Hin|].
    eapply Forall_impl; [exact Hall|]. intros e'.
    apply event_in_range_later; auto; lia.
Qed.

End IteratorSteps.

(** X18. The iterator is safe on every input: for any string and any
    range [pos, end) inside it, the loop
    [while (b89_iter_next(&it)) ...] ends after at most end - pos events,
    no call reads outside the string or trips the assertion on the text
    length, every text event is a non-empty span inside the range that
    holds no 0x03 byte, and every code event carries an index of at most
    max_index (0 for a code that is malformed or out of range). *)
Theorem b89_iteration_safe (cfg : assert_cfg) (it : b89_iter_t) :
  (pos it <= end_ it)%nat ->
  (end_ it <= length (str it))%nat ->
  0 <= max_index it ->
  exists evs,
    b89_events (S (end_ it - pos it)) cfg it = Ret evs
    /\ (length evs <= end_ it - pos it)%nat
    /\ Forall (event_in_range it) evs.
Proof.
  intros Hle Hlen Hm.
  destruct (events_total cfg (S (end_ it - pos it)) it Hle Hlen Hm ltac:(lia))
    as (evs & He & Hall).
  exists evs. split; [exact He|]. split; [|exact Hall].
  clear Hall. revert He. generalize (end_ it - pos it)%nat as n.
  intros n. revert it evs Hle Hlen Hm.
  assert (forall (f : nat) (it : b89_iter_t) (evs : list b89_event_t),
            b89_events (S f) cfg it = Ret evs -> (length evs <= f)%nat) as Hcount.
  { induction f as [|f IH]; intros it evs H.
    - cbn [b89_events] in H. destruct (b89_iter_next cfg it) as [[r it']| | |]; cbn [bind fst snd] in H;
        try discriminate H.
      destruct (r =? 0); cbn match in H; [now injection H as <-|].
      destruct (event it'); discriminate H.
    - remember (S f) as f1. cbn [b89_events] in H.
      destruct (b89_iter_next cfg it) as [[r it']| | |]; cbn [bind fst snd] in H;
        try discriminate H.
      destruct (r =? 0); cbn match in H; [injection H as <-; cbn; lia|].
      destruct (event it'); [|discriminate H].
      destruct (b89_events f1 cfg it') as [rest| | |] eqn:E; cbn [bind] in H;
        try discriminate H.
      injection H as <-. subst f1. apply IH in E. cbn [length]. lia. }
  intros it evs _ _ _ He. now apply Hcount in He.
Qed.

Lemma b89_iteration_safe_witness :
  let it := b89_iter_init example_str 17 10000 in
  exists evs,
    b89_events (S (end_ it - pos it)) libc_assert it = Ret evs
    /\ (length evs <= end_ it - pos it)%nat
    /\ Forall (event_in_range it) evs.
Proof.
  cbn zeta. apply (b89_iteration_safe libc_assert (b89_iter_init example_str 17 10000)).
  - cbn. lia.
  - cbn. lia.
  - cbn. lia.
Defined.

Section Tokens.

Variable cfg : assert_cfg.

Lemma decode_packed (index max_index : Z) :
  0 <= index <= B89_CODE_MAX ->
  decode_base89 (le_word (packed_bytes index)) max_index
  = if index <=? max_index then index else B89_ERROR_INDEX.
Proof.
  intros Hi. pose proof (unpack_packed_bytes index max_index Hi) as Hu.
  unfold packed_bytes in Hu. rewrite b89_unpack_bytes in Hu.
  assert (decode_base89 (le_word (packed_bytes index)) max_index
          = if index >? max_index then 0 else index) as ->
    by (unfold packed_bytes; congruence).
  destruct (Z.gtb_spec index max_index), (Z.leb_spec index max_index);
    try lia; reflexivity.
Qed.

Lemma packed_bytes_first (index : Z) :
  exists rest, packed_bytes index = byte.of_Z 3 :: rest /\ length rest = 3%nat.
Proof. eexists. split; reflexivity. Qed.

(** The events of a string made of text and codes. *)
Lemma events_of_tokens (max : Z) (ts : list b89_token) :
  forall (pre : list byte) (it : b89_iter_t),
  tokens_ok ts ->
  str it = pre ++ encode_tokens ts ->
  pos it = length pre ->
  end_ it = length (str it) ->
  max_index it = max ->
  b89_events (S (length ts)) cfg it = Ret (token_events max (length pre) ts).
Proof.
  induction ts as [|t rest IH]; intros pre it Hok Hstr Hpos Hend Hmax.
  - cbn [b89_events encode_tokens token_events] in *.
    rewrite iter_next_end; [reflexivity|].
    rewrite Hend, Hstr, Hpos, app_nil_r. lia.
  - remember (S (length rest)) as fuel eqn:Hfuel.
    cbn [length]. rewrite <- Hfuel. cbn [b89_events].
    destruct t as [text|index]; cbn [tokens_ok encode_tokens token_events] in *.
    + destruct Hok as (Hne & Hno & Hnext & Hok).
      assert (0 < length text)%nat as Hlt by (destruct text; [congruence|cbn; lia]).
      assert (length (str it)
              = (length pre + (length text + length (encode_tokens rest)))%nat) as Hl
        by (now rewrite Hstr, !length_app).
      assert (naive_scan (end_ it - pos it) (str it) (pos it)
              = (pos it + length text)%nat) as Hscan.
      { replace (end_ it - pos it)%nat
          with (length text + length (encode_tokens rest))%nat by lia.
        rewrite naive_scan_skip.
        - destruct rest as [|[text'|index'] rest']; cbn [encode_tokens] in *.
          + reflexivity.
          + contradiction.
          + destruct (packed_bytes_first index') as (tl & -> & _).
            cbn [app length]. apply (naive_scan_hit _ _ _ (byte.of_Z 3));
              [|reflexivity].
            rewrite Hstr, Hpos, lookup_app_r by lia.
            replace (length pre + length text - length pre)%nat
              with (length text + 0)%nat by lia.
            now rewrite lookup_app_r, Nat.add_0_r, Nat.sub_diag by lia.
        - intros i Hi. destruct (lookup_lt_is_Some_2 text i Hi) as [c Hc].
          exists c. split.
          + rewrite Hstr, Hpos, lookup_app_r by lia.
            replace (length pre + i - length pre)%nat with i by lia.
            now rewrite lookup_app_l.
          + apply (Forall_lookup_1 _ _ _ _ Hno Hc). }
      destruct (iter_next_text cfg it (pos it + length text)%nat
                  ltac:(lia) ltac:(lia) Hscan ltac:(lia))
        as (it' & -> & Hs' & He' & Hm' & Hp' & Hev).
      cbn [bind fst snd]. change (1 =? 0) with false. cbn match. rewrite Hev.
      rewrite (IH (pre ++ text) it'); try assumption.
      * cbn [bind]. rewrite Hpos, length_app.
        replace (length pre + length text - length pre)%nat with (length text) by lia.
        reflexivity.
      * now rewrite Hs', Hstr, app_assoc.
      * now rewrite Hp', Hpos, length_app.
      * now rewrite He', Hs'.
      * congruence.
    + destruct Hok as (Hi & Hok).
      destruct (packed_bytes_first index) as (tl & Hpk & Htl).
      assert (length (packed_bytes index) = 4%nat) as Hl4 by reflexivity.
      assert (length (str it)
              = (length pre + (4 + length (encode_tokens rest)))%nat) as Hl
        by (now rewrite Hstr, !length_app, Hl4).
      assert (str it !! pos it = Some (byte.of_Z 3)) as Hb.
      { rewrite Hstr, Hpos, lookup_app_r, Nat.sub_diag, Hpk by lia. reflexivity. }
      destruct (iter_next_code cfg it (byte.of_Z 3) ltac:(lia) ltac:(lia) Hb eq_refl)
        as (it' & -> & Hs' & He' & Hm' & Hp' & Hev).
      cbn [bind fst snd]. change (1 =? 0) with false. cbn match. rewrite Hev.
      assert (take 4 (drop (pos it) (str it)) = packed_bytes index) as ->.
      { rewrite Hstr, Hpos, drop_app_length.
        now rewrite take_app_length' by exact Hl4. }
      rewrite decode_packed, Hmax by exact Hi.
      replace (pre ++ packed_bytes index ++ encode_tokens rest)
        with ((pre ++ packed_bytes index) ++ encode_tokens rest) in Hstr
        by (now rewrite app_assoc).
      rewrite (IH (pre ++ packed_bytes index) it'); try assumption.
      * cbn [bind]. now rewrite length_app, Hl4.
      * now rewrite Hs'.
      * now rewrite Hp', Hpos, length_app, Hl4.
      * now rewrite He', Hs'.
      * congruence.
Qed.

End Tokens.

(** X19. The iterator takes a string apart into the pieces it was made
    of: for a list of pieces, runs of text (not empty, without a 0x03
    byte, no two in a row) and codes (indices 0 to B89_CODE_MAX, each as
    the four bytes [b89_pack] stores), the loop over the string they spell
    yields one event for each piece, in order: for a run of text its
    offset and length, for a code its index, or 0 when the index is above
    max_index; after the last piece [b89_iter_next] returns 0. *)
Theorem b89_tokens_roundtrip (cfg : assert_cfg) (max_index : Z)
    (ts : list b89_token) :
  tokens_ok ts ->
  b89_events (S (length ts)) cfg
    (b89_iter_init (encode_tokens ts) (length (encode_tokens ts)) max_index)
  = Ret (token_events max_index 0 ts).
Proof.
  intros Hok.
  apply (events_of_tokens cfg max_index ts [] _ Hok); reflexivity.
Qed.

Lemma b89_tokens_roundtrip_witness :
  let ts := [TokText (map byte.of_Z [72; 101; 108; 108; 111; 44; 32]);
             TokCode 2;
             TokText (map byte.of_Z [103; 117; 121]);
             TokCode 704968; TokCode 0] in
  b89_events (S (length ts)) libc_assert
    (b89_iter_init (encode_tokens ts) (length (encode_tokens ts)) 1000)
  = Ret (token_events 1000 0 ts).
Proof.
  cbn zeta.
  apply (b89_tokens_roundtrip libc_assert 1000
           [TokText (map byte.of_Z [72; 101; 108; 108; 111; 44; 32]);
            TokCode 2;
            TokText (map byte.of_Z [103; 117; 121]);
            TokCode 704968; TokCode 0]).
  cbn [tokens_ok]. repeat constructor; by_eval.
Defined.

(** * The alignment macros and the depth of the recursion *)

Section Macros.

Lemma align_down_pow2 (k n : Z) :
  0 <= k -> BITBUF__ALIGN_DOWN n (2 ^ k) = 2 ^ k * (n / 2 ^ k).
Proof.
  intros Hk. pose proof (pow2_pos k Hk) as Hp. unfold BITBUF__ALIGN_DOWN.
  replace (Z.lnot (2 ^ k - 1)) with (0 + 2 ^ k * -1) by (unfold Z.lnot; lia).
  rewrite (Z.div_mod n (2 ^ k)) at 1 by lia.
  rewrite Z.add_comm, land_split by (try apply Z.mod_pos_bound; lia).
  rewrite Z.land_0_r, Z.land_m1_r. lia.
Qed.

End Macros.

(** X20. The alignment macros on [size_t] operands, as
    [bitbuf_alloc_buffer] uses BITBUF__ALIGN_UP, for every power of two
    a = 2^k below 2^64 and every n: BITBUF__ALIGN_DOWN(n, a) is the
    largest multiple of a that is at most n. BITBUF__ALIGN_UP(n, a) is the
    smallest multiple of a that is at least n as long as n + a - 1 does
    not wrap; for the a - 1 largest values of n it wraps around and is 0.
    It is the expression on the integers taken modulo 2^64, as
    [bitbuf_alloc_buffer] has it. BITBUF__ALIGN_UP_DELTA(n, a) is a number
    from 0 to a - 1, the distance from n up to the next multiple of a
    (which may be 2^64 itself); ALIGN_DOWN and ALIGN_UP_DELTA have the
    values of their expressions on the integers. *)
Theorem align_macros (k n : Z) :
  0 <= k < 64 ->
  0 <= n < 2 ^ 64 ->
  BITBUF__ALIGN_DOWN_size_t n (2 ^ k) = 2 ^ k * (n / 2 ^ k)
  /\ BITBUF__ALIGN_DOWN_size_t n (2 ^ k) <= n
     < BITBUF__ALIGN_DOWN_size_t n (2 ^ k) + 2 ^ k
  /\ BITBUF__ALIGN_UP_size_t n (2 ^ k)
     = (if n + 2 ^ k - 1 <? 2 ^ 64 then 2 ^ k * ((n + 2 ^ k - 1) / 2 ^ k) else 0)
  /\ BITBUF__ALIGN_UP_size_t n (2 ^ k) = u64 (BITBUF__ALIGN_UP n (2 ^ k))
  /\ 0 <= BITBUF__ALIGN_UP_DELTA_size_t n (2 ^ k) < 2 ^ k
  /\ n + BITBUF__ALIGN_UP_DELTA_size_t n (2 ^ k) = 2 ^ k * ((n + 2 ^ k - 1) / 2 ^ k)
  /\ BITBUF__ALIGN_DOWN_size_t n (2 ^ k) = BITBUF__ALIGN_DOWN n (2 ^ k)
  /\ BITBUF__ALIGN_UP_DELTA_size_t n (2 ^ k) = BITBUF__ALIGN_UP_DELTA n (2 ^ k).
Proof.
  intros Hk Hn. pose proof (pow2_pos k ltac:(lia)) as Hp.
  pose proof (pow2_le k 63 ltac:(lia)) as Hp63.
  assert (2 ^ 64 = 2 ^ k * 2 ^ (64 - k)) as Hsplit
    by (rewrite <- Z.pow_add_r by lia; f_equal; lia).
  pose proof (pow2_pos (64 - k) ltac:(lia)) as Hm.
  assert (BITBUF__ALIGN_DOWN_size_t n (2 ^ k) = 2 ^ k * (n / 2 ^ k)) as Hdown
    by (unfold BITBUF__ALIGN_DOWN_size_t; apply land_lnot_mask; lia).
  assert (u64 (u64 (n + 2 ^ k) - 1) = u64 (n + 2 ^ k - 1)) as Hsum
    by (unfold u64; now rewrite Zminus_mod_idemp_l).
  assert (BITBUF__ALIGN_UP_size_t n (2 ^ k)
          = 2 ^ k * (u64 (n + 2 ^ k - 1) / 2 ^ k)) as Hup.
  { unfold BITBUF__ALIGN_UP_size_t, BITBUF__ALIGN_DOWN_size_t. rewrite Hsum.
    apply land_lnot_mask; [lia | apply u64_range]. }
  assert (BITBUF__ALIGN_UP n (2 ^ k) = 2 ^ k * ((n + 2 ^ k - 1) / 2 ^ k)) as Hplain
    by (unfold BITBUF__ALIGN_UP; apply align_down_pow2; lia).
  assert (BITBUF__ALIGN_UP_DELTA_size_t n (2 ^ k) = (2 ^ k - n) mod 2 ^ k) as Hdelta.
  { unfold BITBUF__ALIGN_UP_DELTA_size_t.
    rewrite land_mask by lia. apply u64_mod. lia. }
  set (a := 2 ^ k) in *. set (m := 2 ^ (64 - k)) in *.
  pose proof (Z.div_mod n a ltac:(lia)). pose proof (Z.mod_pos_bound n a Hp).
  pose proof (Z.div_mod (n + a - 1) a ltac:(lia)).
  pose proof (Z.mod_pos_bound (n + a - 1) a Hp).
  pose proof (Z.mod_pos_bound (a - n) a Hp).
  assert (BITBUF__ALIGN_UP_size_t n a
          = (if n + a - 1 <? 2 ^ 64 then a * ((n + a - 1) / a) else 0)) as Hcase.
  { rewrite Hup. destruct (Z.ltb_spec (n + a - 1) (2 ^ 64)) as [Hfit|Hwrap].
    - now rewrite u64_small by lia.
    - assert (u64 (n + a - 1) = n + a - 1 - 2 ^ 64) as ->.
      { unfold u64. symmetry. apply (Z.mod_unique _ _ 1); [left; lia | ring]. }
      rewrite Z.div_small by lia. lia. }
  split; [exact Hdown|]. split; [rewrite Hdown; lia|]. split; [exact Hcase|].
  split.
  { rewrite Hcase, Hplain.
    destruct (Z.ltb_spec (n + a - 1) (2 ^ 64)) as [Hfit|Hwrap].
    - rewrite u64_small; [reflexivity | nia].
    - assert ((n + a - 1) / a = m) as -> by nia.
      rewrite <- Hsplit. reflexivity. }
  split; [rewrite Hdelta; lia|].
  split.
  { rewrite Hdelta.
    assert ((a - n) mod a = a * ((n + a - 1) / a) - n) as ->; [|lia].
    symmetry. apply (Z.mod_unique _ _ (1 - (n + a - 1) / a)); [left; lia | ring]. }
  split; [rewrite Hdown; symmetry; apply align_down_pow2; lia|].
  rewrite Hdelta. unfold BITBUF__ALIGN_UP_DELTA. symmetry. now apply land_mask.
Qed.

Lemma align_macros_witness :
  0 <= 3 < 64 /\ 0 <= 2 ^ 64 - 3 < 2 ^ 64
  /\ BITBUF__ALIGN_DOWN_size_t (2 ^ 64 - 3) (2 ^ 3) = 2 ^ 3 * ((2 ^ 64 - 3) / 2 ^ 3)
  /\ BITBUF__ALIGN_DOWN_size_t (2 ^ 64 - 3) (2 ^ 3) <= 2 ^ 64 - 3
     < BITBUF__ALIGN_DOWN_size_t (2 ^ 64 - 3) (2 ^ 3) + 2 ^ 3
  /\ BITBUF__ALIGN_UP_size_t (2 ^ 64 - 3) (2 ^ 3)
     = (if 2 ^ 64 - 3 + 2 ^ 3 - 1 <? 2 ^ 64
        then 2 ^ 3 * ((2 ^ 64 - 3 + 2 ^ 3 - 1) / 2 ^ 3) else 0)
  /\ BITBUF__ALIGN_UP_size_t (2 ^ 64 - 3) (2 ^ 3)
     = u64 (BITBUF__ALIGN_UP (2 ^ 64 - 3) (2 ^ 3))
  /\ 0 <= BITBUF__ALIGN_UP_DELTA_size_t (2 ^ 64 - 3) (2 ^ 3) < 2 ^ 3
  /\ 2 ^ 64 - 3 + BITBUF__ALIGN_UP_DELTA_size_t (2 ^ 64 - 3) (2 ^ 3)
     = 2 ^ 3 * ((2 ^ 64 - 3 + 2 ^ 3 - 1) / 2 ^ 3)
  /\ BITBUF__ALIGN_DOWN_size_t (2 ^ 64 - 3) (2 ^ 3)
     = BITBUF__ALIGN_DOWN (2 ^ 64 - 3) (2 ^ 3)
  /\ BITBUF__ALIGN_UP_DELTA_size_t (2 ^ 64 - 3) (2 ^ 3)
     = BITBUF__ALIGN_UP_DELTA (2 ^ 64 - 3) (2 ^ 3).
Proof.
  split; [lia|]. split; [lia|].
  apply (align_macros 3 (2 ^ 64 - 3)); lia.
Defined.

(** X21. The recursion of [bitbuf__write_bits] is one level deep: on
    every buffer, datum and width, and whatever the assertion hooks do, a
    call and the one nested call it may make for the part of a datum that
    goes into the next segment are all there is; the nested call never
    calls again, so two levels of calls never run out. *)
Theorem write_bits_recursion_depth (cfg : assert_cfg) (b : bitbuf_buffer_t)
    (datum n : Z) :
  bitbuf__write_bits_rec 2 cfg b datum n <> OutOfFuel.
Proof. apply (write_bits_fuel cfg b datum n). Qed.

(** * Why the round trips ask for a buffer without set bits

    The writers OR into the segment, so what is read back over set bits
    is the old bits joined with the new. On the writable buffer that
    [bitbuf_init_buffer_with_bytes] makes of eight 0xFF bytes, a [false]
    reads back [true], the [uint8_t] 0 reads back 255, the fields 5 (4
    bits) and 0 (3 bits) read back 15 and 7, and min = 0 quantized to 4
    bits over [0, 1] reads back 1. *)
Lemma writes_over_set_bits :
  exists w,
    bitbuf_init_buffer_with_bytes libc_assert ones_bytes 8 = Ret w
    /\ owner (write w) = false
    /\ bitbuf__remaining_capacity_in_bits libc_assert w = Ret 64
    /\ (exists b',
          bitbuf_write_bool libc_assert w false 0 = Ret b'
          /\ bitbuf_read_bool libc_assert (frozen b') (cursor_at (write w))
             = Ret (true, cursor_at (write b')))
    /\ (exists b',
          bitbuf_write_type libc_assert 8 w 0 0 = Ret b'
          /\ bitbuf_read_type libc_assert 8 false (frozen b') (cursor_at (write w))
             = Ret (255, cursor_at (write b')))
    /\ (exists b',
          write_fields libc_assert w [(4, 5); (3, 0)] = Ret b'
          /\ read_fields libc_assert (frozen b') (cursor_at (write w)) [4; 3]
             = Ret ([(15, 15); (7, 7)], cursor_at (write b')))
    /\ (exists b' rd',
          bitbuf_write_quantized_float libc_assert w 4 (f32_of_Z 0) (f32_of_Z 1)
            (f32_of_Z 0) = Ret b'
          /\ bitbuf_read_quantized_float libc_assert (fst (bitbuf_cursor_init b'))
               (cursor_at (write w)) 4 (f32_of_Z 0) (f32_of_Z 1)
             = Ret (f32_of_Z 1, rd'))
    /\ ~ quantized_returns libc_assert w 4 (f32_of_Z 0) (f32_of_Z 1) (f32_of_Z 0).
Proof.
  eexists. split; [vm_compute; reflexivity|].
  split; [reflexivity|]. split; [vm_compute; reflexivity|].
  split; [eexists; split; [vm_compute; reflexivity|vm_compute; reflexivity]|].
  split; [eexists; split; [vm_compute; reflexivity|vm_compute; reflexivity]|].
  split; [eexists; split; [vm_compute; reflexivity|vm_compute; reflexivity]|].
  split; [eexists; eexists; split; [vm_compute; reflexivity|vm_compute; reflexivity]|].
  intros (b' & q & rd' & Hw & Hr & Heq).
  vm_compute in Hw. injection Hw as <-.
  vm_compute in Hr. injection Hr as <- _. discriminate Heq.
Qed.
